(** * MemeAssembly: semantic analysis and translation

    A shallow embedding of the analyzers (functions.c, comparisons.c) and of
    the translator (translator.c) of the MemeAssembly compiler, with the
    properties of the command stream they check and emit.

    Conventions of the embedding:
    - [uint8_t] and [int] values are integers in [Z]; every comparison the
      code makes between them is made in [int] after promotion, so no
      wrap-around is involved except for the cast [(char) usedParameters],
      which is written out ([to_schar]);
    - [size_t] indices are [nat];
    - a [char *] is a [string]; the parameter slots of a command are a list,
      a slot that is absent from the list stands for a NULL slot; the
      translator reads a slot with [readParameter], which fails on an absent
      one, the analyzers with [parameterAt];
    - the command array is a list, its [size] is the length of the list;
    - the text written to [outputFile] is a [string];
    - the debug messages (printDebugMessage) change nothing that the
      analyzers or the translator read, and are left out. *)

From Stdlib Require Import ZArith List String Ascii Bool Lia Arith PeanoNat.
From Stdlib Require Import DecimalString.
Import ListNotations.

Local Open Scope string_scope.
Local Open Scope Z_scope.
Local Open Scope list_scope.

(** ** The command stream (commands.h) *)

Record parsedCommand : Type := mkParsedCommand {
  opcode     : Z;            (* uint8_t *)
  parameters : list string;  (* char *parameters[MAX_PARAMETER_COUNT] *)
  isPointer  : Z;            (* uint8_t: 0 = none, 1 = first parameter, 2 = second *)
  lineNum    : Z;            (* int *)
  translate  : Z             (* uint8_t, default 1 *)
}.

Record commandsArray : Type := mkCommandsArray {
  arrayPointer : list parsedCommand;
  randomIndex  : nat
}.

Definition size (ca : commandsArray) : nat := List.length (arrayPointer ca).

Record command : Type := mkCommand {
  pattern            : string;
  usedParameters     : Z;    (* uint8_t *)
  translationPattern : string
}.

Definition NUMBER_OF_COMMANDS : Z := 38.
Definition MAX_PARAMETER_COUNT : nat := 2.

(** ** The compile state and the diagnostics sink *)

Inductive compileMode : Type := executable | assemblyFile | objectFile.

Inductive optimisationLevel : Type := o_none | o_1 | o_2 | o_3 | o_s | o42069.

Inductive platform : Type := linux | macos | windows.

(** Modelled from the spec: the compile state (its header is not among the
    sources).  It carries the command stream, the log verbosity, the compile
    mode, the optimisation level, the STABS flag, and the error counter of the
    diagnostics collaborator. *)
Record compileState : Type := mkCompileState {
  cs_commandsArray     : commandsArray;
  cs_logLevel          : Z;
  cs_compileMode       : compileMode;
  cs_optimisationLevel : optimisationLevel;
  cs_useStabs          : bool;
  cs_compilerErrors    : nat
}.

Record diagnostic : Type := mkDiagnostic {
  d_message   : string;
  d_lineNum   : Z;
  d_extraLine : option Z
}.

(** What an analyzer threads: the compile state it was handed and the
    diagnostics printed so far. *)
Definition analysis : Type := (compileState * list diagnostic)%type.

Definition diagnostics (st : analysis) : list diagnostic := snd st.

Definition bumpErrors (cs : compileState) : compileState :=
  {| cs_commandsArray     := cs_commandsArray cs;
     cs_logLevel          := cs_logLevel cs;
     cs_compileMode       := cs_compileMode cs;
     cs_optimisationLevel := cs_optimisationLevel cs;
     cs_useStabs          := cs_useStabs cs;
     cs_compilerErrors    := S (cs_compilerErrors cs) |}.

(** Modelled from the spec: printSemanticError (log.c is not among the
    sources) accepts a message and a line, records the diagnostic and counts
    one more error. *)
Definition printSemanticError (message : string) (line : Z) (st : analysis) : analysis :=
  (bumpErrors (fst st), snd st ++ [mkDiagnostic message line None]).

(** Modelled from the spec: printSemanticErrorWithExtraLineNumber (log.c) is
    the same with one auxiliary line. *)
Definition printSemanticErrorWithExtraLineNumber
    (message : string) (line extra : Z) (st : analysis) : analysis :=
  (bumpErrors (fst st), snd st ++ [mkDiagnostic message line (Some extra)]).

Definition commandsOf (st : analysis) : list parsedCommand :=
  arrayPointer (cs_commandsArray (fst st)).

Definition nullCommand : parsedCommand := mkParsedCommand 0 [] 0 0 0.

(** [parameters[i]] as an analyzer copies it.  An absent slot, a NULL pointer
    in the source, reads as the empty string here; the analyzers hand the
    slots they copied to [strcmp], which needs a string, so that what is
    proved of their comparisons is proved for streams whose slots are there
    ([declarationsNamed] and [comparisonSlotsFilled] below). *)
Definition parameterAt (pc : parsedCommand) (i : nat) : string :=
  nth i (parameters pc) EmptyString.

(** The double quote, which a string literal cannot hold. *)
Definition dquote : string := String (ascii_of_nat 34) EmptyString.

Definition msgExpectedReturn : string :=
  "Expected a return statement, but got a new function definition".
Definition msgNoReturn : string := "No return statement found".
Definition msgFloating : string := "Statement does not belong to any function".
Definition msgDuplicateFunction : string := "Duplicate function definition".
Definition msgNoMain : string :=
  "An executable cannot be created if no main-function exists".
Definition msgMarkerTwice : string :=
  "Comparison jump markers cannot be defined twice".
Definition msgNoFirstMarker : string :=
  "No comparison jump marker defined for first parameter".
Definition msgNoSecondMarker : string :=
  "No comparison jump marker defined for second parameter".
Definition msgNoSamePicture : string :=
  (dquote ++ "they're the same picture" ++ dquote ++ " wasn't defined anywhere")%string.

(** ** The function analyzer (functions.c) *)

Record function : Type := mkFunction {
  name             : string;
  definedInLine    : Z;
  numberOfCommands : nat
}.

(** The return family: [opcode > decl && opcode <= decl + 3]. *)
Definition isReturnOpcode (functionDeclarationOpcode op : Z) : bool :=
  (functionDeclarationOpcode <? op) && (op <=? functionDeclarationOpcode + 3).

(** The [while] loop of parseFunction.  [rest] holds the commands at
    [functionStartAtIndex + index] and after; the loop ends with the stream
    or breaks at a declaration.  It returns the [index] it stopped at, the
    [functionEndIndex] and the diagnostics state. *)
Fixpoint parseFunction_loop (functionDeclarationOpcode : Z)
    (rest : list parsedCommand) (index functionEndIndex : nat)
    (st : analysis) : nat * nat * analysis :=
  match rest with
  | [] => (index, functionEndIndex, st)
  | pc :: rest' =>
      if opcode pc =? functionDeclarationOpcode then
        (index, functionEndIndex,
         if (functionEndIndex =? 0)%nat
         then printSemanticError msgExpectedReturn (lineNum pc) st
         else st)
      else
        parseFunction_loop functionDeclarationOpcode rest' (S index)
          (if isReturnOpcode functionDeclarationOpcode (opcode pc)
           then index else functionEndIndex)
          st
  end.

Definition parseFunction (st : analysis) (functionStartAtIndex : nat)
    (functionDeclarationOpcode : Z) : function * analysis :=
  let functionStart := nth functionStartAtIndex (commandsOf st) nullCommand in
  let '(_, functionEndIndex, st1) :=
    parseFunction_loop functionDeclarationOpcode
      (skipn (functionStartAtIndex + 1) (commandsOf st)) 1%nat 0%nat st in
  let st2 :=
    if (functionEndIndex =? 0)%nat
    then printSemanticError msgNoReturn (lineNum functionStart) st1
    else st1 in
  (mkFunction (parameterAt functionStart 0) (lineNum functionStart) functionEndIndex,
   st2).

(** The inner [for] loop of checkFunctionValidity: between functions, every
    command that is not a declaration is reported; the loop breaks at a
    declaration.  [rest] holds the commands at [commandArrayIndex] and
    after. *)
Fixpoint floatingLoop (functionDeclarationOpcode : Z)
    (rest : list parsedCommand) (commandArrayIndex : nat)
    (st : analysis) : nat * analysis :=
  match rest with
  | [] => (commandArrayIndex, st)
  | pc :: rest' =>
      if negb (opcode pc =? functionDeclarationOpcode) then
        floatingLoop functionDeclarationOpcode rest' (S commandArrayIndex)
          (printSemanticError msgFloating (lineNum pc) st)
      else (commandArrayIndex, st)
  end.

(** The outer [while] loop of checkFunctionValidity, one unit of [fuel] per
    iteration. *)
Fixpoint functionLoop (fuel : nat) (functionDeclarationOpcode : Z)
    (commandArrayIndex : nat) (functions : list function)
    (st : analysis) : option (list function * analysis) :=
  match fuel with
  | O => None
  | S fuel' =>
      if (commandArrayIndex <? List.length (commandsOf st))%nat then
        let '(commandArrayIndex1, st1) :=
          floatingLoop functionDeclarationOpcode
            (skipn commandArrayIndex (commandsOf st)) commandArrayIndex st in
        if (List.length (commandsOf st1) <=? commandArrayIndex1)%nat then
          Some (functions, st1)
        else
          let '(fn, st2) :=
            parseFunction st1 commandArrayIndex1 functionDeclarationOpcode in
          functionLoop fuel' functionDeclarationOpcode
            (commandArrayIndex1 + numberOfCommands fn + 1)
            (functions ++ [fn]) st2
      else Some (functions, st)
  end.

(** The first loop of checkFunctionValidity: [functionDefinitions], the number
    of declarations, which sizes the array of functions and bounds the name
    check.  The embedding keeps the functions parsed so far as a list; the
    list has [functionDefinitions] elements at the end of the walk (proved
    below), so the name check runs over the list. *)
Definition countFunctionDefinitions (functionDeclarationOpcode : Z)
    (arr : list parsedCommand) : nat :=
  fold_left
    (fun functionDefinitions pc =>
       if opcode pc =? functionDeclarationOpcode
       then S functionDefinitions else functionDefinitions)
    arr 0%nat.

Definition mainFuncName (p : platform) : string :=
  match p with
  | macos => "_main"
  | _ => "main"
  end.

(** The inner [for j] loop of the name check: [function] is [functions[i]],
    [later] holds [functions[i+1 ..]]. *)
Fixpoint duplicateLoop (fn : function) (later : list function)
    (st : analysis) : analysis :=
  match later with
  | [] => st
  | fj :: later' =>
      duplicateLoop fn later'
        (if String.eqb (name fn) (name fj)
         then printSemanticErrorWithExtraLineNumber msgDuplicateFunction
                (definedInLine fj) (definedInLine fn) st
         else st)
  end.

(** The [for i] loop of the name check, with [mainFunctionExists]. *)
Fixpoint nameLoop (p : platform) (functions : list function)
    (mainFunctionExists : bool) (st : analysis) : bool * analysis :=
  match functions with
  | [] => (mainFunctionExists, st)
  | fn :: later =>
      nameLoop p later
        (if String.eqb (name fn) (mainFuncName p) then true else mainFunctionExists)
        (duplicateLoop fn later st)
  end.

Definition isExecutable (m : compileMode) : bool :=
  match m with executable => true | _ => false end.

Definition checkFunctionValidity (p : platform) (st : analysis)
    (functionDeclarationOpcode : Z) : option analysis :=
  match functionLoop (S (List.length (commandsOf st))) functionDeclarationOpcode
          0%nat [] st with
  | None => None
  | Some (functions, st1) =>
      let '(mainFunctionExists, st2) := nameLoop p functions false st1 in
      Some (if isExecutable (cs_compileMode (fst st2)) && negb mainFunctionExists
            then printSemanticError msgNoMain 1 st2
            else st2)
  end.

(** ** The comparison analyzers (comparisons.c) *)

Record comparison : Type := mkComparison {
  parameter1      : string;
  parameter2      : string;
  cmp_definedInLine : Z
}.

Record comparisonJumpLabel : Type := mkComparisonJumpLabel {
  parameter        : string;
  lbl_definedInLine : Z
}.

(** The first traversal of checkWhoWouldWinValidity: the two counters that
    size the arrays. *)
Definition countStep (whoWouldWinOpcode : Z) (acc : nat * nat)
    (pc : parsedCommand) : nat * nat :=
  if opcode pc =? whoWouldWinOpcode then (S (fst acc), snd acc)
  else if opcode pc =? whoWouldWinOpcode + 1 then (fst acc, S (snd acc))
  else acc.

Definition countComparisons (whoWouldWinOpcode : Z)
    (arr : list parsedCommand) : nat * nat :=
  fold_left (countStep whoWouldWinOpcode) arr (0%nat, 0%nat).

(** The second traversal: the comparisons and the jump labels, in stream
    order. *)
Definition collectStep (whoWouldWinOpcode : Z)
    (acc : list comparison * list comparisonJumpLabel)
    (pc : parsedCommand) : list comparison * list comparisonJumpLabel :=
  if opcode pc =? whoWouldWinOpcode then
    (fst acc ++ [mkComparison (parameterAt pc 0) (parameterAt pc 1) (lineNum pc)],
     snd acc)
  else if opcode pc =? whoWouldWinOpcode + 1 then
    (fst acc,
     snd acc ++ [mkComparisonJumpLabel (parameterAt pc 0) (lineNum pc)])
  else acc.

Definition collectComparisons (whoWouldWinOpcode : Z)
    (arr : list parsedCommand) : list comparison * list comparisonJumpLabel :=
  fold_left (collectStep whoWouldWinOpcode) arr ([], []).

(** The label duplicity check: [for j = i + 1 ..] against label [i]. *)
Fixpoint labelDuplicateLoop (li : comparisonJumpLabel)
    (later : list comparisonJumpLabel) (st : analysis) : analysis :=
  match later with
  | [] => st
  | lj :: later' =>
      labelDuplicateLoop li later'
        (if String.eqb (parameter li) (parameter lj)
         then printSemanticErrorWithExtraLineNumber msgMarkerTwice
                (lbl_definedInLine lj) (lbl_definedInLine li) st
         else st)
  end.

Fixpoint labelLoop (labels : list comparisonJumpLabel) (st : analysis) : analysis :=
  match labels with
  | [] => st
  | li :: later => labelLoop later (labelDuplicateLoop li later st)
  end.

(** The label existence check of one comparison: the [for j] loop that sets
    [parameter1Defined] and [parameter2Defined]. *)
Fixpoint definedLoop (c : comparison) (labels : list comparisonJumpLabel)
    (parameter1Defined parameter2Defined : bool) : bool * bool :=
  match labels with
  | [] => (parameter1Defined, parameter2Defined)
  | l :: labels' =>
      definedLoop c labels'
        (if String.eqb (parameter1 c) (parameter l) then true else parameter1Defined)
        (if String.eqb (parameter2 c) (parameter l) then true else parameter2Defined)
  end.

Definition checkComparison (labels : list comparisonJumpLabel)
    (st : analysis) (c : comparison) : analysis :=
  let '(parameter1Defined, parameter2Defined) := definedLoop c labels false false in
  let st1 :=
    if negb parameter1Defined
    then printSemanticError msgNoFirstMarker (cmp_definedInLine c) st
    else st in
  if negb parameter2Defined
  then printSemanticError msgNoSecondMarker (cmp_definedInLine c) st1
  else st1.

Definition checkWhoWouldWinValidity (st : analysis) (whoWouldWinOpcode : Z) : analysis :=
  let '(comparisons, comparisonJumpLabels) :=
    collectComparisons whoWouldWinOpcode (commandsOf st) in
  let st1 := labelLoop comparisonJumpLabels st in
  fold_left (checkComparison comparisonJumpLabels) comparisons st1.

(** The first traversal of checkTheyreTheSamePictureValidity: the line of the
    most recent jump label, 0 when none was seen. *)
Definition jumpMarkerStep (comparisonOpcode : Z) (jumpMarkerDefined : Z)
    (pc : parsedCommand) : Z :=
  if opcode pc =? comparisonOpcode + 1 then lineNum pc else jumpMarkerDefined.

Definition samePictureStep (comparisonOpcode : Z) (st : analysis)
    (pc : parsedCommand) : analysis :=
  if opcode pc =? comparisonOpcode
  then printSemanticError msgNoSamePicture (lineNum pc) st
  else st.

Definition checkTheyreTheSamePictureValidity (st : analysis)
    (comparisonOpcode : Z) : analysis :=
  let jumpMarkerDefined :=
    fold_left (jumpMarkerStep comparisonOpcode) (commandsOf st) 0 in
  if jumpMarkerDefined =? 0
  then fold_left (samePictureStep comparisonOpcode) (commandsOf st) st
  else st.

(** ** The analyzers over any diagnostics collaborator

    log.c is not among the sources.  In this part the two printing functions
    the analyzers call are parameters: any two functions on the state an
    analyzer threads.  The analyzers are embedded once more over them, and a
    read of the command array after a print is a read of the state as the
    print left it, as in the source: the loops that print and go on reading
    (the scan between two functions and the second loop of
    checkTheyreTheSamePictureValidity) take one unit of [fuel] per
    iteration. *)

Section AnyCollaborator.

Variable semanticError : string -> Z -> analysis -> analysis.
Variable semanticErrorWithExtraLineNumber : string -> Z -> Z -> analysis -> analysis.

(** The [while] loop of parseFunction: it prints once at most, when it
    breaks, so that [rest], the commands at [functionStartAtIndex + index] and
    after when the loop is entered, is what it reads. *)
Fixpoint parseFunction_loop_with (functionDeclarationOpcode : Z)
    (rest : list parsedCommand) (index functionEndIndex : nat)
    (st : analysis) : nat * nat * analysis :=
  match rest with
  | [] => (index, functionEndIndex, st)
  | pc :: rest' =>
      if opcode pc =? functionDeclarationOpcode then
        (index, functionEndIndex,
         if (functionEndIndex =? 0)%nat
         then semanticError msgExpectedReturn (lineNum pc) st
         else st)
      else
        parseFunction_loop_with functionDeclarationOpcode rest' (S index)
          (if isReturnOpcode functionDeclarationOpcode (opcode pc)
           then index else functionEndIndex)
          st
  end.

Definition parseFunction_with (st : analysis) (functionStartAtIndex : nat)
    (functionDeclarationOpcode : Z) : function * analysis :=
  let functionStart := nth functionStartAtIndex (commandsOf st) nullCommand in
  let '(_, functionEndIndex, st1) :=
    parseFunction_loop_with functionDeclarationOpcode
      (skipn (functionStartAtIndex + 1) (commandsOf st)) 1%nat 0%nat st in
  let st2 :=
    if (functionEndIndex =? 0)%nat
    then semanticError msgNoReturn (lineNum functionStart) st1
    else st1 in
  (mkFunction (parameterAt functionStart 0) (lineNum functionStart) functionEndIndex,
   st2).

(** The inner [for] loop of checkFunctionValidity; the command at
    [commandArrayIndex] is read from the state of the iteration. *)
Fixpoint floatingLoop_with (fuel : nat) (functionDeclarationOpcode : Z)
    (commandArrayIndex : nat) (st : analysis) : option (nat * analysis) :=
  match fuel with
  | O => None
  | S fuel' =>
      match nth_error (commandsOf st) commandArrayIndex with
      | None => Some (commandArrayIndex, st)
      | Some pc =>
          if negb (opcode pc =? functionDeclarationOpcode) then
            floatingLoop_with fuel' functionDeclarationOpcode (S commandArrayIndex)
              (semanticError msgFloating (lineNum pc) st)
          else Some (commandArrayIndex, st)
      end
  end.

(** The outer [while] loop of checkFunctionValidity. *)
Fixpoint functionLoop_with (fuel : nat) (functionDeclarationOpcode : Z)
    (commandArrayIndex : nat) (functions : list function)
    (st : analysis) : option (list function * analysis) :=
  match fuel with
  | O => None
  | S fuel' =>
      if (commandArrayIndex <? List.length (commandsOf st))%nat then
        match floatingLoop_with (S fuel') functionDeclarationOpcode
                commandArrayIndex st with
        | None => None
        | Some (commandArrayIndex1, st1) =>
            if (List.length (commandsOf st1) <=? commandArrayIndex1)%nat then
              Some (functions, st1)
            else
              let '(fn, st2) :=
                parseFunction_with st1 commandArrayIndex1 functionDeclarationOpcode in
              functionLoop_with fuel' functionDeclarationOpcode
                (commandArrayIndex1 + numberOfCommands fn + 1)
                (functions ++ [fn]) st2
        end
      else Some (functions, st)
  end.

Fixpoint duplicateLoop_with (fn : function) (later : list function)
    (st : analysis) : analysis :=
  match later with
  | [] => st
  | fj :: later' =>
      duplicateLoop_with fn later'
        (if String.eqb (name fn) (name fj)
         then semanticErrorWithExtraLineNumber msgDuplicateFunction
                (definedInLine fj) (definedInLine fn) st
         else st)
  end.

Fixpoint nameLoop_with (p : platform) (functions : list function)
    (mainFunctionExists : bool) (st : analysis) : bool * analysis :=
  match functions with
  | [] => (mainFunctionExists, st)
  | fn :: later =>
      nameLoop_with p later
        (if String.eqb (name fn) (mainFuncName p) then true else mainFunctionExists)
        (duplicateLoop_with fn later st)
  end.

Definition checkFunctionValidity_with (fuel : nat) (p : platform) (st : analysis)
    (functionDeclarationOpcode : Z) : option analysis :=
  match functionLoop_with fuel functionDeclarationOpcode 0%nat [] st with
  | None => None
  | Some (functions, st1) =>
      let '(mainFunctionExists, st2) := nameLoop_with p functions false st1 in
      Some (if isExecutable (cs_compileMode (fst st2)) && negb mainFunctionExists
            then semanticError msgNoMain 1 st2
            else st2)
  end.

Fixpoint labelDuplicateLoop_with (li : comparisonJumpLabel)
    (later : list comparisonJumpLabel) (st : analysis) : analysis :=
  match later with
  | [] => st
  | lj :: later' =>
      labelDuplicateLoop_with li later'
        (if String.eqb (parameter li) (parameter lj)
         then semanticErrorWithExtraLineNumber msgMarkerTwice
                (lbl_definedInLine lj) (lbl_definedInLine li) st
         else st)
  end.

Fixpoint labelLoop_with (labels : list comparisonJumpLabel)
    (st : analysis) : analysis :=
  match labels with
  | [] => st
  | li :: later => labelLoop_with later (labelDuplicateLoop_with li later st)
  end.

Definition checkComparison_with (labels : list comparisonJumpLabel)
    (st : analysis) (c : comparison) : analysis :=
  let '(parameter1Defined, parameter2Defined) := definedLoop c labels false false in
  let st1 :=
    if negb parameter1Defined
    then semanticError msgNoFirstMarker (cmp_definedInLine c) st
    else st in
  if negb parameter2Defined
  then semanticError msgNoSecondMarker (cmp_definedInLine c) st1
  else st1.

(** The two traversals that fill the arrays print nothing; the checks that
    print run over the arrays. *)
Definition checkWhoWouldWinValidity_with (st : analysis)
    (whoWouldWinOpcode : Z) : analysis :=
  let '(comparisons, comparisonJumpLabels) :=
    collectComparisons whoWouldWinOpcode (commandsOf st) in
  let st1 := labelLoop_with comparisonJumpLabels st in
  fold_left (checkComparison_with comparisonJumpLabels) comparisons st1.

(** The second loop of checkTheyreTheSamePictureValidity, from index [i]. *)
Fixpoint samePictureLoop_with (fuel : nat) (comparisonOpcode : Z)
    (i : nat) (st : analysis) : option analysis :=
  match fuel with
  | O => None
  | S fuel' =>
      match nth_error (commandsOf st) i with
      | None => Some st
      | Some pc =>
          samePictureLoop_with fuel' comparisonOpcode (S i)
            (if opcode pc =? comparisonOpcode
             then semanticError msgNoSamePicture (lineNum pc) st
             else st)
      end
  end.

Definition checkTheyreTheSamePictureValidity_with (fuel : nat) (st : analysis)
    (comparisonOpcode : Z) : option analysis :=
  let jumpMarkerDefined :=
    fold_left (jumpMarkerStep comparisonOpcode) (commandsOf st) 0 in
  if jumpMarkerDefined =? 0
  then samePictureLoop_with fuel comparisonOpcode 0%nat st
  else Some st.

End AnyCollaborator.

(** ** The translator (translator.c) *)

Infix "+++" := String.append (at level 60, right associativity).

Definition tab : string := String (ascii_of_nat 9) EmptyString.
Definition nl : string := String (ascii_of_nat 10) EmptyString.

(** [%d] of printf. *)
Definition string_of_Z (z : Z) : string := NilZero.string_of_int (Z.to_int z).

Definition N_SO : Z := 100.
Definition N_SLINE : Z := 68.
Definition N_FUN : Z := 36.
Definition N_LBRAC : Z := 192.  (* 0xc0 *)
Definition N_RBRAC : Z := 224.  (* 0xe0 *)

(** What the C code does outside its arrays and with NULL strings is
    undefined; the embedding stops there and says where. *)
Inductive fault : Type :=
| CommandIndexOutOfBounds (index : nat)  (* arrayPointer[index], index >= size *)
| OpcodeOutOfTable (op : Z)              (* commandList[op] past the table *)
| ParameterMissing (slot : nat)          (* parameters[slot] NULL or past the slots *)
| FunctionNameMissing.                   (* currentFunctionName is NULL *)

Inductive result (A : Type) : Type :=
| Ok (a : A)
| Fault (f : fault).

Arguments Ok {A} a.
Arguments Fault {A} f.

Definition bind {A B : Type} (r : result A) (k : A -> result B) : result B :=
  match r with
  | Ok a => k a
  | Fault f => Fault f
  end.

Notation "x <- r ;; k" := (bind r (fun x => k))
  (at level 61, r at next level, right associativity).
Notation "' p <- r ;; k" := (bind r (fun x => let 'p := x in k))
  (at level 61, p pattern, r at next level, right associativity).

Record translatorState : Type := mkTranslatorState {
  currentFunctionName : option string;  (* char *, NULL at first *)
  DNLABEL             : Z               (* uint8_t *)
}.

(** [arrayPointer[index]]. *)
Definition readCommand (cs : compileState) (index : nat) : result parsedCommand :=
  match nth_error (arrayPointer (cs_commandsArray cs)) index with
  | Some pc => Ok pc
  | None => Fault (CommandIndexOutOfBounds index)
  end.

(** [parameters[slot]] used as a string. *)
Definition readParameter (pc : parsedCommand) (slot : nat) : result string :=
  match nth_error (parameters pc) slot with
  | Some s => Ok s
  | None => Fault (ParameterMissing slot)
  end.

(** The value of a [char] (signed on the three targets). *)
Definition char_val (c : ascii) : Z :=
  let n := Z.of_N (N_of_ascii c) in if n <? 128 then n else n - 256.

(** The cast [(char) u] of a [uint8_t]. *)
Definition to_schar (u : Z) : Z := if u <? 128 then u else u - 256.

Definition isOptimisation42069 (o : optimisationLevel) : bool :=
  match o with o42069 => true | _ => false end.

Definition stabs_writeFileInfo (cwd inputFileString : string) : string :=
  match inputFileString with
  | String "/"%char _ =>
      ".stabs " +++ dquote +++ inputFileString +++ dquote +++ ", "
        +++ string_of_Z N_SO +++ ", 0, 0, .Ltext0" +++ nl
  | _ =>
      ".stabs " +++ dquote +++ cwd +++ "/" +++ inputFileString +++ dquote +++ ", "
        +++ string_of_Z N_SO +++ ", 0, 0, .Ltext0" +++ nl
  end.

Definition stabs_writeFunctionInfo (functionName : string) : string :=
  ".stabs " +++ dquote +++ functionName +++ ":F1" +++ dquote +++ ", "
    +++ string_of_Z N_FUN +++ ", 0, 0, " +++ functionName +++ nl
  +++ ".stabn " +++ string_of_Z N_LBRAC +++ ", 0, 0, " +++ functionName +++ nl
  +++ ".stabn " +++ string_of_Z N_RBRAC +++ ", 0, 0, .Lret_" +++ functionName +++ nl.

Definition stabs_writeFunctionEndLabel (ts : translatorState) : result string :=
  match currentFunctionName ts with
  | Some functionName => Ok (tab +++ ".Lret_" +++ functionName +++ ":" +++ nl)
  | None => Fault FunctionNameMissing
  end.

Definition stabs_writeLineLabel (pc : parsedCommand) : string :=
  tab +++ ".Lcmd_" +++ string_of_Z (lineNum pc) +++ ":" +++ nl.

Definition stabs_writeLineInfo (pc : parsedCommand) : string :=
  tab +++ ".stabn " +++ string_of_Z N_SLINE +++ ", 0, "
    +++ string_of_Z (lineNum pc) +++ ", .Lcmd_" +++ string_of_Z (lineNum pc) +++ nl.

Section Translator.

(** The command table ([extern const struct command commandList[]]); it is
    defined in a file that is not among the sources, and is taken as given. *)
Variable commandList : list command.

Definition lookupCommand (op : Z) : result command :=
  if op <? 0 then Fault (OpcodeOutOfTable op)
  else match nth_error commandList (Z.to_nat op) with
       | Some c => Ok c
       | None => Fault (OpcodeOutOfTable op)
       end.

Definition stabs_ignore (op : Z) : result bool :=
  c <- lookupCommand op ;;
  Ok (String.eqb (translationPattern c) "int3").

(** The STABS label block at the head of translateToAssembly. *)
Definition stabsLabels (cs : compileState) (ts : translatorState)
    (index : nat) (pc : parsedCommand) : result (translatorState * string) :=
  if cs_useStabs cs then
    if opcode pc =? 0 then
      Ok (mkTranslatorState (nth_error (parameters pc) 0) (DNLABEL ts), EmptyString)
    else
      ignored <- stabs_ignore (opcode pc) ;;
      if ignored : bool then
        next <- readCommand cs (index + 1) ;;
        Ok (mkTranslatorState (currentFunctionName ts) 1, stabs_writeLineLabel next)
      else if DNLABEL ts =? 0 then
        Ok (ts, stabs_writeLineLabel pc)
      else
        Ok (mkTranslatorState (currentFunctionName ts) 0, EmptyString)
  else Ok (ts, EmptyString).

(** [character >= '0' && character <= (char) usedParameters + 47]. *)
Definition isParameterDigit (c : command) (character : ascii) : bool :=
  (48 <=? char_val character)
  && (char_val character <=? to_schar (usedParameters c) + 47).

(** The first pass over the pattern: the length the line is allocated for. *)
Fixpoint lineLength (pc : parsedCommand) (c : command) (pat : string)
    (strLen : nat) : result nat :=
  match pat with
  | EmptyString => Ok strLen
  | String character pat' =>
      if isParameterDigit c character then
        parameter <- readParameter pc (Z.to_nat (char_val character - 48)) ;;
        lineLength pc c pat'
          (strLen + String.length parameter
           + (if (isPointer pc =? (char_val character - 48) + 1)%Z then 2 else 0))%nat
      else lineLength pc c pat' strLen
  end.

(** The second pass: the line is built by appending to [translatedLine]. *)
Fixpoint expandPattern (pc : parsedCommand) (c : command) (pat : string)
    (translatedLine : string) : result string :=
  match pat with
  | EmptyString => Ok translatedLine
  | String character pat' =>
      if isParameterDigit c character then
        parameter <- readParameter pc (Z.to_nat (char_val character - 48)) ;;
        if isPointer pc =? (char_val character - 48) + 1 then
          expandPattern pc c pat' (((translatedLine +++ "[") +++ parameter) +++ "]")
        else
          expandPattern pc c pat' (translatedLine +++ parameter)
      else
        expandPattern pc c pat' (translatedLine +++ String character EmptyString)
  end.

(** What follows the translated line, by optimisation level. *)
Definition optimisationPadding (o : optimisationLevel) : string :=
  match o with
  | o_1 => tab +++ "nop" +++ nl
  | o_2 => tab +++ "push rax" +++ nl +++ tab +++ "pop rax" +++ nl
  | o_3 => tab +++ "movups [rsp + 8], xmm0" +++ nl
             +++ tab +++ "movups xmm0, [rsp + 8]" +++ nl
  | o42069 => tab +++ "xor rax, rax" +++ nl +++ tab +++ "ret" +++ nl
  | _ => EmptyString
  end.

(** The STABS block at the end of translateToAssembly. *)
Definition stabsLineInfo (cs : compileState) (ts : translatorState)
    (index : nat) (pc : parsedCommand) : result string :=
  if cs_useStabs cs && negb (opcode pc =? 0) then
    endOfFunction <-
      (if (0 <? opcode pc) && (opcode pc <=? 3) then
         if (size (cs_commandsArray cs) =? index + 1)%nat then Ok true
         else next <- readCommand cs (index + 1) ;; Ok (opcode next =? 0)
       else Ok false) ;;
    endLabel <-
      (if endOfFunction : bool then stabs_writeFunctionEndLabel ts
       else Ok EmptyString) ;;
    ignored <- stabs_ignore (opcode pc) ;;
    Ok (endLabel +++ (if negb ignored then stabs_writeLineInfo pc else EmptyString))
  else Ok EmptyString.

Definition translateToAssembly (cs : compileState) (ts : translatorState)
    (index : nat) : result (translatorState * string) :=
  pc <- readCommand cs index ;;
  if negb (opcode pc =? 0) && isOptimisation42069 (cs_optimisationLevel cs) then
    Ok (ts, EmptyString)
  else
    '(ts1, labels) <- stabsLabels cs ts index pc ;;
    c <- lookupCommand (opcode pc) ;;
    _ <- lineLength pc c (translationPattern c)
           (String.length (translationPattern c)) ;;
    translatedLine <- expandPattern pc c (translationPattern c) EmptyString ;;
    info <- stabsLineInfo cs ts1 index pc ;;
    Ok (ts1,
        labels
        +++ (if negb (opcode pc =? 0) then tab else EmptyString)
        +++ translatedLine +++ nl
        +++ optimisationPadding (cs_optimisationLevel cs)
        +++ info).

(** The translation loop of writeToFile over the indices [0 .. size). *)
Fixpoint translateLoop (cs : compileState) (indices : list nat)
    (ts : translatorState) : result (translatorState * string) :=
  match indices with
  | [] => Ok (ts, EmptyString)
  | i :: indices' =>
      pc <- readCommand cs i ;;
      '(ts1, out1) <-
        (if translate pc =? 1 then translateToAssembly cs ts i
         else Ok (ts, EmptyString)) ;;
      '(ts2, out2) <- translateLoop cs indices' ts1 ;;
      Ok (ts2,
          (if (i =? randomIndex (cs_commandsArray cs))%nat
           then tab +++ ".LConfusedStonks: " else EmptyString)
          +++ out1 +++ out2)
  end.

End Translator.

(** The two loops of writeToFile over the function declarations that are
    translated: [emit] is what is written for the name of each. *)
Fixpoint functionNamesLoop (emit : string -> string)
    (arr : list parsedCommand) : result string :=
  match arr with
  | [] => Ok EmptyString
  | pc :: arr' =>
      here <-
        (if (opcode pc =? 0) && (translate pc =? 1)
         then functionName <- readParameter pc 0 ;; Ok (emit functionName)
         else Ok EmptyString) ;;
      rest <- functionNamesLoop emit arr' ;;
      Ok (here +++ rest)
  end.

Definition globalDirective (functionName : string) : string :=
  ".global " +++ functionName +++ nl.

(** The head of the output, up to the [.Ltext0] anchor. *)
Definition prelude (p : platform) (version_string asctime cwd : string)
    (cs : compileState) (inputFileString : string) : result string :=
  globals <- functionNamesLoop globalDirective (arrayPointer (cs_commandsArray cs)) ;;
  Ok ("#" +++ nl +++ "# Generated by the MemeAssembly compiler " +++ version_string
        +++ " on " +++ asctime +++ "#" +++ nl
      +++ ".intel_syntax noprefix" +++ nl
      +++ globals
      +++ (match p with
           | windows =>
               nl +++ ".extern GetStdHandle" +++ nl +++ ".extern WriteFile" +++ nl
                  +++ ".extern ReadFile" +++ nl
           | _ => EmptyString
           end)
      +++ (match p with
           | macos => nl +++ ".data" +++ nl +++ tab
           | _ => nl +++ ".section .data" +++ nl +++ tab
           end)
      +++ ".LCharacter: .ascii " +++ dquote +++ "a" +++ dquote +++ nl
      +++ tab +++ ".Ltmp64: .byte 0, 0, 0, 0, 0, 0, 0, 0" +++ nl
      +++ (if cs_useStabs cs then stabs_writeFileInfo cwd inputFileString
           else EmptyString)
      +++ (match p with
           | macos => nl +++ nl +++ ".text" +++ nl +++ tab
           | _ => nl +++ nl +++ ".section .text" +++ nl
           end)
      +++ nl +++ nl +++ ".Ltext0:" +++ nl).

(** A Windows helper body: every instruction on a line of its own. *)
Definition windowsBody (label : string) (instructions : list string) : string :=
  nl +++ nl +++ label +++ ":" +++ nl
  +++ String.concat EmptyString (map (fun i => tab +++ i +++ nl) instructions).

Definition windowsWritechar : string :=
  windowsBody "writechar"
    [ "push rcx"; "push rax"; "push rdx"; "push r8"; "push r9";
      "sub rsp, 32"; "mov rcx, -11"; "call GetStdHandle";
      "mov rcx, rax"; "lea rdx, [rip + .LCharacter]"; "mov r8, 1";
      "lea r9, [rip + .Ltmp64]"; "mov QWORD PTR [rsp + 32], 0";
      "call WriteFile"; "add rsp, 32";
      "pop r9"; "pop r8"; "pop rdx"; "pop rax"; "pop rcx"; "ret" ].

Definition windowsReadchar : string :=
  windowsBody "readchar"
    [ "push rcx"; "push rax"; "push rdx"; "push r8"; "push r9";
      "sub rsp, 32"; "mov rcx, -10"; "call GetStdHandle";
      "mov rcx, rax"; "lea rdx, [rip + .LCharacter]"; "mov r8, 1";
      "lea r9, [rip + .Ltmp64]"; "mov QWORD PTR [rsp + 32], 0";
      "call ReadFile"; "add rsp, 32";
      "pop r9"; "pop r8"; "pop rdx"; "pop rax"; "pop rcx"; "ret" ].

(** The syscall variants; [LINUX] selects the syscall number. *)
Definition syscallWritechar (p : platform) : string :=
  nl +++ nl +++ "writechar:" +++ nl +++ tab
  +++ "push rcx" +++ nl +++ tab
  +++ "push r11" +++ nl +++ tab
  +++ "push rax" +++ nl +++ tab
  +++ "push rdi" +++ nl +++ tab
  +++ "push rsi" +++ nl +++ tab
  +++ "push rdx" +++ nl +++ tab
  +++ "mov rdx, 1" +++ nl +++ tab
  +++ "lea rsi, [rip + .LCharacter]" +++ nl +++ tab
  +++ (match p with
       | linux => "mov rax, 1"
       | _ => "mov rax, 0x2000004"
       end) +++ nl +++ tab
  +++ "syscall" +++ nl +++ tab
  +++ "pop rdx" +++ nl +++ tab
  +++ "pop rsi" +++ nl +++ tab
  +++ "pop rdi" +++ nl +++ tab
  +++ "pop rax" +++ nl +++ tab
  +++ "pop r11" +++ nl +++ tab
  +++ "pop rcx" +++ nl +++ tab +++ nl +++ tab
  +++ "ret" +++ nl.

Definition syscallReadchar (p : platform) : string :=
  nl +++ nl +++ "readchar:" +++ nl +++ tab
  +++ "push rcx" +++ nl +++ tab
  +++ "push r11" +++ nl +++ tab
  +++ "push rax" +++ nl +++ tab
  +++ "push rdi" +++ nl +++ tab
  +++ "push rsi" +++ nl +++ tab
  +++ "push rdx" +++ nl +++ nl +++ tab
  +++ "mov rdx, 1" +++ nl +++ tab
  +++ "lea rsi, [rip + .LCharacter]" +++ nl +++ tab
  +++ "mov rdi, 0" +++ nl +++ tab
  +++ (match p with
       | linux => "mov rax, 0"
       | _ => "mov rax, 0x2000003"
       end) +++ nl +++ tab
  +++ "syscall" +++ nl +++ nl +++ tab
  +++ "pop rdx" +++ nl +++ tab
  +++ "pop rsi" +++ nl +++ tab
  +++ "pop rdi" +++ nl +++ tab
  +++ "pop rax" +++ nl +++ tab
  +++ "pop r11" +++ nl +++ tab
  +++ "pop rcx" +++ nl +++ tab
  +++ "ret" +++ nl.

(** The [writechar] and [readchar] bodies, left out at level o42069. *)
Definition runtimeHelpers (p : platform) (o : optimisationLevel) : string :=
  if negb (isOptimisation42069 o) then
    match p with
    | windows => windowsWritechar +++ windowsReadchar
    | _ => syscallWritechar p +++ syscallReadchar p
    end
  else EmptyString.

(** The STABS function records and the end-of-file anchor. *)
Definition stabsEpilogue (cs : compileState) : result string :=
  if cs_useStabs cs then
    infos <- functionNamesLoop stabs_writeFunctionInfo
               (arrayPointer (cs_commandsArray cs)) ;;
    Ok (infos +++ nl +++ ".LEOF:" +++ nl
        +++ ".stabs " +++ dquote +++ dquote +++ ", " +++ string_of_Z N_SO
        +++ ", 0, 0, .LEOF" +++ nl)
  else Ok EmptyString.

Definition alignDirective (o : optimisationLevel) : string :=
  match o with
  | o_s => ".align 536870912" +++ nl
  | _ => EmptyString
  end.

Definition writeToFile (commandList : list command) (p : platform)
    (version_string asctime cwd : string)
    (cs : compileState) (inputFileString : string) : result string :=
  head <- prelude p version_string asctime cwd cs inputFileString ;;
  '(_, body) <-
    translateLoop commandList cs (seq 0 (size (cs_commandsArray cs)))
      (mkTranslatorState None 0) ;;
  stabs <- stabsEpilogue cs ;;
  Ok (head +++ body
      +++ runtimeHelpers p (cs_optimisationLevel cs)
      +++ stabs
      +++ alignDirective (cs_optimisationLevel cs)).

(** ** A command table and streams to run the embedding on *)

(** Modelled from the spec: a command table in the shape the spec gives the
    real one (which is defined in a file that is not among the sources):
    opcode 0 declares a function and is emitted as a label, opcodes 1 to 3
    return, a compare opcode is followed by its label opcode, and the
    breakpoint has the pattern int3. *)
Definition sampleCommandList : list command :=
  [ mkCommand "I like to have fun, fun, fun, fun, fun, fun, fun, fun, fun, fun p" 1 "0:";
    mkCommand "right back at ya, buckaroo" 0 "ret";
    mkCommand "I see this as an absolute win" 0
      ("mov rax, 60" +++ nl +++ tab +++ "mov rdi, 0" +++ nl +++ tab +++ "syscall");
    mkCommand "no, I don't think I will" 0 ("mov rax, 1" +++ nl +++ tab +++ "ret");
    mkCommand "p is brilliant, but I like p" 2 "mov 0, 1";
    mkCommand "it's a trap" 0 "int3";
    mkCommand "who would win? p or p" 2
      ("cmp 0, 1" +++ nl +++ tab +++ "jg .L0Wins" +++ nl +++ tab +++ "jl .L1Wins");
    mkCommand "p wins" 1 ".L0Wins:";
    mkCommand "corporate needs you to find the difference between p and p" 2
      ("cmp 0, 1" +++ nl +++ tab +++ "je .LSamePicture");
    mkCommand "they're the same picture" 0 ".LSamePicture:" ].

Definition sampleState (arr : list parsedCommand) (randomIdx : nat)
    (mode : compileMode) (o : optimisationLevel) (stabs : bool) : compileState :=
  mkCompileState (mkCommandsArray arr randomIdx) 0 mode o stabs 0.

Definition declaration (functionName : string) (line : Z) : parsedCommand :=
  mkParsedCommand 0 [functionName] 0 line 1.
Definition returnCommand (line : Z) : parsedCommand := mkParsedCommand 1 [] 0 line 1.
Definition moveCommand (a b : string) (line : Z) : parsedCommand :=
  mkParsedCommand 4 [a; b] 0 line 1.
Definition trapCommand (line : Z) : parsedCommand := mkParsedCommand 5 [] 0 line 1.

(** A function whose last return is followed by one more command. *)
Definition streamTrailing : list parsedCommand :=
  [declaration "f" 1; returnCommand 2; moveCommand "rax" "rbx" 3].

(** A function with an early return, a later return, and a trailing command,
    between two other functions. *)
Definition streamTwoReturns : list parsedCommand :=
  [declaration "main" 1; returnCommand 2;
   declaration "f" 3; returnCommand 4; moveCommand "rax" "rbx" 5; returnCommand 6;
   moveCommand "rcx" "rdx" 7;
   declaration "g" 8; returnCommand 9].

(** A function without a return, followed by another function. *)
Definition streamNoReturn : list parsedCommand :=
  [declaration "f" 1; moveCommand "rax" "rbx" 2; declaration "g" 3; returnCommand 4].

Definition whoWouldWin (a b : string) (line : Z) : parsedCommand :=
  mkParsedCommand 6 [a; b] 0 line 1.
Definition winsLabel (a : string) (line : Z) : parsedCommand :=
  mkParsedCommand 7 [a] 0 line 1.
Definition findTheDifference (a b : string) (line : Z) : parsedCommand :=
  mkParsedCommand 8 [a; b] 0 line 1.
Definition samePictureLabel (line : Z) : parsedCommand :=
  mkParsedCommand 9 [] 0 line 1.

(** Two same-picture comparisons and no label. *)
Definition streamNoSamePicture : list parsedCommand :=
  [declaration "main" 1; findTheDifference "rax" "rbx" 2;
   findTheDifference "rcx" "rdx" 3; returnCommand 4].

(** Two same-picture comparisons and two labels. *)
Definition streamSamePictureTwice : list parsedCommand :=
  [declaration "main" 1; findTheDifference "rax" "rbx" 2; samePictureLabel 3;
   findTheDifference "rcx" "rdx" 4; samePictureLabel 5; returnCommand 6].

(** A stream with a pointer operand, translated without STABS. *)
Definition streamPointer : list parsedCommand :=
  [declaration "main" 1;
   mkParsedCommand 4 ["rax"; "rbx"] 2 2 1;
   returnCommand 3].

(** A stream that ends with a breakpoint. *)
Definition streamTrapLast : list parsedCommand :=
  [declaration "main" 1; returnCommand 2; trapCommand 3].


(** A name declared twice. *)
Definition streamDeclaredTwice : list parsedCommand :=
  [declaration "f" 1; returnCommand 2; declaration "f" 3; returnCommand 4].

(** A who-would-win comparison with a jump label for its first parameter
    only. *)
Definition streamWhoWouldWin : list parsedCommand :=
  [declaration "main" 1; whoWouldWin "rax" "rbx" 2; winsLabel "rax" 3;
   returnCommand 4].

(** A stream on which each of the three analyzers prints. *)
Definition streamAllAnalyzers : list parsedCommand :=
  [moveCommand "rax" "rbx" 1; declaration "f" 2; whoWouldWin "rax" "rbx" 3;
   winsLabel "rax" 4; findTheDifference "rcx" "rdx" 5; returnCommand 6].

(** Two translated declarations and one that is not, with their bodies. *)
Definition streamThreeDeclarations : list parsedCommand :=
  [declaration "main" 1; moveCommand "rax" "rbx" 2; returnCommand 3;
   mkParsedCommand 0 ["unused"] 0 4 0; returnCommand 5;
   declaration "f" 6; returnCommand 7].

Definition analysisOf (arr : list parsedCommand) (mode : compileMode) : analysis :=
  (sampleState arr 0 mode o_none false, []).

(** ** The analyzers as functions of the stream

    The analyzers only read the stream and print; what they print is a
    function of the stream alone.  The definitions below give that function
    by structural recursion; the lemmas of the next part prove that the
    embedding of the code computes exactly this. *)

Definition addErrors (n : nat) (cs : compileState) : compileState :=
  {| cs_commandsArray     := cs_commandsArray cs;
     cs_logLevel          := cs_logLevel cs;
     cs_compileMode       := cs_compileMode cs;
     cs_optimisationLevel := cs_optimisationLevel cs;
     cs_useStabs          := cs_useStabs cs;
     cs_compilerErrors    := (cs_compilerErrors cs + n)%nat |}.

(** Printing the diagnostics [ds], in order. *)
Definition emit (ds : list diagnostic) (st : analysis) : analysis :=
  (addErrors (List.length ds) (fst st), snd st ++ ds).

Definition errorAt (message : string) (line : Z) : diagnostic :=
  mkDiagnostic message line None.

Definition isDeclaration (op : Z) (pc : parsedCommand) : bool := opcode pc =? op.

Definition isReturn (op : Z) (pc : parsedCommand) : bool :=
  isReturnOpcode op (opcode pc).

(** The scan of parseFunction: where it stops, the last return it saw, and
    what it prints when it breaks at a declaration. *)
Fixpoint parseScan (op : Z) (rest : list parsedCommand)
    (index functionEndIndex : nat) : nat * nat * list diagnostic :=
  match rest with
  | [] => (index, functionEndIndex, [])
  | pc :: rest' =>
      if isDeclaration op pc then
        (index, functionEndIndex,
         if (functionEndIndex =? 0)%nat
         then [errorAt msgExpectedReturn (lineNum pc)] else [])
      else
        parseScan op rest' (S index)
          (if isReturn op pc then index else functionEndIndex)
  end.

(** The walk of checkFunctionValidity over the stream: [skip] commands are
    still inside the body of the function parsed last. *)
Fixpoint functionWalk (op : Z) (l : list parsedCommand) (skip : nat)
    : list function * list diagnostic :=
  match l with
  | [] => ([], [])
  | pc :: l' =>
      match skip with
      | S k => functionWalk op l' k
      | O =>
          if isDeclaration op pc then
            let '(_, functionEndIndex, ds) := parseScan op l' 1%nat 0%nat in
            let '(fns, later) := functionWalk op l' functionEndIndex in
            (mkFunction (parameterAt pc 0) (lineNum pc) functionEndIndex :: fns,
             ds ++ (if (functionEndIndex =? 0)%nat
                    then [errorAt msgNoReturn (lineNum pc)] else [])
                ++ later)
          else
            let '(fns, later) := functionWalk op l' 0%nat in
            (fns, errorAt msgFloating (lineNum pc) :: later)
      end
  end.

(** What the duplicate check prints for the functions, in order. *)
Fixpoint duplicatesOf (fn : function) (later : list function) : list diagnostic :=
  match later with
  | [] => []
  | fj :: later' =>
      (if String.eqb (name fn) (name fj)
       then [mkDiagnostic msgDuplicateFunction (definedInLine fj)
               (Some (definedInLine fn))]
       else [])
      ++ duplicatesOf fn later'
  end.

Fixpoint duplicateFunctions (functions : list function) : list diagnostic :=
  match functions with
  | [] => []
  | fn :: later => duplicatesOf fn later ++ duplicateFunctions later
  end.

Definition hasMain (p : platform) (functions : list function) : bool :=
  existsb (fun fn => String.eqb (name fn) (mainFuncName p)) functions.

(** The comparisons and the jump labels of a family, picked from the
    stream. *)
Definition comparisonsOf (op : Z) (arr : list parsedCommand) : list comparison :=
  map (fun pc => mkComparison (parameterAt pc 0) (parameterAt pc 1) (lineNum pc))
      (filter (fun pc => opcode pc =? op) arr).

Definition labelsOf (op : Z) (arr : list parsedCommand) : list comparisonJumpLabel :=
  map (fun pc => mkComparisonJumpLabel (parameterAt pc 0) (lineNum pc))
      (filter (fun pc => opcode pc =? op + 1) arr).

(** What the label duplicity check prints. *)
Fixpoint markerTwiceWith (li : comparisonJumpLabel)
    (later : list comparisonJumpLabel) : list diagnostic :=
  match later with
  | [] => []
  | lj :: later' =>
      (if String.eqb (parameter li) (parameter lj)
       then [mkDiagnostic msgMarkerTwice (lbl_definedInLine lj)
               (Some (lbl_definedInLine li))]
       else [])
      ++ markerTwiceWith li later'
  end.

Fixpoint markersTwice (labels : list comparisonJumpLabel) : list diagnostic :=
  match labels with
  | [] => []
  | li :: later => markerTwiceWith li later ++ markersTwice later
  end.

(** Whether a jump label is declared for the parameter [s]. *)
Definition markerDefined (labels : list comparisonJumpLabel) (s : string) : bool :=
  existsb (fun l => String.eqb s (parameter l)) labels.

(** What the label existence check prints for one comparison. *)
Definition missingMarkers (labels : list comparisonJumpLabel)
    (c : comparison) : list diagnostic :=
  (if markerDefined labels (parameter1 c) then []
   else [errorAt msgNoFirstMarker (cmp_definedInLine c)])
  ++ (if markerDefined labels (parameter2 c) then []
      else [errorAt msgNoSecondMarker (cmp_definedInLine c)]).

(** What the same-picture check prints when no label was seen: one message
    per comparison of the family, at its line. *)
Definition samePictureMissing (op : Z) (arr : list parsedCommand) : list diagnostic :=
  map (fun pc => errorAt msgNoSamePicture (lineNum pc))
      (filter (fun pc => opcode pc =? op) arr).

(** Template expansion, character by character: a character is a
    placeholder when it is a digit in the range from '0' up to, and not
    including, '0' + [k]; it stands for the parameter at its index, in
    brackets exactly when [isPointer] is that index plus one. *)
Definition isPlaceholder (k : Z) (character : ascii) : bool :=
  (48 <=? Z.of_N (N_of_ascii character))
  && (Z.of_N (N_of_ascii character) <? 48 + k).

Definition placeholderIndex (character : ascii) : nat :=
  (N.to_nat (N_of_ascii character) - 48)%nat.

Definition expandCharacter (pc : parsedCommand) (k : Z) (character : ascii) : string :=
  if isPlaceholder k character then
    if isPointer pc =? Z.of_nat (placeholderIndex character) + 1
    then "[" +++ parameterAt pc (placeholderIndex character) +++ "]"
    else parameterAt pc (placeholderIndex character)
  else String character EmptyString.

Fixpoint expandTemplate (pc : parsedCommand) (k : Z) (template : string) : string :=
  match template with
  | EmptyString => EmptyString
  | String character template' =>
      expandCharacter pc k character +++ expandTemplate pc k template'
  end.

(** The line written for a command: the expansion of the template of its
    opcode, after one tab unless the opcode is 0. *)
Definition translatedLineOf (pc : parsedCommand) (c : command) : string :=
  (if opcode pc =? 0 then EmptyString else tab)
  +++ expandTemplate pc (usedParameters c) (translationPattern c) +++ nl.

(** The number of placeholders of a template. *)
Fixpoint placeholders (k : Z) (template : string) : nat :=
  match template with
  | EmptyString => 0%nat
  | String character template' =>
      ((if isPlaceholder k character then 1 else 0) + placeholders k template')%nat
  end.

(** Shapes of a piece of the stream: no declaration in it; neither a
    declaration nor a return in it; and what may follow a function (the end
    of the stream or a declaration). *)
Definition noDeclaration (op : Z) (l : list parsedCommand) : bool :=
  forallb (fun pc => negb (isDeclaration op pc)) l.

Definition plainCommands (op : Z) (l : list parsedCommand) : bool :=
  forallb (fun pc => negb (isDeclaration op pc) && negb (isReturn op pc)) l.

Definition endsFunction (op : Z) (post : list parsedCommand) : bool :=
  match post with
  | [] => true
  | pc :: _ => isDeclaration op pc
  end.

(** The stream of a state replaced. *)
Definition withCommands (arr : list parsedCommand) (st : analysis) : analysis :=
  ({| cs_commandsArray     := mkCommandsArray arr (randomIndex (cs_commandsArray (fst st)));
      cs_logLevel          := cs_logLevel (fst st);
      cs_compileMode       := cs_compileMode (fst st);
      cs_optimisationLevel := cs_optimisationLevel (fst st);
      cs_useStabs          := cs_useStabs (fst st);
      cs_compilerErrors    := cs_compilerErrors (fst st) |},
   snd st).

(** Two compile states that differ in the error counter at most. *)
Definition sameButErrors (cs cs' : compileState) : Prop :=
  cs_commandsArray cs' = cs_commandsArray cs
  /\ cs_logLevel cs' = cs_logLevel cs
  /\ cs_compileMode cs' = cs_compileMode cs
  /\ cs_optimisationLevel cs' = cs_optimisationLevel cs
  /\ cs_useStabs cs' = cs_useStabs cs.

(** The number of commands before the first declaration. *)
Fixpoint leading (op : Z) (l : list parsedCommand) : nat :=
  match l with
  | [] => 0%nat
  | pc :: l' => if isDeclaration op pc then 0%nat else S (leading op l')
  end.

(** The diagnostic of a command outside every function. *)
Definition floatingAt (pc : parsedCommand) : diagnostic :=
  errorAt msgFloating (lineNum pc).

(** What checkFunctionValidity prints after the walk. *)
Definition nameDiagnostics (p : platform) (mode : compileMode)
    (functions : list function) : list diagnostic :=
  duplicateFunctions functions
  ++ (if isExecutable mode && negb (hasMain p functions)
      then [errorAt msgNoMain 1] else []).

(** The name check reads the name and the line of a function only. *)
Definition nameAndLine (fn : function) : string * Z := (name fn, definedInLine fn).

(** A command is elided at level o42069 unless it declares a function. *)
Definition elided (cs : compileState) (pc : parsedCommand) : bool :=
  negb (opcode pc =? 0) && isOptimisation42069 (cs_optimisationLevel cs).

(** A command the translator can emit: it has a table entry, the used
    parameters of the entry are among its slots, and a declaration has its
    name. *)
Definition emittable (commandList : list command) (pc : parsedCommand) : bool :=
  match lookupCommand commandList (opcode pc) with
  | Ok c =>
      (0 <=? usedParameters c)
      && (usedParameters c <=? Z.of_nat MAX_PARAMETER_COUNT)
      && (Z.to_nat (usedParameters c) <=? List.length (parameters pc))%nat
      && (if opcode pc =? 0 then (1 <=? List.length (parameters pc))%nat else true)
  | Fault _ => false
  end.

(** A stream that is a sequence of functions and nothing else: each one a
    declaration, then commands without a declaration, then a return as its
    last command. *)
Inductive functionsOnly (op : Z) : list parsedCommand -> Prop :=
| functionsOnly_nil : functionsOnly op []
| functionsOnly_cons (d : parsedCommand) (body : list parsedCommand)
    (r : parsedCommand) (rest : list parsedCommand) :
    isDeclaration op d = true ->
    noDeclaration op body = true ->
    isReturn op r = true ->
    functionsOnly op rest ->
    functionsOnly op (d :: body ++ r :: rest).

(** The declarations of a stream, and the names they declare, in stream
    order. *)
Definition declarationsOf (op : Z) (arr : list parsedCommand) : list parsedCommand :=
  filter (isDeclaration op) arr.

Definition declaredNames (op : Z) (arr : list parsedCommand) : list string :=
  map (fun pc => parameterAt pc 0) (declarationsOf op arr).

(** The jump labels of a same-picture family, latest first. *)
Definition samePictureLabels (op : Z) (arr : list parsedCommand) : list parsedCommand :=
  rev (filter (fun pc => opcode pc =? op + 1) arr).

(** The names of the declarations that are translated, in stream order. *)
Definition translatedNames (arr : list parsedCommand) : list string :=
  map (fun pc => parameterAt pc 0)
      (filter (fun pc => (opcode pc =? 0) && (translate pc =? 1)) arr).

Definition concatStrings (l : list string) : string :=
  fold_right String.append EmptyString l.

(** What the translation loop writes for the command [pc] at index [i]
    without STABS: the label when [i] is randomIndex, then, when the command
    has translate == 1 and the level does not elide it, its line and the
    padding of the level. *)
Definition commandText (commandList : list command) (cs : compileState)
    (i : nat) (pc : parsedCommand) : string :=
  (if (i =? randomIndex (cs_commandsArray cs))%nat
   then tab +++ ".LConfusedStonks: " else EmptyString)
  +++ (if (translate pc =? 1) && negb (elided cs pc) then
         match lookupCommand commandList (opcode pc) with
         | Ok c => translatedLineOf pc c
                   +++ optimisationPadding (cs_optimisationLevel cs)
         | Fault _ => EmptyString
         end
       else EmptyString).

Fixpoint commandTexts (commandList : list command) (cs : compileState)
    (i : nat) (arr : list parsedCommand) : string :=
  match arr with
  | [] => EmptyString
  | pc :: arr' =>
      commandText commandList cs i pc +++ commandTexts commandList cs (S i) arr'
  end.

(** Whether a command is a breakpoint for STABS, false past the table. *)
Definition ignorable (commandList : list command) (pc : parsedCommand) : bool :=
  match stabs_ignore commandList (opcode pc) with
  | Ok b => b
  | Fault _ => false
  end.

(** The one command whose translation reads past the stream: the last one,
    when STABS is on and it is a translated breakpoint that the level does
    not elide. *)
Definition forwardLabelHazard (commandList : list command) (cs : compileState)
    (pc : parsedCommand) : bool :=
  cs_useStabs cs && (translate pc =? 1) && negb (opcode pc =? 0)
  && negb (elided cs pc) && ignorable commandList pc.

Definition readsPastStream (commandList : list command) (cs : compileState) : bool :=
  match rev (arrayPointer (cs_commandsArray cs)) with
  | [] => false
  | pc :: _ => forwardLabelHazard commandList cs pc
  end.

(** The stream is empty or starts with a declaration that is translated. *)
Definition startsWithTranslatedDeclaration (arr : list parsedCommand) : bool :=
  match arr with
  | [] => true
  | d :: _ => (opcode d =? 0) && (translate d =? 1)
  end.

(** What the walk prints has no second line and is not the message about
    the main function. *)
Definition walkDiagnostic (d : diagnostic) : Prop :=
  d_extraLine d = None /\ d_message d <> msgNoMain.

(** The functions the name check reads, as the declarations give them. *)
Definition functionOfDeclaration (pc : parsedCommand) : function :=
  mkFunction (parameterAt pc 0) (lineNum pc) 0.

(** What parseFunction prints for the function whose commands after the
    declaration are [rest] and whose recorded body length is
    [functionEndIndex]: with no return seen, the message that a return was
    expected, at the line of the next declaration when there is one, and the
    message that no return was found, at the line [line] of the function. *)
Definition missingReturnDiagnostics (op : Z) (rest : list parsedCommand)
    (functionEndIndex : nat) (line : Z) : list diagnostic :=
  if (functionEndIndex =? 0)%nat then
    match skipn (leading op rest) rest with
    | [] => []
    | d :: _ => [errorAt msgExpectedReturn (lineNum d)]
    end
    ++ [errorAt msgNoReturn line]
  else [].

(** The diagnostics [ds] handed, in order, to a pair of printing
    functions. *)
Definition logOne (semanticError : string -> Z -> analysis -> analysis)
    (semanticErrorWithExtraLineNumber : string -> Z -> Z -> analysis -> analysis)
    (st : analysis) (d : diagnostic) : analysis :=
  match d_extraLine d with
  | None => semanticError (d_message d) (d_lineNum d) st
  | Some extra =>
      semanticErrorWithExtraLineNumber (d_message d) (d_lineNum d) extra st
  end.

Definition logAll (semanticError : string -> Z -> analysis -> analysis)
    (semanticErrorWithExtraLineNumber : string -> Z -> Z -> analysis -> analysis)
    (ds : list diagnostic) (st : analysis) : analysis :=
  fold_left (logOne semanticError semanticErrorWithExtraLineNumber) ds st.

(** What the three analyzers print on a stream, each as a function of the
    stream (and, for the first, of the platform and the compile mode). *)
Definition functionDiagnostics (p : platform) (mode : compileMode) (op : Z)
    (arr : list parsedCommand) : list diagnostic :=
  snd (functionWalk op arr 0)
  ++ nameDiagnostics p mode (fst (functionWalk op arr 0)).

Definition whoWouldWinDiagnostics (op : Z) (arr : list parsedCommand)
    : list diagnostic :=
  markersTwice (labelsOf op arr)
  ++ flat_map (missingMarkers (labelsOf op arr)) (comparisonsOf op arr).

Definition samePictureDiagnostics (op : Z) (arr : list parsedCommand)
    : list diagnostic :=
  if fold_left (jumpMarkerStep op) arr 0 =? 0
  then samePictureMissing op arr else [].

(** The slots an analyzer hands to [strcmp] hold a string: every declaration
    has its name in slot 0. *)
Definition declarationsNamed (op : Z) (arr : list parsedCommand) : bool :=
  forallb (fun pc => negb (isDeclaration op pc)
                     || (1 <=? List.length (parameters pc))%nat) arr.

(** The same for a who-would-win family: every comparison has its two
    parameters, every jump label its one. *)
Definition comparisonSlotsFilled (op : Z) (arr : list parsedCommand) : bool :=
  forallb (fun pc =>
             if opcode pc =? op then (2 <=? List.length (parameters pc))%nat
             else if opcode pc =? op + 1
                  then (1 <=? List.length (parameters pc))%nat
                  else true) arr.


(** What the translation loop writes at level o42069 for the command [pc] at
    index [i]: the label when [i] is randomIndex, then, for a declaration
    with translate == 1 and for no other command, the declaration line and
    the two lines of the level. *)
Definition level42069Text (commandList : list command) (cs : compileState)
    (i : nat) (pc : parsedCommand) : string :=
  (if (i =? randomIndex (cs_commandsArray cs))%nat
   then tab +++ ".LConfusedStonks: " else EmptyString)
  +++ (if (opcode pc =? 0) && (translate pc =? 1) then
         match lookupCommand commandList (opcode pc) with
         | Ok c =>
             expandTemplate pc (usedParameters c) (translationPattern c) +++ nl
             +++ tab +++ "xor rax, rax" +++ nl
             +++ tab +++ "ret" +++ nl
         | Fault _ => EmptyString
         end
       else EmptyString).

Fixpoint level42069Texts (commandList : list command) (cs : compileState)
    (i : nat) (arr : list parsedCommand) : string :=
  match arr with
  | [] => EmptyString
  | pc :: arr' =>
      level42069Text commandList cs i pc
      +++ level42069Texts commandList cs (S i) arr'
  end.

(** A declaration with translate == 1 can be emitted; nothing is asked of
    any other command. *)
Definition declarationEmittable (commandList : list command)
    (pc : parsedCommand) : bool :=
  negb ((opcode pc =? 0) && (translate pc =? 1)) || emittable commandList pc.

(** ** Lemmas on the diagnostics sink *)

Lemma addErrors_0 cs : addErrors 0 cs = cs.
Proof. destruct cs; unfold addErrors; simpl; f_equal; lia. Qed.

Lemma addErrors_add n m cs : addErrors m (addErrors n cs) = addErrors (n + m) cs.
Proof. unfold addErrors; simpl; f_equal; lia. Qed.

Lemma emit_nil st : emit [] st = st.
Proof. destruct st; unfold emit; simpl; now rewrite addErrors_0, app_nil_r. Qed.

Lemma emit_emit ds1 ds2 st : emit ds2 (emit ds1 st) = emit (ds1 ++ ds2) st.
Proof.
  unfold emit; simpl.
  now rewrite addErrors_add, length_app, app_assoc.
Qed.

Lemma printSemanticError_emit message line st :
  printSemanticError message line st = emit [errorAt message line] st.
Proof.
  unfold printSemanticError, emit, errorAt; simpl; f_equal.
  destruct st as [cs log]; destruct cs; unfold bumpErrors, addErrors; simpl.
  f_equal; lia.
Qed.

Lemma printSemanticErrorWithExtraLineNumber_emit message line extra st :
  printSemanticErrorWithExtraLineNumber message line extra st
  = emit [mkDiagnostic message line (Some extra)] st.
Proof.
  unfold printSemanticErrorWithExtraLineNumber, emit; simpl; f_equal.
  destruct st as [cs log]; destruct cs; unfold bumpErrors, addErrors; simpl.
  f_equal; lia.
Qed.

Lemma commandsOf_emit ds st : commandsOf (emit ds st) = commandsOf st.
Proof. reflexivity. Qed.

Lemma diagnostics_emit ds st : diagnostics (emit ds st) = diagnostics st ++ ds.
Proof. reflexivity. Qed.

Lemma sameButErrors_emit ds st : sameButErrors (fst st) (fst (emit ds st)).
Proof. unfold sameButErrors; simpl; auto. Qed.

Lemma emit_if (b : bool) ds st : (if b then emit ds st else st) = emit (if b then ds else []) st.
Proof. destruct b; [reflexivity | now rewrite emit_nil]. Qed.

(** ** The function analyzer computes the walk *)

Lemma leading_le op l : (leading op l <= List.length l)%nat.
Proof.
  induction l as [|pc l IH]; simpl; [lia|].
  destruct (isDeclaration op pc); simpl; lia.
Qed.

Lemma leading_all op l :
  (forall pc, In pc l -> isDeclaration op pc = false) ->
  forall rest, leading op (l ++ rest) = (List.length l + leading op rest)%nat.
Proof.
  induction l as [|pc l IH]; intros H rest; simpl; [reflexivity|].
  rewrite (H pc (or_introl eq_refl)), IH; auto.
  intros q Hq; apply H; now right.
Qed.

Lemma leading_firstn op l pc :
  In pc (firstn (leading op l) l) -> isDeclaration op pc = false.
Proof.
  induction l as [|q l IH]; simpl; [tauto|].
  destruct (isDeclaration op q) eqn:E; simpl; [tauto|].
  intros [<-|H]; auto.
Qed.

Lemma leading_skipn op l :
  skipn (leading op l) l = []
  \/ exists d l', skipn (leading op l) l = d :: l' /\ isDeclaration op d = true.
Proof.
  induction l as [|q l IH]; simpl; [now left|].
  destruct (isDeclaration op q) eqn:E; simpl; [right; eauto | exact IH].
Qed.

Lemma parseFunction_loop_scan op rest : forall index functionEndIndex st,
  parseFunction_loop op rest index functionEndIndex st
  = let '(i, e, ds) := parseScan op rest index functionEndIndex in (i, e, emit ds st).
Proof.
  induction rest as [|pc rest IH]; intros index e st; simpl.
  - now rewrite emit_nil.
  - unfold isDeclaration, isReturn.
    destruct (opcode pc =? op).
    + rewrite printSemanticError_emit.
      destruct (e =? 0)%nat; [reflexivity | now rewrite emit_nil].
    + apply IH.
Qed.

Lemma parseScan_bounds op rest : forall index e i' e' ds,
  parseScan op rest index e = (i', e', ds) ->
  (e < index)%nat ->
  i' = (index + leading op rest)%nat /\ (e' < i')%nat.
Proof.
  induction rest as [|pc rest IH]; intros index e i' e' ds H He; simpl in *.
  - inversion H; subst; lia.
  - destruct (isDeclaration op pc).
    + inversion H; subst; lia.
    + apply IH in H; [lia|].
      destruct (isReturn op pc); lia.
Qed.

Lemma floatingLoop_leading op rest : forall index st,
  floatingLoop op rest index st
  = ((index + leading op rest)%nat,
     emit (map floatingAt (firstn (leading op rest) rest)) st).
Proof.
  induction rest as [|pc rest IH]; intros index st; simpl.
  - now rewrite emit_nil, Nat.add_0_r.
  - unfold isDeclaration. destruct (opcode pc =? op); simpl.
    + now rewrite emit_nil, Nat.add_0_r.
    + rewrite IH, printSemanticError_emit, emit_emit. simpl.
      f_equal. lia.
Qed.

Lemma functionWalk_skip op l : forall k,
  functionWalk op l k = functionWalk op (skipn k l) 0.
Proof.
  induction l as [|pc l IH]; intros [|k]; try reflexivity.
  simpl. apply IH.
Qed.

Lemma functionWalk_floating op floats rest :
  (forall pc, In pc floats -> isDeclaration op pc = false) ->
  functionWalk op (floats ++ rest) 0
  = (fst (functionWalk op rest 0),
     map floatingAt floats ++ snd (functionWalk op rest 0)).
Proof.
  induction floats as [|pc floats IH]; intros H; simpl.
  - now destruct (functionWalk op rest 0).
  - rewrite (H pc (or_introl eq_refl)), IH; [reflexivity|].
    intros q Hq; apply H; now right.
Qed.

Lemma functionWalk_leading op rest :
  functionWalk op rest 0
  = (fst (functionWalk op (skipn (leading op rest) rest) 0),
     map floatingAt (firstn (leading op rest) rest)
     ++ snd (functionWalk op (skipn (leading op rest) rest) 0)).
Proof.
  induction rest as [|pc rest IH]; [reflexivity|].
  cbn [leading]. destruct (isDeclaration op pc) eqn:E.
  - cbn [skipn firstn map app]. now destruct (functionWalk op (pc :: rest) 0).
  - cbn [skipn firstn map app functionWalk]. rewrite E, IH. reflexivity.
Qed.

Lemma functionWalk_declaration op d l' :
  isDeclaration op d = true ->
  functionWalk op (d :: l') 0
  = (let '(_, e, ds) := parseScan op l' 1 0 in
     (mkFunction (parameterAt d 0) (lineNum d) e :: fst (functionWalk op (skipn e l') 0),
      ds ++ (if (e =? 0)%nat then [errorAt msgNoReturn (lineNum d)] else [])
         ++ snd (functionWalk op (skipn e l') 0))).
Proof.
  intros Hd. simpl. rewrite Hd.
  destruct (parseScan op l' 1 0) as [[i e] ds].
  rewrite (functionWalk_skip op l' e).
  now destruct (functionWalk op (skipn e l') 0).
Qed.

Lemma skipn_cons_nth {A} (l : list A) n d x l' :
  skipn n l = x :: l' -> nth n l d = x /\ skipn (n + 1) l = l'.
Proof.
  revert l; induction n as [|n IH]; intros [|y l] H; simpl in *; try discriminate.
  - inversion H; auto.
  - apply IH in H. exact H.
Qed.

Lemma functionLoop_walk op : forall fuel index fns st,
  (index <= List.length (commandsOf st))%nat ->
  (List.length (commandsOf st) - index < fuel)%nat ->
  functionLoop fuel op index fns st
  = Some (fns ++ fst (functionWalk op (skipn index (commandsOf st)) 0),
          emit (snd (functionWalk op (skipn index (commandsOf st)) 0)) st).
Proof.
  induction fuel as [|fuel IH]; intros index fns st Hle Hfuel; [lia|].
  simpl. destruct (index <? List.length (commandsOf st))%nat eqn:Hlt.
  - apply Nat.ltb_lt in Hlt.
    set (rest := skipn index (commandsOf st)).
    assert (Hlen : List.length rest = (List.length (commandsOf st) - index)%nat)
      by (unfold rest; apply length_skipn).
    rewrite floatingLoop_leading. fold rest.
    rewrite commandsOf_emit.
    pose proof (firstn_skipn (leading op rest) rest) as Hsplit.
    pose proof (leading_le op rest) as Hlead.
    rewrite (functionWalk_leading op rest).
    destruct (leading_skipn op rest) as [Hnil | (d & l' & Hd & Hdecl)].
    + (* only floating statements are left *)
      assert (List.length rest <= leading op rest)%nat.
      { rewrite <- Hsplit at 1. rewrite Hnil, app_nil_r, length_firstn. lia. }
      replace (List.length (commandsOf st) <=? index + leading op rest)%nat with true
        by (symmetry; apply Nat.leb_le; lia).
      rewrite Hnil. simpl. now rewrite !app_nil_r.
    + assert (leading op rest < List.length rest)%nat.
      { rewrite <- Hsplit at 2. rewrite Hd, length_app, length_firstn. simpl. lia. }
      replace (List.length (commandsOf st) <=? index + leading op rest)%nat with false
        by (symmetry; apply Nat.leb_gt; lia).
      assert (Hd' : skipn (index + leading op rest) (commandsOf st) = d :: l').
      { rewrite Nat.add_comm, <- skipn_skipn. exact Hd. }
      destruct (skipn_cons_nth _ _ nullCommand _ _ Hd') as [Hnth Hrest].
      unfold parseFunction. rewrite commandsOf_emit, Hnth, Hrest.
      rewrite parseFunction_loop_scan.
      rewrite Hd, functionWalk_declaration by exact Hdecl.
      destruct (parseScan op l' 1 0) as [[i e] ds] eqn:Hscan.
      destruct (parseScan_bounds _ _ _ _ _ _ _ Hscan) as [Hi He]; [lia|].
      pose proof (leading_le op l') as Hl'.
      assert (Hlen' : List.length l' = (List.length (commandsOf st) - (index + leading op rest + 1))%nat)
        by (rewrite <- Hrest; apply length_skipn).
      rewrite printSemanticError_emit, emit_if, !emit_emit.
      cbn [numberOfCommands].
      rewrite IH; rewrite ?commandsOf_emit; try lia.
      replace (skipn (index + leading op rest + e + 1) (commandsOf st))
        with (skipn e l').
      2:{ rewrite <- Hrest, skipn_skipn. f_equal. lia. }
      rewrite emit_emit. simpl. rewrite <- !app_assoc. simpl.
      reflexivity.
  - apply Nat.ltb_ge in Hlt.
    rewrite skipn_all2 by lia. simpl. now rewrite app_nil_r, emit_nil.
Qed.

Lemma duplicateLoop_emit fn later : forall st,
  duplicateLoop fn later st = emit (duplicatesOf fn later) st.
Proof.
  induction later as [|fj later IH]; intros st; simpl.
  - now rewrite emit_nil.
  - rewrite IH, printSemanticErrorWithExtraLineNumber_emit, emit_if, emit_emit.
    reflexivity.
Qed.

Lemma nameLoop_emit p functions : forall mainFunctionExists st,
  nameLoop p functions mainFunctionExists st
  = (mainFunctionExists || hasMain p functions,
     emit (duplicateFunctions functions) st).
Proof.
  induction functions as [|fn later IH]; intros m st; simpl.
  - now rewrite emit_nil, orb_false_r.
  - rewrite IH, duplicateLoop_emit, emit_emit. f_equal.
    destruct (name fn =? mainFuncName p)%string, m; reflexivity.
Qed.

Lemma checkFunctionValidity_walk p st op :
  checkFunctionValidity p st op
  = Some (emit (snd (functionWalk op (commandsOf st) 0)
                ++ nameDiagnostics p (cs_compileMode (fst st))
                     (fst (functionWalk op (commandsOf st) 0)))
            st).
Proof.
  unfold checkFunctionValidity.
  rewrite functionLoop_walk by lia.
  cbn [skipn app]. rewrite nameLoop_emit.
  cbn [orb]. rewrite printSemanticError_emit, emit_if, !emit_emit.
  unfold nameDiagnostics. reflexivity.
Qed.

(** ** The shape of the walk around one function *)

Lemma isReturn_not_declaration op pc :
  isReturn op pc = true -> isDeclaration op pc = false.
Proof.
  unfold isReturn, isReturnOpcode, isDeclaration. intros H.
  apply andb_true_iff in H as [H _]. apply Z.ltb_lt in H.
  apply Z.eqb_neq. lia.
Qed.

Lemma noDeclaration_cons op pc l :
  noDeclaration op (pc :: l) = true ->
  isDeclaration op pc = false /\ noDeclaration op l = true.
Proof.
  unfold noDeclaration; simpl. intros H.
  apply andb_true_iff in H as [H1 H2]. apply negb_true_iff in H1. auto.
Qed.

Lemma plainCommands_cons op pc l :
  plainCommands op (pc :: l) = true ->
  isDeclaration op pc = false /\ isReturn op pc = false
  /\ plainCommands op l = true.
Proof.
  unfold plainCommands; simpl. intros H.
  apply andb_true_iff in H as [H1 H2].
  apply andb_true_iff in H1 as [H1 H3].
  apply negb_true_iff in H1, H3. auto.
Qed.

Lemma plainCommands_noDeclaration op l :
  plainCommands op l = true -> noDeclaration op l = true.
Proof.
  induction l as [|pc l IH]; [reflexivity|]. intros H.
  apply plainCommands_cons in H as (H1 & _ & H2).
  unfold noDeclaration in *; simpl. now rewrite H1, IH.
Qed.

Lemma noDeclaration_In op l :
  noDeclaration op l = true -> forall pc, In pc l -> isDeclaration op pc = false.
Proof.
  unfold noDeclaration. intros H pc Hin.
  rewrite forallb_forall in H. apply negb_true_iff. auto.
Qed.

Lemma parseScan_cut op d : isDeclaration op d = true ->
  forall l X index e,
  parseScan op (l ++ d :: X) index e = parseScan op (l ++ [d]) index e.
Proof.
  intros Hd l X. induction l as [|pc l IH]; intros index e; simpl.
  - now rewrite Hd.
  - destruct (isDeclaration op pc); [reflexivity | apply IH].
Qed.

Lemma parseScan_plain op mid rest : plainCommands op mid = true ->
  forall index e,
  parseScan op (mid ++ rest) index e
  = parseScan op rest (index + List.length mid) e.
Proof.
  induction mid as [|pc mid IH]; intros H index e; simpl.
  - now rewrite Nat.add_0_r.
  - apply plainCommands_cons in H as (H1 & H2 & H3).
    rewrite H1, H2, IH by exact H3. f_equal. lia.
Qed.

Lemma parseScan_end op post index e :
  endsFunction op post = true -> (0 < e)%nat ->
  parseScan op post index e = (index, e, []).
Proof.
  destruct post as [|pc post]; simpl; intros H He; [reflexivity|].
  rewrite H. destruct e; [lia | reflexivity].
Qed.

Lemma parseScan_function op body r trailing post :
  noDeclaration op body = true ->
  isReturn op r = true ->
  plainCommands op trailing = true ->
  endsFunction op post = true ->
  forall index e, (0 < index)%nat ->
  parseScan op (body ++ r :: trailing ++ post) index e
  = ((index + List.length body + 1 + List.length trailing)%nat,
     (index + List.length body)%nat, []).
Proof.
  intros Hbody Hr Htrail Hpost.
  induction body as [|pc body IH]; intros index e Hi.
  - cbn [app parseScan]. rewrite (isReturn_not_declaration _ _ Hr), Hr.
    rewrite parseScan_plain by exact Htrail.
    rewrite parseScan_end by (auto; lia).
    cbn [List.length]. f_equal. f_equal. lia. lia.
  - apply noDeclaration_cons in Hbody as [H1 H2].
    cbn [app parseScan]. rewrite H1, IH by (auto; lia).
    cbn [List.length]. f_equal. f_equal. lia. lia.
Qed.

Lemma leading_plain op mid d X :
  noDeclaration op mid = true -> isDeclaration op d = true ->
  leading op (mid ++ d :: X) = List.length mid.
Proof.
  intros Hmid Hd. rewrite leading_all by (apply noDeclaration_In; exact Hmid).
  simpl. rewrite Hd. lia.
Qed.

(** The walk reaches every declaration with nothing left to skip, and what
    it did before does not depend on what follows the declaration. *)
Lemma functionWalk_reach op d : isDeclaration op d = true ->
  forall pre skip, (skip <= leading op (pre ++ [d]))%nat ->
  exists fns0 D0, forall X,
    functionWalk op (pre ++ d :: X) skip
    = (fns0 ++ fst (functionWalk op (d :: X) 0),
       D0 ++ snd (functionWalk op (d :: X) 0)).
Proof.
  intros Hd pre. induction pre as [|pc pre IH]; intros skip Hskip.
  - simpl in Hskip. rewrite Hd in Hskip.
    assert (skip = 0)%nat by lia. subst skip.
    exists [], []. intros X. cbn [app].
    now destruct (functionWalk op (d :: X) 0).
  - cbn [app leading] in Hskip.
    destruct skip as [|k].
    + destruct (isDeclaration op pc) eqn:Hpc.
      * destruct (parseScan op (pre ++ [d]) 1 0) as [[i e] ds] eqn:Hscan.
        destruct (parseScan_bounds _ _ _ _ _ _ _ Hscan) as [Hi He]; [lia|].
        destruct (IH e) as (fns0 & D0 & HX); [lia|].
        exists (mkFunction (parameterAt pc 0) (lineNum pc) e :: fns0),
          (ds ++ (if (e =? 0)%nat then [errorAt msgNoReturn (lineNum pc)] else [])
              ++ D0).
        intros X. cbn [app functionWalk]. rewrite Hpc.
        rewrite parseScan_cut, Hscan by exact Hd.
        rewrite HX. cbn [fst snd]. now rewrite <- !app_assoc.
      * destruct (IH 0%nat) as (fns0 & D0 & HX); [lia|].
        exists fns0, (floatingAt pc :: D0).
        intros X. cbn [app functionWalk]. rewrite Hpc, HX. reflexivity.
    + destruct (isDeclaration op pc) eqn:Hpc; [lia|].
      destruct (IH k) as (fns0 & D0 & HX); [lia|].
      exists fns0, D0. intros X. cbn [app functionWalk]. apply HX.
Qed.

Lemma duplicatesOf_ext fn fn' : nameAndLine fn = nameAndLine fn' ->
  forall later later', map nameAndLine later = map nameAndLine later' ->
  duplicatesOf fn later = duplicatesOf fn' later'.
Proof.
  intros Hfn later. induction later as [|fj later IH]; intros [|fj' later'] H;
    try discriminate; [reflexivity|].
  simpl in H. inversion H as [[Hn Hl Hrest]]. inversion Hfn as [[Hn' Hl']].
  simpl. rewrite Hn, Hl, Hn', Hl', (IH later' Hrest). reflexivity.
Qed.

Lemma nameDiagnostics_ext p mode : forall fns fns',
  map nameAndLine fns = map nameAndLine fns' ->
  nameDiagnostics p mode fns = nameDiagnostics p mode fns'.
Proof.
  assert (Hdup : forall fns fns', map nameAndLine fns = map nameAndLine fns' ->
                 duplicateFunctions fns = duplicateFunctions fns').
  { induction fns as [|fn fns IH]; intros [|fn' fns'] H; try discriminate;
      [reflexivity|].
    simpl in H. inversion H as [[Hn Hl Hrest]]. simpl.
    rewrite (IH fns' Hrest). f_equal.
    apply duplicatesOf_ext; [unfold nameAndLine; congruence | exact Hrest]. }
  assert (Hmain : forall fns fns', map nameAndLine fns = map nameAndLine fns' ->
                  hasMain p fns = hasMain p fns').
  { induction fns as [|fn fns IH]; intros [|fn' fns'] H; try discriminate;
      [reflexivity|].
    simpl in H. inversion H as [[Hn Hl Hrest]]. unfold hasMain in *. simpl.
    rewrite Hn, (IH fns' Hrest). reflexivity. }
  intros fns fns' H. unfold nameDiagnostics.
  now rewrite (Hdup _ _ H), (Hmain _ _ H).
Qed.

(** The walk over a stream that holds, after [pre], a function with the
    body [body], its last return [r] and the commands [trailing]. *)
Lemma functionWalk_function op pre d r trailing post :
  isDeclaration op d = true ->
  isReturn op r = true ->
  plainCommands op trailing = true ->
  endsFunction op post = true ->
  exists fns0 D0, forall body, noDeclaration op body = true ->
    functionWalk op (pre ++ d :: body ++ r :: trailing ++ post) 0
    = (fns0 ++ mkFunction (parameterAt d 0) (lineNum d) (S (List.length body))
               :: fst (functionWalk op post 0),
       D0 ++ map floatingAt trailing ++ snd (functionWalk op post 0)).
Proof.
  intros Hd Hr Htrail Hpost.
  destruct (functionWalk_reach op d Hd pre 0%nat) as (fns0 & D0 & HX); [lia|].
  exists fns0, D0. intros body Hbody.
  rewrite HX, functionWalk_declaration by exact Hd.
  rewrite parseScan_function by (auto; lia).
  replace (skipn (1 + List.length body) (body ++ r :: trailing ++ post))
    with (trailing ++ post).
  2:{ rewrite <- skipn_skipn, skipn_app, skipn_all, Nat.sub_diag. reflexivity. }
  rewrite functionWalk_floating
    by (apply noDeclaration_In, plainCommands_noDeclaration; exact Htrail).
  reflexivity.
Qed.

Lemma nth_middle_cons {A} (pre : list A) x rest d :
  nth (List.length pre) (pre ++ x :: rest) d = x
  /\ skipn (List.length pre + 1) (pre ++ x :: rest) = rest.
Proof.
  apply skipn_cons_nth.
  rewrite skipn_app, skipn_all, Nat.sub_diag. reflexivity.
Qed.

Lemma parseScan_no_return op mid d2 post :
  plainCommands op mid = true ->
  isDeclaration op d2 = true ->
  parseScan op (mid ++ d2 :: post) 1 0
  = (S (List.length mid), 0%nat, [errorAt msgExpectedReturn (lineNum d2)]).
Proof.
  intros Hmid Hd2. rewrite parseScan_plain by exact Hmid. cbn. now rewrite Hd2.
Qed.

(** ** The function analyzer: where a function ends *)

(** C1, as amended.  In a stream that holds, after [pre], a declaration [d],
    commands [body] without a declaration (returns among them or not), a
    return [r], and commands [trailing] that are neither a declaration nor a
    return, up to the next declaration or the end of the stream:
    the function's numberOfCommands is the index of [r], so [body] is counted
    and [trailing] is not; the commands of [body] print nothing (the
    diagnostics are those of the stream without [body]); and for every
    command of [trailing], in order, the message that the statement does not
    belong to any function is printed at its line. *)
Theorem C1_commands_after_last_return_float
    (p : platform) (st : analysis) (op : Z)
    (pre body trailing post : list parsedCommand) (d r : parsedCommand) :
  commandsOf st = pre ++ d :: body ++ r :: trailing ++ post ->
  isDeclaration op d = true ->
  noDeclaration op body = true ->
  isReturn op r = true ->
  plainCommands op trailing = true ->
  endsFunction op post = true ->
  parseFunction st (List.length pre) op
    = (mkFunction (parameterAt d 0) (lineNum d) (S (List.length body)), st)
  /\ exists st1 st2 D0 D1,
       checkFunctionValidity p st op = Some st1
       /\ checkFunctionValidity p
            (withCommands (pre ++ d :: r :: trailing ++ post) st) op = Some st2
       /\ diagnostics st1 = diagnostics st2
       /\ diagnostics st1
          = diagnostics st ++ D0 ++ map floatingAt trailing ++ D1.
Proof.
  intros Harr Hd Hbody Hr Htrail Hpost. split.
  - unfold parseFunction. rewrite Harr.
    destruct (nth_middle_cons pre d (body ++ r :: trailing ++ post) nullCommand)
      as [-> ->].
    rewrite parseFunction_loop_scan, parseScan_function by (auto; lia).
    cbn. now rewrite emit_nil.
  - destruct (functionWalk_function op pre d r trailing post Hd Hr Htrail Hpost)
      as (fns0 & D0 & Hwalk).
    pose proof (Hwalk body Hbody) as H1.
    pose proof (Hwalk [] eq_refl) as H2. cbn [app List.length] in H2.
    rewrite !checkFunctionValidity_walk.
    replace (commandsOf (withCommands (pre ++ d :: r :: trailing ++ post) st))
      with (pre ++ d :: r :: trailing ++ post) by reflexivity.
    rewrite Harr, H1, H2. cbn [fst snd].
    do 2 eexists.
    exists D0, (snd (functionWalk op post 0)
                ++ nameDiagnostics p (cs_compileMode (fst st))
                     (fns0 ++ mkFunction (parameterAt d 0) (lineNum d)
                                (S (List.length body))
                             :: fst (functionWalk op post 0))).
    split; [reflexivity|]. split; [reflexivity|].
    rewrite !diagnostics_emit. split.
    + replace (diagnostics (withCommands (pre ++ d :: r :: trailing ++ post) st))
        with (diagnostics st) by reflexivity.
      replace (cs_compileMode
                 (fst (withCommands (pre ++ d :: r :: trailing ++ post) st)))
        with (cs_compileMode (fst st)) by reflexivity.
      do 2 f_equal. apply nameDiagnostics_ext.
      rewrite !map_app. reflexivity.
    + now rewrite <- !app_assoc.
Qed.

(** C1: its witness, on a function with two returns between two others. *)
Lemma C1_commands_after_last_return_float_witness :
  parseFunction (analysisOf streamTwoReturns objectFile) 2 0
    = (mkFunction "f" 3 3, analysisOf streamTwoReturns objectFile)
  /\ exists st1 st2 D0 D1,
       checkFunctionValidity linux (analysisOf streamTwoReturns objectFile) 0
         = Some st1
       /\ checkFunctionValidity linux
            (withCommands
               ([declaration "main" 1; returnCommand 2]
                ++ declaration "f" 3 :: returnCommand 6
                   :: [moveCommand "rcx" "rdx" 7]
                   ++ [declaration "g" 8; returnCommand 9])
               (analysisOf streamTwoReturns objectFile)) 0 = Some st2
       /\ diagnostics st1 = diagnostics st2
       /\ diagnostics st1
          = diagnostics (analysisOf streamTwoReturns objectFile) ++ D0
            ++ map floatingAt [moveCommand "rcx" "rdx" 7] ++ D1.
Proof.
  apply (C1_commands_after_last_return_float linux
           (analysisOf streamTwoReturns objectFile) 0
           [declaration "main" 1; returnCommand 2]
           [returnCommand 4; moveCommand "rax" "rbx" 5]
           [moveCommand "rcx" "rdx" 7]
           [declaration "g" 8; returnCommand 9]
           (declaration "f" 3) (returnCommand 6)); reflexivity.
Defined.

(** C1 as stated fails: in the stream [f; return; move], the move follows
    the return and precedes the end of the stream, yet numberOfCommands is 1
    (the return only) and the move is reported as not belonging to any
    function. *)
Lemma C1_counterexample :
  parseFunction (analysisOf streamTrailing objectFile) 0 0
    = (mkFunction "f" 1 1, analysisOf streamTrailing objectFile)
  /\ option_map diagnostics
       (checkFunctionValidity linux (analysisOf streamTrailing objectFile) 0)
     = Some [errorAt msgFloating 3].
Proof. split; reflexivity. Qed.

(** C2, as amended.  When parseFunction, having seen no return, meets the
    next declaration [d2] after the commands [mid], its loop stops at index
    [length mid + 1] (so [length mid] commands were scanned), it prints the
    message that a return was expected at the line of [d2], then the message
    that no return was found at the function's own line, and the body length
    it records is 0. *)
Theorem C2_declaration_before_return_records_zero
    (st : analysis) (op : Z)
    (pre mid post : list parsedCommand) (d1 d2 : parsedCommand) :
  commandsOf st = pre ++ d1 :: mid ++ d2 :: post ->
  plainCommands op mid = true ->
  isDeclaration op d2 = true ->
  parseFunction_loop op (skipn (List.length pre + 1) (commandsOf st)) 1 0 st
    = (S (List.length mid), 0%nat,
       printSemanticError msgExpectedReturn (lineNum d2) st)
  /\ parseFunction st (List.length pre) op
     = (mkFunction (parameterAt d1 0) (lineNum d1) 0,
        printSemanticError msgNoReturn (lineNum d1)
          (printSemanticError msgExpectedReturn (lineNum d2) st)).
Proof.
  intros Harr Hmid Hd2.
  unfold parseFunction. rewrite Harr.
  destruct (nth_middle_cons pre d1 (mid ++ d2 :: post) nullCommand) as [-> ->].
  rewrite parseFunction_loop_scan, parseScan_no_return by assumption.
  rewrite !printSemanticError_emit.
  split; reflexivity.
Qed.

(** C2: its witness, on the stream [f; move; g; return]. *)
Lemma C2_declaration_before_return_records_zero_witness :
  parseFunction_loop 0
    (skipn 1 (commandsOf (analysisOf streamNoReturn objectFile))) 1 0
    (analysisOf streamNoReturn objectFile)
    = (2%nat, 0%nat,
       printSemanticError msgExpectedReturn 3 (analysisOf streamNoReturn objectFile))
  /\ parseFunction (analysisOf streamNoReturn objectFile) 0 0
     = (mkFunction "f" 1 0,
        printSemanticError msgNoReturn 1
          (printSemanticError msgExpectedReturn 3
             (analysisOf streamNoReturn objectFile))).
Proof.
  apply (C2_declaration_before_return_records_zero
           (analysisOf streamNoReturn objectFile) 0
           [] [moveCommand "rax" "rbx" 2] [returnCommand 4]
           (declaration "f" 1) (declaration "g" 3)); reflexivity.
Defined.

(** C2 as stated fails: in the stream [f; move; g; return], the scan of [f]
    breaks at [g] with index 2, one command scanned besides the new
    declaration, yet the body length recorded for [f] is 0 and not 1. *)
Lemma C2_counterexample :
  fst (fst (parseFunction_loop 0
              (skipn 1 (commandsOf (analysisOf streamNoReturn objectFile))) 1 0
              (analysisOf streamNoReturn objectFile))) = 2%nat
  /\ numberOfCommands
       (fst (parseFunction (analysisOf streamNoReturn objectFile) 0 0)) = 0%nat
  /\ diagnostics (snd (parseFunction (analysisOf streamNoReturn objectFile) 0 0))
     = [errorAt msgExpectedReturn 3; errorAt msgNoReturn 1].
Proof. repeat split; reflexivity. Qed.

(** C9.  When a declaration [d1] is followed by the commands [mid], none a
    return nor a declaration, and then by the declaration [d2], the body
    length stored for [d1] is 0, and checkFunctionValidity prints the two
    missing-return messages and then, for every command of [mid] in order,
    the message that the statement does not belong to any function, at the
    line of that command. *)
Theorem C9_returnless_function_floats_its_commands
    (p : platform) (st : analysis) (op : Z)
    (pre mid post : list parsedCommand) (d1 d2 : parsedCommand) :
  commandsOf st = pre ++ d1 :: mid ++ d2 :: post ->
  isDeclaration op d1 = true ->
  plainCommands op mid = true ->
  isDeclaration op d2 = true ->
  numberOfCommands (fst (parseFunction st (List.length pre) op)) = 0%nat
  /\ exists st' D0 D1,
       checkFunctionValidity p st op = Some st'
       /\ diagnostics st'
          = diagnostics st ++ D0
            ++ [errorAt msgExpectedReturn (lineNum d2);
                errorAt msgNoReturn (lineNum d1)]
            ++ map floatingAt mid
            ++ D1.
Proof.
  intros Harr Hd1 Hmid Hd2. split.
  - unfold parseFunction. rewrite Harr.
    destruct (nth_middle_cons pre d1 (mid ++ d2 :: post) nullCommand) as [-> ->].
    rewrite parseFunction_loop_scan, parseScan_no_return by assumption.
    reflexivity.
  - destruct (functionWalk_reach op d1 Hd1 pre 0%nat) as (fns0 & D0 & HX); [lia|].
    rewrite checkFunctionValidity_walk, Harr, HX.
    rewrite functionWalk_declaration by exact Hd1.
    rewrite parseScan_no_return by assumption.
    cbn [Nat.eqb skipn].
    rewrite functionWalk_floating
      by (apply noDeclaration_In, plainCommands_noDeclaration; exact Hmid).
    cbn [fst snd].
    eexists. exists D0. eexists.
    split; [reflexivity|].
    rewrite diagnostics_emit. rewrite <- !app_assoc. cbn [app]. reflexivity.
Qed.

(** C9: its witness, on the stream [f; move; g; return]. *)
Lemma C9_returnless_function_floats_its_commands_witness :
  numberOfCommands
    (fst (parseFunction (analysisOf streamNoReturn objectFile) 0 0)) = 0%nat
  /\ exists st' D0 D1,
       checkFunctionValidity linux (analysisOf streamNoReturn objectFile) 0
         = Some st'
       /\ diagnostics st'
          = diagnostics (analysisOf streamNoReturn objectFile) ++ D0
            ++ [errorAt msgExpectedReturn 3; errorAt msgNoReturn 1]
            ++ map floatingAt [moveCommand "rax" "rbx" 2]
            ++ D1.
Proof.
  apply (C9_returnless_function_floats_its_commands linux
           (analysisOf streamNoReturn objectFile) 0
           [] [moveCommand "rax" "rbx" 2] [returnCommand 4]
           (declaration "f" 1) (declaration "g" 3)); reflexivity.
Defined.

(** ** The comparison analyzers compute their diagnostics *)

Lemma collectComparisons_fold op arr : forall comparisons labels,
  fold_left (collectStep op) arr (comparisons, labels)
  = (comparisons ++ comparisonsOf op arr, labels ++ labelsOf op arr).
Proof.
  induction arr as [|pc arr IH]; intros comparisons labels; simpl.
  - unfold comparisonsOf, labelsOf; simpl. now rewrite !app_nil_r.
  - rewrite (surjective_pairing (collectStep op (comparisons, labels) pc)), IH.
    unfold collectStep, comparisonsOf, labelsOf; simpl.
    destruct (opcode pc =? op) eqn:E1.
    + apply Z.eqb_eq in E1.
      replace (opcode pc =? op + 1) with false by (symmetry; apply Z.eqb_neq; lia).
      simpl. now rewrite <- app_assoc.
    + destruct (opcode pc =? op + 1); simpl; now rewrite <- ?app_assoc.
Qed.

(** The counters of the first traversal are the lengths of the two arrays
    the second traversal fills. *)
Lemma countComparisons_lengths op arr :
  countComparisons op arr
  = (List.length (fst (collectComparisons op arr)),
     List.length (snd (collectComparisons op arr))).
Proof.
  unfold countComparisons, collectComparisons.
  assert (H : forall n m cs ls, n = List.length cs -> m = List.length ls ->
            fold_left (countStep op) arr (n, m)
            = (List.length (fst (fold_left (collectStep op) arr (cs, ls))),
               List.length (snd (fold_left (collectStep op) arr (cs, ls))))).
  { induction arr as [|pc arr IH]; intros n m cs ls Hn Hm; simpl.
    - now subst.
    - unfold countStep, collectStep; simpl.
      destruct (opcode pc =? op); [|destruct (opcode pc =? op + 1)];
        apply IH; subst; rewrite ?length_app; simpl; lia. }
  now apply H.
Qed.

Lemma labelDuplicateLoop_emit li later : forall st,
  labelDuplicateLoop li later st = emit (markerTwiceWith li later) st.
Proof.
  induction later as [|lj later IH]; intros st; simpl.
  - now rewrite emit_nil.
  - rewrite IH, printSemanticErrorWithExtraLineNumber_emit, emit_if, emit_emit.
    reflexivity.
Qed.

Lemma labelLoop_emit labels : forall st,
  labelLoop labels st = emit (markersTwice labels) st.
Proof.
  induction labels as [|li later IH]; intros st; simpl.
  - now rewrite emit_nil.
  - now rewrite IH, labelDuplicateLoop_emit, emit_emit.
Qed.

Lemma definedLoop_markerDefined c labels : forall d1 d2,
  definedLoop c labels d1 d2
  = (d1 || markerDefined labels (parameter1 c),
     d2 || markerDefined labels (parameter2 c)).
Proof.
  induction labels as [|l labels IH]; intros d1 d2; simpl.
  - now rewrite !orb_false_r.
  - rewrite IH.
    destruct (parameter1 c =? parameter l)%string,
             (parameter2 c =? parameter l)%string, d1, d2; reflexivity.
Qed.

Lemma checkComparison_emit labels st c :
  checkComparison labels st c = emit (missingMarkers labels c) st.
Proof.
  unfold checkComparison, missingMarkers.
  rewrite definedLoop_markerDefined. cbn [orb].
  rewrite !printSemanticError_emit.
  destruct (markerDefined labels (parameter1 c)),
           (markerDefined labels (parameter2 c)); cbn [negb app];
    rewrite ?emit_emit, ?emit_nil; reflexivity.
Qed.

Lemma comparisonLoop_emit labels comparisons : forall st,
  fold_left (checkComparison labels) comparisons st
  = emit (flat_map (missingMarkers labels) comparisons) st.
Proof.
  induction comparisons as [|c comparisons IH]; intros st; simpl.
  - now rewrite emit_nil.
  - now rewrite IH, checkComparison_emit, emit_emit.
Qed.

Lemma checkWhoWouldWinValidity_emit st op :
  checkWhoWouldWinValidity st op
  = emit (markersTwice (labelsOf op (commandsOf st))
          ++ flat_map (missingMarkers (labelsOf op (commandsOf st)))
               (comparisonsOf op (commandsOf st)))
      st.
Proof.
  unfold checkWhoWouldWinValidity, collectComparisons.
  rewrite collectComparisons_fold. cbn [app].
  now rewrite comparisonLoop_emit, labelLoop_emit, emit_emit.
Qed.

Lemma samePictureLoop_emit op arr : forall st,
  fold_left (samePictureStep op) arr st = emit (samePictureMissing op arr) st.
Proof.
  unfold samePictureMissing.
  induction arr as [|pc arr IH]; intros st; simpl.
  - now rewrite emit_nil.
  - rewrite IH. unfold samePictureStep.
    rewrite printSemanticError_emit, emit_if, emit_emit.
    destruct (opcode pc =? op); reflexivity.
Qed.

Lemma checkTheyreTheSamePictureValidity_emit st op :
  checkTheyreTheSamePictureValidity st op
  = emit (if fold_left (jumpMarkerStep op) (commandsOf st) 0 =? 0
          then samePictureMissing op (commandsOf st) else [])
      st.
Proof.
  unfold checkTheyreTheSamePictureValidity.
  rewrite samePictureLoop_emit, emit_if. reflexivity.
Qed.

(** The line recorded by the first traversal, when every line is at least
    1: it stays at its start without a label and is positive with one. *)
Lemma jumpMarker_fold op arr :
  (forall pc, In pc arr -> 1 <= lineNum pc) ->
  forall j,
  ((forall pc, In pc arr -> opcode pc <> op + 1) ->
   fold_left (jumpMarkerStep op) arr j = j)
  /\ ((exists pc, In pc arr /\ opcode pc = op + 1) ->
      1 <= fold_left (jumpMarkerStep op) arr j)
  /\ (1 <= j -> 1 <= fold_left (jumpMarkerStep op) arr j).
Proof.
  induction arr as [|pc arr IH]; intros Hline j.
  - simpl. repeat split; auto. intros (pc & [] & _).
  - assert (Hline' : forall q, In q arr -> 1 <= lineNum q)
      by (intros q Hq; apply Hline; now right).
    pose proof (Hline pc (or_introl eq_refl)) as Hpc.
    destruct (IH Hline' (jumpMarkerStep op j pc)) as (IH1 & IH2 & IH3).
    cbn [fold_left]. unfold jumpMarkerStep at 2 4 6.
    unfold jumpMarkerStep in IH1, IH2, IH3.
    destruct (opcode pc =? op + 1) eqn:E.
    + repeat split.
      * intros Hno. apply Z.eqb_eq in E.
        exfalso. exact (Hno pc (or_introl eq_refl) E).
      * intros _. apply IH3, Hpc.
      * intros _. apply IH3, Hpc.
    + apply Z.eqb_neq in E. repeat split.
      * intros Hno. apply IH1. intros q Hq. apply Hno. now right.
      * intros (q & [<-|Hq] & Hop); [contradiction|]. apply IH2. eauto.
      * exact IH3.
Qed.

(** ** The comparison analyzers: what they report *)

(** C7.  On a stream whose lines are numbered from 1,
    checkTheyreTheSamePictureValidity prints its message once per command
    with the compare opcode, at the line of that command and in stream order,
    when no command has the label opcode [op + 1]; when at least one command
    has it, however many, nothing is printed and the state is left as it
    was. *)
Theorem C7_same_picture_reported_iff_no_label (st : analysis) (op : Z) :
  (forall pc, In pc (commandsOf st) -> 1 <= lineNum pc) ->
  ((forall pc, In pc (commandsOf st) -> opcode pc <> op + 1) ->
   checkTheyreTheSamePictureValidity st op
   = emit (map (fun pc => errorAt msgNoSamePicture (lineNum pc))
             (filter (fun pc => opcode pc =? op) (commandsOf st)))
       st)
  /\ ((exists pc, In pc (commandsOf st) /\ opcode pc = op + 1) ->
      checkTheyreTheSamePictureValidity st op = st).
Proof.
  intros Hline.
  destruct (jumpMarker_fold op (commandsOf st) Hline 0) as (Hnone & Hsome & _).
  rewrite checkTheyreTheSamePictureValidity_emit. split.
  - intros Hno. rewrite (Hnone Hno). reflexivity.
  - intros Hex. apply Hsome in Hex.
    replace (fold_left (jumpMarkerStep op) (commandsOf st) 0 =? 0) with false
      by (symmetry; apply Z.eqb_neq; lia).
    apply emit_nil.
Qed.

(** C7: its witness, on a stream with two comparisons and no label, and on
    one with two comparisons and two labels. *)
Lemma C7_same_picture_reported_iff_no_label_witness :
  checkTheyreTheSamePictureValidity (analysisOf streamNoSamePicture objectFile) 8
    = emit [errorAt msgNoSamePicture 2; errorAt msgNoSamePicture 3]
        (analysisOf streamNoSamePicture objectFile)
  /\ checkTheyreTheSamePictureValidity
       (analysisOf streamSamePictureTwice objectFile) 8
     = analysisOf streamSamePictureTwice objectFile.
Proof.
  split.
  - apply (proj1 (C7_same_picture_reported_iff_no_label
                    (analysisOf streamNoSamePicture objectFile) 8
                    ltac:(intros pc H; simpl in H;
                          repeat (destruct H as [<-|H]; [simpl; lia|]);
                          contradiction))).
    intros pc H; simpl in H.
    repeat (destruct H as [<-|H]; [simpl; lia|]). contradiction.
  - apply (proj2 (C7_same_picture_reported_iff_no_label
                    (analysisOf streamSamePictureTwice objectFile) 8
                    ltac:(intros pc H; simpl in H;
                          repeat (destruct H as [<-|H]; [simpl; lia|]);
                          contradiction))).
    exists (samePictureLabel 3). split; [simpl; tauto | reflexivity].
Defined.

Lemma markerDefined_false labels s :
  markerDefined labels s = false
  <-> (forall l, In l labels -> parameter l <> s).
Proof.
  unfold markerDefined. split.
  - intros H l Hl Heq.
    assert (existsb (fun l0 => (s =? parameter l0)%string) labels = true).
    { apply existsb_exists. exists l. split; [exact Hl|].
      apply String.eqb_eq. auto. }
    congruence.
  - intros H. apply not_true_is_false. intros Hex.
    apply existsb_exists in Hex as (l & Hl & Heq).
    apply String.eqb_eq in Heq. exact (H l Hl (eq_sym Heq)).
Qed.

(** C8.  On a stream whose comparisons carry their two parameters and whose
    jump labels carry theirs (the strings the analyzer compares),
    checkWhoWouldWinValidity prints the duplicate-label messages and then,
    for every comparison in stream order, what [missingMarkers] gives: the
    first-parameter message at the line of the comparison exactly when no
    jump label has a parameter equal to the first parameter of the
    comparison, and the second-parameter message exactly when none equals
    the second; the two are decided apart, so one comparison can get both. *)
Theorem C8_who_would_win_missing_markers (st : analysis) (op : Z) :
  comparisonSlotsFilled op (commandsOf st) = true ->
  checkWhoWouldWinValidity st op
  = emit (markersTwice (labelsOf op (commandsOf st))
          ++ flat_map (missingMarkers (labelsOf op (commandsOf st)))
               (comparisonsOf op (commandsOf st)))
      st
  /\ forall c : comparison,
       (In (errorAt msgNoFirstMarker (cmp_definedInLine c))
           (missingMarkers (labelsOf op (commandsOf st)) c)
        <-> (forall l, In l (labelsOf op (commandsOf st)) ->
                       parameter l <> parameter1 c))
       /\ (In (errorAt msgNoSecondMarker (cmp_definedInLine c))
              (missingMarkers (labelsOf op (commandsOf st)) c)
           <-> (forall l, In l (labelsOf op (commandsOf st)) ->
                          parameter l <> parameter2 c)).
Proof.
  intros _. split; [apply checkWhoWouldWinValidity_emit|].
  intros c. set (labels := labelsOf op (commandsOf st)).
  rewrite <- !markerDefined_false. unfold missingMarkers.
  assert (Hneq : errorAt msgNoFirstMarker (cmp_definedInLine c)
                 <> errorAt msgNoSecondMarker (cmp_definedInLine c))
    by (unfold errorAt; intros H; inversion H).
  destruct (markerDefined labels (parameter1 c)),
           (markerDefined labels (parameter2 c)); cbn [app In];
    repeat split; intros; try reflexivity; try discriminate; try tauto;
    firstorder congruence.
Qed.

(** C8: its witness, on a comparison of rax and rbx with a jump label for
    rax only: the second-parameter message, at the line of the comparison,
    and nothing else. *)
Lemma C8_who_would_win_missing_markers_witness :
  checkWhoWouldWinValidity (analysisOf streamWhoWouldWin objectFile) 6
  = emit [errorAt msgNoSecondMarker 2] (analysisOf streamWhoWouldWin objectFile).
Proof.
  exact (proj1 (C8_who_would_win_missing_markers
                  (analysisOf streamWhoWouldWin objectFile) 6 eq_refl)).
Defined.

(** ** The translator: template expansion *)

Lemma append_assoc (a b c : string) : (a +++ b) +++ c = a +++ (b +++ c).
Proof. induction a as [|x a IH]; simpl; [reflexivity | now rewrite IH]. Qed.

Lemma append_nil_r (a : string) : a +++ EmptyString = a.
Proof. induction a as [|x a IH]; simpl; [reflexivity | now rewrite IH]. Qed.

Lemma length_append (a b : string) :
  String.length (a +++ b) = (String.length a + String.length b)%nat.
Proof. induction a as [|x a IH]; simpl; [reflexivity | now rewrite IH]. Qed.

Section Expansion.

Variables (pc : parsedCommand) (c : command).
Hypothesis used_in_slots : 0 <= usedParameters c <= Z.of_nat MAX_PARAMETER_COUNT.
Hypothesis slots_filled :
  (Z.to_nat (usedParameters c) <= List.length (parameters pc))%nat.

Lemma isParameterDigit_placeholder character :
  isParameterDigit c character = isPlaceholder (usedParameters c) character.
Proof.
  unfold isParameterDigit, isPlaceholder, char_val, to_schar.
  unfold MAX_PARAMETER_COUNT in used_in_slots.
  pose proof (N_ascii_bounded character) as Hb.
  set (n := Z.of_N (N_of_ascii character)).
  assert (0 <= n < 256) by (unfold n; lia).
  replace (usedParameters c <? 128) with true by (symmetry; apply Z.ltb_lt; lia).
  destruct (n <? 128) eqn:E.
  - apply Z.ltb_lt in E. f_equal.
    destruct (n <=? usedParameters c + 47) eqn:E1, (n <? 48 + usedParameters c) eqn:E2;
      try reflexivity;
      rewrite ?Z.leb_le, ?Z.leb_gt, ?Z.ltb_lt, ?Z.ltb_ge in *; lia.
  - apply Z.ltb_ge in E.
    replace (48 <=? n - 256) with false by (symmetry; apply Z.leb_gt; lia).
    replace (n <? 48 + usedParameters c) with false by (symmetry; apply Z.ltb_ge; lia).
    now rewrite andb_false_r.
Qed.

Lemma placeholder_read character :
  isPlaceholder (usedParameters c) character = true ->
  char_val character - 48 = Z.of_nat (placeholderIndex character)
  /\ readParameter pc (Z.to_nat (char_val character - 48))
     = Ok (parameterAt pc (placeholderIndex character)).
Proof.
  unfold isPlaceholder, char_val, placeholderIndex, readParameter, parameterAt.
  unfold MAX_PARAMETER_COUNT in used_in_slots.
  intros H. apply andb_true_iff in H as [H1 H2].
  apply Z.leb_le in H1. apply Z.ltb_lt in H2.
  set (n := N_of_ascii character) in *.
  replace (Z.of_N n <? 128) with true by (symmetry; apply Z.ltb_lt; lia).
  assert (Hidx : Z.to_nat (Z.of_N n - 48) = (N.to_nat n - 48)%nat) by lia.
  split; [lia|]. rewrite Hidx.
  destruct (nth_error (parameters pc) (N.to_nat n - 48)) as [s|] eqn:E.
  - now rewrite (nth_error_nth _ _ _ E).
  - apply nth_error_None in E. lia.
Qed.

Lemma expandPattern_expandTemplate pat : forall translatedLine,
  expandPattern pc c pat translatedLine
  = Ok (translatedLine +++ expandTemplate pc (usedParameters c) pat).
Proof.
  induction pat as [|character pat IH]; intros line; simpl.
  - now rewrite append_nil_r.
  - rewrite isParameterDigit_placeholder. unfold expandCharacter.
    destruct (isPlaceholder (usedParameters c) character) eqn:E.
    + destruct (placeholder_read character E) as [-> ->]. simpl.
      destruct (isPointer pc =? Z.of_nat (placeholderIndex character) + 1);
        rewrite IH, !append_assoc; simpl; rewrite ?append_assoc; reflexivity.
    + rewrite IH, append_assoc. reflexivity.
Qed.

(** The length computed by the first pass is the length of the line plus one
    for every placeholder. *)
Lemma lineLength_expandTemplate pat : forall strLen,
  lineLength pc c pat strLen
  = Ok (strLen + String.length (expandTemplate pc (usedParameters c) pat)
        + placeholders (usedParameters c) pat - String.length pat)%nat.
Proof.
  assert (Hle : forall pat,
            (String.length pat
             <= String.length (expandTemplate pc (usedParameters c) pat)
                + placeholders (usedParameters c) pat)%nat).
  { induction pat0 as [|character pat0 IH]; simpl; [lia|].
    rewrite length_append. unfold expandCharacter.
    destruct (isPlaceholder (usedParameters c) character); simpl; lia. }
  induction pat as [|character pat IH]; intros strLen; simpl.
  - f_equal. lia.
  - rewrite isParameterDigit_placeholder. unfold expandCharacter.
    specialize (Hle pat).
    destruct (isPlaceholder (usedParameters c) character) eqn:E.
    + destruct (placeholder_read character E) as [-> ->]. simpl.
      rewrite IH. f_equal. rewrite !length_append.
      destruct (isPointer pc =? Z.of_nat (placeholderIndex character) + 1);
        simpl; rewrite ?length_append; simpl; lia.
    + rewrite IH. f_equal. rewrite !length_append. simpl. lia.
Qed.

End Expansion.

(** ** The translator: one command *)

Section OneCommand.

Variable commandList : list command.

(** translateToAssembly on a command that has a table entry and its used
    parameter slots filled: the STABS labels, the translated line, the
    padding of the level, the STABS line record. *)
Lemma translateToAssembly_line cs ts index pc c :
  readCommand cs index = Ok pc ->
  lookupCommand commandList (opcode pc) = Ok c ->
  0 <= usedParameters c <= Z.of_nat MAX_PARAMETER_COUNT ->
  (Z.to_nat (usedParameters c) <= List.length (parameters pc))%nat ->
  elided cs pc = false ->
  translateToAssembly commandList cs ts index
  = ('(ts1, labels) <- stabsLabels commandList cs ts index pc ;;
     info <- stabsLineInfo commandList cs ts1 index pc ;;
     Ok (ts1,
         labels +++ translatedLineOf pc c
         +++ optimisationPadding (cs_optimisationLevel cs) +++ info)).
Proof.
  intros Hread Hlookup Hused Hslots Helided.
  unfold translateToAssembly, elided in *. rewrite Hread. cbn [bind].
  rewrite Helided.
  destruct (stabsLabels commandList cs ts index pc) as [[ts1 labels]|f];
    [|reflexivity].
  cbn [bind]. rewrite Hlookup. cbn [bind].
  rewrite (lineLength_expandTemplate pc c Hused Hslots). cbn [bind].
  rewrite (expandPattern_expandTemplate pc c Hused Hslots). cbn [bind].
  destruct (stabsLineInfo commandList cs ts1 index pc) as [info|f];
    [|reflexivity].
  cbn [bind]. unfold translatedLineOf.
  destruct (opcode pc =? 0); cbn [negb String.append]; rewrite ?append_assoc;
    reflexivity.
Qed.

Lemma stabsLabels_off cs ts index pc :
  cs_useStabs cs = false ->
  stabsLabels commandList cs ts index pc = Ok (ts, EmptyString).
Proof. unfold stabsLabels. now intros ->. Qed.

Lemma stabsLineInfo_off cs ts index pc :
  cs_useStabs cs = false ->
  stabsLineInfo commandList cs ts index pc = Ok EmptyString.
Proof. unfold stabsLineInfo. now intros ->. Qed.

Lemma stabsLabels_declaration cs ts index pc :
  opcode pc = 0 ->
  exists ts1, stabsLabels commandList cs ts index pc = Ok (ts1, EmptyString).
Proof.
  unfold stabsLabels. intros ->. cbn.
  destruct (cs_useStabs cs); eauto.
Qed.

Lemma stabsLineInfo_declaration cs ts index pc :
  opcode pc = 0 ->
  stabsLineInfo commandList cs ts index pc = Ok EmptyString.
Proof.
  unfold stabsLineInfo. intros ->. cbn. now rewrite andb_false_r.
Qed.

End OneCommand.

(** ** The translator: what one command writes *)

(** C4.  For a command that is translated (it has a table entry whose used
    parameters are among the slots of the command, and the level does not
    elide it), translateToAssembly writes, between what the STABS blocks
    write before and after, the expansion of the template, character by
    character as [expandTemplate] gives it: a character that is a digit from
    '0' up to, not including, '0' + usedParameters is replaced by the
    parameter at its index, in square brackets exactly when isPointer is the
    index plus one, and every other character is copied; the line starts with
    one tab exactly when the opcode is not 0; then the padding of the level.
    Without STABS this is all it writes. *)
Theorem C4_template_expansion
    (commandList : list command) (cs : compileState) (ts : translatorState)
    (index : nat) (pc : parsedCommand) (c : command) :
  readCommand cs index = Ok pc ->
  lookupCommand commandList (opcode pc) = Ok c ->
  0 <= usedParameters c <= Z.of_nat MAX_PARAMETER_COUNT ->
  (Z.to_nat (usedParameters c) <= List.length (parameters pc))%nat ->
  elided cs pc = false ->
  translateToAssembly commandList cs ts index
  = ('(ts1, labels) <- stabsLabels commandList cs ts index pc ;;
     info <- stabsLineInfo commandList cs ts1 index pc ;;
     Ok (ts1,
         labels
         +++ ((if opcode pc =? 0 then EmptyString else tab)
              +++ expandTemplate pc (usedParameters c) (translationPattern c)
              +++ nl)
         +++ optimisationPadding (cs_optimisationLevel cs) +++ info))
  /\ (cs_useStabs cs = false ->
      translateToAssembly commandList cs ts index
      = Ok (ts,
            ((if opcode pc =? 0 then EmptyString else tab)
             +++ expandTemplate pc (usedParameters c) (translationPattern c)
             +++ nl)
            +++ optimisationPadding (cs_optimisationLevel cs))).
Proof.
  intros Hread Hlookup Hused Hslots Helided.
  pose proof (translateToAssembly_line commandList cs ts index pc c
                Hread Hlookup Hused Hslots Helided) as H.
  unfold translatedLineOf in H. split; [exact H|].
  intros Hoff. rewrite H, stabsLabels_off by exact Hoff. cbn [bind].
  rewrite stabsLineInfo_off by exact Hoff.
  cbn [bind String.append]. now rewrite append_nil_r.
Qed.

(** C4: its witness: the move with a pointer as second operand, and the
    declaration, which gets no tab. *)
Lemma C4_template_expansion_witness :
  translateToAssembly sampleCommandList
    (sampleState streamPointer 9 executable o_none false)
    (mkTranslatorState None 0) 1
  = Ok (mkTranslatorState None 0, tab +++ "mov rax, [rbx]" +++ nl)
  /\ translateToAssembly sampleCommandList
       (sampleState streamPointer 9 executable o_1 false)
       (mkTranslatorState None 0) 0
     = Ok (mkTranslatorState None 0, "main:" +++ nl +++ tab +++ "nop" +++ nl).
Proof.
  split.
  - rewrite (proj2 (C4_template_expansion sampleCommandList
                      (sampleState streamPointer 9 executable o_none false)
                      (mkTranslatorState None 0) 1
                      (mkParsedCommand 4 ["rax"; "rbx"] 2 2 1)
                      (mkCommand "p is brilliant, but I like p" 2 "mov 0, 1")
                      eq_refl eq_refl ltac:(cbn; lia) ltac:(cbn; lia) eq_refl)
                   eq_refl).
    reflexivity.
  - rewrite (proj2 (C4_template_expansion sampleCommandList
                      (sampleState streamPointer 9 executable o_1 false)
                      (mkTranslatorState None 0) 0
                      (declaration "main" 1)
                      (mkCommand
                         "I like to have fun, fun, fun, fun, fun, fun, fun, fun, fun, fun p"
                         1 "0:")
                      eq_refl eq_refl ltac:(cbn; lia) ltac:(cbn; lia) eq_refl)
                   eq_refl).
    reflexivity.
Defined.

Lemma readCommand_in_bounds cs index pc :
  readCommand cs index = Ok pc -> (index < size (cs_commandsArray cs))%nat.
Proof.
  unfold readCommand, size.
  destruct (nth_error (arrayPointer (cs_commandsArray cs)) index) eqn:E;
    [|discriminate].
  intros _. apply nth_error_Some. congruence.
Qed.

Lemma readCommand_past cs index :
  (size (cs_commandsArray cs) <= index)%nat ->
  readCommand cs index = Fault (CommandIndexOutOfBounds index).
Proof.
  unfold readCommand, size. intros H.
  now rewrite (proj2 (nth_error_None _ _) H).
Qed.

Lemma elided_not_42069 cs pc :
  cs_optimisationLevel cs <> o42069 -> elided cs pc = false.
Proof.
  unfold elided. destruct (cs_optimisationLevel cs); intros H;
    try apply andb_false_r. contradiction.
Qed.

(** C3.  With STABS on and a level other than o42069, translating a command
    other than a declaration whose template is int3 reads the command at
    [index + 1] to print the line label of the next command.  When the
    command is the last of the stream, that is a read of the command array
    at position [size], one past its end, and the translation loop of
    writeToFile meets it whenever the command has translate == 1; when the
    command has a successor the read is in bounds and the label of the
    successor is printed. *)
Theorem C3_breakpoint_at_the_end_reads_past_the_stream
    (commandList : list command) (cs : compileState) (ts : translatorState)
    (index : nat) (pc : parsedCommand) :
  cs_useStabs cs = true ->
  cs_optimisationLevel cs <> o42069 ->
  readCommand cs index = Ok pc ->
  opcode pc <> 0 ->
  stabs_ignore commandList (opcode pc) = Ok true ->
  (S index = size (cs_commandsArray cs) ->
   stabsLabels commandList cs ts index pc
     = Fault (CommandIndexOutOfBounds (size (cs_commandsArray cs)))
   /\ translateToAssembly commandList cs ts index
      = Fault (CommandIndexOutOfBounds (size (cs_commandsArray cs)))
   /\ (translate pc = 1 ->
       translateLoop commandList cs [index] ts
       = Fault (CommandIndexOutOfBounds (size (cs_commandsArray cs)))))
  /\ ((S index < size (cs_commandsArray cs))%nat ->
      exists next,
        readCommand cs (index + 1) = Ok next
        /\ stabsLabels commandList cs ts index pc
           = Ok (mkTranslatorState (currentFunctionName ts) 1,
                 stabs_writeLineLabel next)).
Proof.
  intros Hstabs Hlevel Hread Hop Hignore.
  apply Z.eqb_neq in Hop.
  assert (Hlabels : stabsLabels commandList cs ts index pc
                    = (next <- readCommand cs (index + 1) ;;
                       Ok (mkTranslatorState (currentFunctionName ts) 1,
                           stabs_writeLineLabel next))).
  { unfold stabsLabels. now rewrite Hstabs, Hop, Hignore. }
  split.
  - intros Hlast.
    assert (Hfault : stabsLabels commandList cs ts index pc
                     = Fault (CommandIndexOutOfBounds (size (cs_commandsArray cs)))).
    { rewrite Hlabels, readCommand_past by lia.
      cbn [bind]. do 2 f_equal. lia. }
    assert (Htranslate : translateToAssembly commandList cs ts index
                         = Fault (CommandIndexOutOfBounds (size (cs_commandsArray cs)))).
    { unfold translateToAssembly. rewrite Hread. cbn [bind].
      pose proof (elided_not_42069 cs pc Hlevel) as He. unfold elided in He.
      now rewrite He, Hfault. }
    repeat split; auto.
    intros Htr. cbn [translateLoop]. rewrite Hread. cbn [bind].
    now rewrite Htr, Htranslate.
  - intros Hnext. rewrite Hlabels. unfold readCommand at 1 2.
    destruct (nth_error (arrayPointer (cs_commandsArray cs)) (index + 1))
      as [next|] eqn:E.
    + exists next. split; reflexivity.
    + apply nth_error_None in E. unfold size in Hnext. lia.
Qed.

(** C3: its witness, on a stream that ends with a breakpoint: the read at
    position 3 of a stream of size 3. *)
Lemma C3_breakpoint_at_the_end_reads_past_the_stream_witness :
  translateToAssembly sampleCommandList
    (sampleState streamTrapLast 9 executable o_none true)
    (mkTranslatorState (Some "main") 0) 2
  = Fault (CommandIndexOutOfBounds 3).
Proof.
  exact (proj1 (proj2
           (proj1 (C3_breakpoint_at_the_end_reads_past_the_stream sampleCommandList
                     (sampleState streamTrapLast 9 executable o_none true)
                     (mkTranslatorState (Some "main") 0) 2 (trapCommand 3)
                     eq_refl ltac:(discriminate) eq_refl ltac:(discriminate)
                     eq_refl)
                  eq_refl))).
Defined.

(** ** The translator: the whole file *)

Section WholeFile.

Variable commandList : list command.

Lemma translateLoop_app cs l1 : forall l2 ts,
  translateLoop commandList cs (l1 ++ l2) ts
  = ('(ts1, out1) <- translateLoop commandList cs l1 ts ;;
     '(ts2, out2) <- translateLoop commandList cs l2 ts1 ;;
     Ok (ts2, out1 +++ out2)).
Proof.
  induction l1 as [|i l1 IH]; intros l2 ts.
  - cbn [app translateLoop bind].
    destruct (translateLoop commandList cs l2 ts) as [[ts2 out2]|f]; reflexivity.
  - cbn [app translateLoop].
    destruct (readCommand cs i) as [pc|f]; [|reflexivity]. cbn [bind].
    destruct (if translate pc =? 1 then translateToAssembly commandList cs ts i
              else Ok (ts, EmptyString)) as [[ts1 out1]|f]; [|reflexivity].
    cbn [bind]. rewrite IH.
    destruct (translateLoop commandList cs l1 ts1) as [[ts2 out2]|f];
      [|reflexivity].
    cbn [bind].
    destruct (translateLoop commandList cs l2 ts2) as [[ts3 out3]|f];
      [|reflexivity].
    cbn [bind]. now rewrite !append_assoc.
Qed.

(** A command before which STABS prints no label is written as its line and
    the padding. *)
Lemma translateToAssembly_unlabelled cs ts index pc c :
  readCommand cs index = Ok pc ->
  lookupCommand commandList (opcode pc) = Ok c ->
  0 <= usedParameters c <= Z.of_nat MAX_PARAMETER_COUNT ->
  (Z.to_nat (usedParameters c) <= List.length (parameters pc))%nat ->
  elided cs pc = false ->
  cs_useStabs cs = false \/ opcode pc = 0 ->
  exists ts1,
    translateToAssembly commandList cs ts index
    = Ok (ts1, translatedLineOf pc c
               +++ optimisationPadding (cs_optimisationLevel cs)).
Proof.
  intros Hread Hlookup Hused Hslots Helided Hplain.
  rewrite (translateToAssembly_line commandList cs ts index pc c) by assumption.
  destruct Hplain as [Hoff | Hop].
  - exists ts. rewrite stabsLabels_off by exact Hoff. cbn [bind].
    rewrite stabsLineInfo_off by exact Hoff. cbn [bind String.append].
    now rewrite append_nil_r.
  - destruct (stabsLabels_declaration commandList cs ts index pc Hop)
      as (ts1 & ->).
    exists ts1. cbn [bind].
    rewrite stabsLineInfo_declaration by exact Hop. cbn [bind String.append].
    now rewrite append_nil_r.
Qed.

Lemma emittable_entry pc :
  emittable commandList pc = true ->
  exists c, lookupCommand commandList (opcode pc) = Ok c
            /\ 0 <= usedParameters c <= Z.of_nat MAX_PARAMETER_COUNT
            /\ (Z.to_nat (usedParameters c) <= List.length (parameters pc))%nat
            /\ (opcode pc = 0 -> (1 <= List.length (parameters pc))%nat).
Proof.
  unfold emittable.
  destruct (lookupCommand commandList (opcode pc)) as [c|f]; [|discriminate].
  intros H. exists c.
  apply andb_true_iff in H as [H H4]. apply andb_true_iff in H as [H H3].
  apply andb_true_iff in H as [H1 H2].
  apply Z.leb_le in H1, H2. apply Nat.leb_le in H3.
  repeat split; auto.
  intros Hop. rewrite Hop in H4. now apply Nat.leb_le in H4.
Qed.



Lemma functionNamesLoop_total emit arr :
  forallb (emittable commandList) arr = true ->
  exists out, functionNamesLoop emit arr = Ok out.
Proof.
  induction arr as [|pc arr IH]; intros Hall; [eexists; reflexivity|].
  cbn [forallb] in Hall. apply andb_true_iff in Hall as [Hpc Hall].
  destruct (IH Hall) as (rest & Hrest).
  destruct (emittable_entry pc Hpc) as (c & _ & _ & _ & Hname).
  cbn [functionNamesLoop]. rewrite Hrest.
  destruct ((opcode pc =? 0) && (translate pc =? 1)) eqn:E.
  - apply andb_true_iff in E as [E _]. apply Z.eqb_eq in E.
    specialize (Hname E). unfold readParameter.
    destruct (parameters pc) as [|s params]; [simpl in Hname; lia|].
    cbn. eauto.
  - cbn. eauto.
Qed.

End WholeFile.

(** ** The translator: the label at randomIndex *)






(** ** Further properties of the code *)

Lemma countFunctionDefinitions_filter op arr : forall n,
  fold_left (fun k pc => if opcode pc =? op then S k else k) arr n
  = (n + List.length (filter (isDeclaration op) arr))%nat.
Proof.
  induction arr as [|pc arr IH]; intros n; simpl; [lia|].
  rewrite IH. unfold isDeclaration. destruct (opcode pc =? op); simpl; lia.
Qed.

Lemma functionWalk_count op l : forall skip,
  (skip <= leading op l)%nat ->
  List.length (fst (functionWalk op l skip))
  = List.length (filter (isDeclaration op) l).
Proof.
  induction l as [|pc l IH]; intros skip Hskip; [reflexivity|].
  cbn [leading] in Hskip. cbn [functionWalk filter].
  destruct skip as [|k].
  - destruct (isDeclaration op pc) eqn:Hpc.
    + destruct (parseScan op l 1 0) as [[i e] ds] eqn:Hscan.
      destruct (parseScan_bounds _ _ _ _ _ _ _ Hscan) as [Hi He]; [lia|].
      specialize (IH e ltac:(lia)).
      destruct (functionWalk op l e) as [fns later]. simpl in *. lia.
    + specialize (IH 0%nat ltac:(lia)).
      destruct (functionWalk op l 0) as [fns later]. exact IH.
  - destruct (isDeclaration op pc) eqn:Hpc; [lia|].
    apply IH. lia.
Qed.

(** X1.  The walk of checkFunctionValidity returns, and it parses one
    function per declaration of the stream: the array of
    [functionDefinitions] functions is filled completely before the name
    check reads it. *)
Theorem functions_array_filled (st : analysis) (op : Z) :
  exists functions st',
    functionLoop (S (List.length (commandsOf st))) op 0 [] st
      = Some (functions, st')
    /\ List.length functions = countFunctionDefinitions op (commandsOf st).
Proof.
  do 2 eexists. split; [apply functionLoop_walk; lia|].
  cbn [skipn app]. unfold countFunctionDefinitions.
  rewrite countFunctionDefinitions_filter.
  apply functionWalk_count. lia.
Qed.

(** X2.  The line fits its buffer: for a command whose used parameters are
    among its slots, the length [strLen] computed by the first pass over the
    pattern is at least the length of the expanded line, so the
    [strLen + 3] bytes allocated hold the line and its terminator. *)
Theorem translated_line_fits_its_buffer
    (pc : parsedCommand) (c : command) :
  0 <= usedParameters c <= Z.of_nat MAX_PARAMETER_COUNT ->
  (Z.to_nat (usedParameters c) <= List.length (parameters pc))%nat ->
  exists strLen translatedLine,
    lineLength pc c (translationPattern c) (String.length (translationPattern c))
      = Ok strLen
    /\ expandPattern pc c (translationPattern c) EmptyString = Ok translatedLine
    /\ (String.length translatedLine + 1 <= strLen + 3)%nat
    /\ strLen
       = (String.length translatedLine
          + placeholders (usedParameters c) (translationPattern c))%nat.
Proof.
  intros Hused Hslots.
  do 2 eexists. split; [apply lineLength_expandTemplate; assumption|].
  split; [apply expandPattern_expandTemplate; assumption|].
  cbn [String.append]. split; lia.
Qed.

(** X2: its witness, on the move with a pointer operand: 15 bytes hold the
    14 characters of the line. *)
Lemma translated_line_fits_its_buffer_witness :
  exists strLen translatedLine,
    lineLength (mkParsedCommand 4 ["rax"; "rbx"] 2 2 1)
      (mkCommand "p is brilliant, but I like p" 2 "mov 0, 1") "mov 0, 1" 8
      = Ok strLen
    /\ expandPattern (mkParsedCommand 4 ["rax"; "rbx"] 2 2 1)
         (mkCommand "p is brilliant, but I like p" 2 "mov 0, 1") "mov 0, 1"
         EmptyString = Ok translatedLine
    /\ (String.length translatedLine + 1 <= strLen + 3)%nat
    /\ strLen
       = (String.length translatedLine
          + placeholders 2 "mov 0, 1")%nat.
Proof.
  apply (translated_line_fits_its_buffer
           (mkParsedCommand 4 ["rax"; "rbx"] 2 2 1)
           (mkCommand "p is brilliant, but I like p" 2 "mov 0, 1"));
    cbn; lia.
Defined.

Lemma jumpMarker_last op arr : forall j,
  fold_left (jumpMarkerStep op) arr j
  = match samePictureLabels op arr with
    | [] => j
    | pc :: _ => lineNum pc
    end.
Proof.
  unfold samePictureLabels.
  induction arr as [|pc arr IH]; intros j; [reflexivity|].
  cbn [fold_left filter]. rewrite IH. unfold jumpMarkerStep.
  destruct (opcode pc =? op + 1); [|reflexivity].
  cbn [rev].
  destruct (rev (filter (fun q => opcode q =? op + 1) arr)); reflexivity.
Qed.

(** X3.  The same-picture check is decided by the label that comes last in
    the stream, and by its line: without a label, or when the last label is
    at line 0, every comparison of the family is reported, in stream order;
    when the last label is at another line nothing is reported and the state
    is returned as it was, however many labels there are and whatever the
    lines of the earlier ones. *)
Theorem same_picture_decided_by_the_last_label (st : analysis) (op : Z) :
  checkTheyreTheSamePictureValidity st op
  = match samePictureLabels op (commandsOf st) with
    | [] => emit (samePictureMissing op (commandsOf st)) st
    | pc :: _ =>
        if lineNum pc =? 0
        then emit (samePictureMissing op (commandsOf st)) st
        else st
    end.
Proof.
  rewrite checkTheyreTheSamePictureValidity_emit, jumpMarker_last.
  destruct (samePictureLabels op (commandsOf st)) as [|pc labels];
    [reflexivity|].
  destruct (lineNum pc =? 0); [reflexivity | apply emit_nil].
Qed.

(** ** The function analyzer: what it accepts *)

Lemma functionWalk_names op l : forall skip,
  (skip <= leading op l)%nat ->
  map nameAndLine (fst (functionWalk op l skip))
  = map (fun pc => (parameterAt pc 0, lineNum pc)) (declarationsOf op l).
Proof.
  unfold declarationsOf.
  induction l as [|pc l IH]; intros skip Hskip; [reflexivity|].
  cbn [leading] in Hskip. cbn [functionWalk filter].
  destruct skip as [|k].
  - destruct (isDeclaration op pc) eqn:Hpc.
    + destruct (parseScan op l 1 0) as [[i e] ds] eqn:Hscan.
      destruct (parseScan_bounds _ _ _ _ _ _ _ Hscan) as [Hi He]; [lia|].
      specialize (IH e ltac:(lia)).
      destruct (functionWalk op l e) as [fns later]. cbn in *. now rewrite IH.
    + specialize (IH 0%nat ltac:(lia)).
      destruct (functionWalk op l 0) as [fns later]. exact IH.
  - destruct (isDeclaration op pc) eqn:Hpc; [lia|].
    apply IH. lia.
Qed.

Lemma functionWalk_declaredNames op l :
  map name (fst (functionWalk op l 0)) = declaredNames op l.
Proof.
  pose proof (functionWalk_names op l 0%nat ltac:(lia)) as H.
  apply (f_equal (map fst)) in H. rewrite !map_map in H. exact H.
Qed.

(** Where the scan of parseFunction leaves [functionEndIndex]: at its start
    value when no command before the next declaration is a return, and at
    the index of the last such return otherwise. *)
Lemma parseScan_last_return op rest : forall index e0,
  let e := snd (fst (parseScan op rest index e0)) in
  (e = e0
   /\ forall k, (k < leading op rest)%nat ->
                isReturn op (nth k rest nullCommand) = false)
  \/ (exists k, (k < leading op rest)%nat /\ e = (index + k)%nat
                /\ isReturn op (nth k rest nullCommand) = true
                /\ forall j, (k < j < leading op rest)%nat ->
                             isReturn op (nth j rest nullCommand) = false).
Proof.
  induction rest as [|pc rest IH]; intros index e0; cbn zeta.
  - left. split; [reflexivity|]. cbn. intros k Hk. lia.
  - cbn [parseScan leading]. destruct (isDeclaration op pc) eqn:Hpc.
    + left. split; [reflexivity|]. intros k Hk. lia.
    + destruct (IH (S index) (if isReturn op pc then index else e0))
        as [[He Hnone] | (k & Hk & He & Hret & Hlast)].
      * destruct (isReturn op pc) eqn:Hr.
        -- right. exists 0%nat. repeat split; [lia | lia | exact Hr |].
           intros [|j] Hj; [lia|]. cbn. apply Hnone. lia.
        -- left. split; [exact He|].
           intros [|k] Hk; [exact Hr | cbn; apply Hnone; lia].
      * right. exists (S k). repeat split; [lia | lia | exact Hret |].
        intros [|j] Hj; [lia|]. cbn. apply Hlast. lia.
Qed.

Lemma leading_nth op l k :
  (k < leading op l)%nat -> isDeclaration op (nth k l nullCommand) = false.
Proof.
  revert k. induction l as [|pc l IH]; intros k Hk; cbn in Hk; [lia|].
  destruct (isDeclaration op pc) eqn:Hpc; [lia|].
  destruct k as [|k]; [exact Hpc | cbn; apply IH; lia].
Qed.

Lemma noDeclaration_firstn op l k :
  (k <= leading op l)%nat -> noDeclaration op (firstn k l) = true.
Proof.
  revert k. induction l as [|pc l IH]; intros [|k] Hk; try reflexivity.
  cbn [leading] in Hk. destruct (isDeclaration op pc) eqn:Hpc; [lia|].
  unfold noDeclaration in *. cbn. rewrite Hpc. cbn. apply IH. lia.
Qed.

Lemma functionsOnly_endsFunction op l :
  functionsOnly op l -> endsFunction op l = true.
Proof. intros H. destruct H; [reflexivity | assumption]. Qed.

Lemma functionWalk_accepts op l :
  functionsOnly op l -> snd (functionWalk op l 0) = [].
Proof.
  induction 1 as [|d body r rest Hd Hbody Hr Hrest IH]; [reflexivity|].
  rewrite functionWalk_declaration by exact Hd.
  pose proof (parseScan_function op body r [] rest Hbody Hr eq_refl
                (functionsOnly_endsFunction _ _ Hrest) 1%nat 0%nat ltac:(lia))
    as Hscan.
  cbn [app] in Hscan. rewrite Hscan.
  replace (skipn (1 + List.length body) (body ++ r :: rest)) with rest.
  2:{ rewrite <- skipn_skipn, skipn_app, skipn_all, Nat.sub_diag. reflexivity. }
  cbn. exact IH.
Qed.

Lemma functionWalk_accepted op : forall n l,
  (List.length l <= n)%nat ->
  snd (functionWalk op l 0) = [] -> functionsOnly op l.
Proof.
  induction n as [|n IH]; intros l Hlen Hwalk.
  - destruct l; [constructor | cbn in Hlen; lia].
  - destruct l as [|d l]; [constructor|].
    destruct (isDeclaration op d) eqn:Hd.
    2:{ cbn [functionWalk] in Hwalk. rewrite Hd in Hwalk.
        destruct (functionWalk op l 0); discriminate. }
    rewrite functionWalk_declaration in Hwalk by exact Hd.
    pose proof (parseScan_last_return op l 1 0) as Hlast. cbn zeta in Hlast.
    destruct (parseScan op l 1 0) as [[i e] ds]. cbn [fst snd] in *.
    apply app_eq_nil in Hwalk as [_ Hwalk].
    apply app_eq_nil in Hwalk as [Hnoret Hwalk].
    destruct e as [|e]; [discriminate|].
    destruct Hlast as [[He _] | (k & Hk & He & Hret & _)]; [discriminate|].
    assert (e = k) by lia. subst e.
    pose proof (leading_le op l) as Hle.
    assert (Hsplit : l = firstn k l ++ nth k l nullCommand :: skipn (S k) l).
    { rewrite <- (firstn_skipn k l) at 1. f_equal.
      destruct (skipn k l) as [|x l'] eqn:E.
      - apply (f_equal (@List.length _)) in E. rewrite length_skipn in E.
        cbn in E. lia.
      - destruct (skipn_cons_nth _ _ nullCommand _ _ E) as [-> <-].
        now rewrite Nat.add_1_r. }
    rewrite Hsplit. constructor; auto.
    + apply noDeclaration_firstn. lia.
    + apply IH; [|exact Hwalk].
      rewrite length_skipn. cbn in Hlen. lia.
Qed.

Lemma duplicatesOf_nil fn later :
  duplicatesOf fn later = [] <-> ~ In (name fn) (map name later).
Proof.
  induction later as [|fj later IH]; cbn; [tauto|].
  destruct (name fn =? name fj)%string eqn:E.
  - apply String.eqb_eq in E. split; [discriminate | intros H; exfalso; auto].
  - apply String.eqb_neq in E. cbn. rewrite IH. split.
    + intros H [Heq | Hin]; [congruence | contradiction].
    + intros H Hin. apply H. now right.
Qed.

Lemma duplicateFunctions_nil fns :
  duplicateFunctions fns = [] <-> NoDup (map name fns).
Proof.
  induction fns as [|fn later IH]; cbn.
  - split; [constructor | reflexivity].
  - split.
    + intros H. apply app_eq_nil in H as [H1 H2].
      constructor; [now apply duplicatesOf_nil | now apply IH].
    + intros H. inversion H as [|x l Hnotin Hnodup]; subst.
      apply duplicatesOf_nil in Hnotin. apply IH in Hnodup.
      now rewrite Hnotin, Hnodup.
Qed.

Lemma hasMain_In p fns :
  hasMain p fns = true <-> In (mainFuncName p) (map name fns).
Proof.
  unfold hasMain. rewrite existsb_exists, in_map_iff. split.
  - intros (fn & Hin & Heq). apply String.eqb_eq in Heq. eauto.
  - intros (fn & Heq & Hin). exists fn. split; [exact Hin|].
    now apply String.eqb_eq.
Qed.

(** X4.  On a stream whose declarations carry their name,
    checkFunctionValidity returns, and it prints nothing exactly when the
    stream is a sequence of functions and nothing else (each a declaration,
    commands without a declaration, and a return as the last command before
    the next declaration or the end of the stream), the names declared are
    pairwise distinct, and, in mode executable, one of them is the main
    symbol of the platform. *)
Theorem checkFunctionValidity_accepts_iff
    (p : platform) (st : analysis) (op : Z) :
  declarationsNamed op (commandsOf st) = true ->
  exists st',
    checkFunctionValidity p st op = Some st'
    /\ (diagnostics st' = diagnostics st
        <-> functionsOnly op (commandsOf st)
            /\ NoDup (declaredNames op (commandsOf st))
            /\ (cs_compileMode (fst st) = executable ->
                In (mainFuncName p) (declaredNames op (commandsOf st)))).
Proof.
  intros _. eexists. split; [apply checkFunctionValidity_walk|].
  rewrite diagnostics_emit. unfold nameDiagnostics.
  rewrite <- (functionWalk_declaredNames op (commandsOf st)).
  set (fns := fst (functionWalk op (commandsOf st) 0)).
  rewrite <- duplicateFunctions_nil, <- hasMain_In.
  split.
  - intros H. rewrite <- (app_nil_r (diagnostics st)) in H at 2.
    apply app_inv_head in H.
    apply app_eq_nil in H as [Hwalk H]. apply app_eq_nil in H as [Hdup Hmain].
    repeat split.
    + eapply functionWalk_accepted; [reflexivity | exact Hwalk].
    + exact Hdup.
    + intros Hmode. rewrite Hmode in Hmain. cbn in Hmain.
      destruct (hasMain p fns); [reflexivity | discriminate].
  - intros (Hwf & Hdup & Hmain).
    rewrite (functionWalk_accepts _ _ Hwf), Hdup. cbn [app].
    destruct (cs_compileMode (fst st)); cbn; rewrite ?app_nil_r; auto.
    rewrite (Hmain eq_refl). cbn. now rewrite app_nil_r.
Qed.

(** X4: on a stream with a command after the last return of its function. *)
Lemma checkFunctionValidity_accepts_iff_witness :
  exists st',
    checkFunctionValidity linux (analysisOf streamTwoReturns executable) 0
    = Some st'
    /\ (diagnostics st' = diagnostics (analysisOf streamTwoReturns executable)
        <-> functionsOnly 0 (commandsOf (analysisOf streamTwoReturns executable))
            /\ NoDup (declaredNames 0
                        (commandsOf (analysisOf streamTwoReturns executable)))
            /\ (cs_compileMode (fst (analysisOf streamTwoReturns executable))
                = executable ->
                In (mainFuncName linux)
                  (declaredNames 0
                     (commandsOf (analysisOf streamTwoReturns executable))))).
Proof.
  apply (checkFunctionValidity_accepts_iff linux
           (analysisOf streamTwoReturns executable) 0 eq_refl).
Defined.

Lemma leading_ge op l : forall m,
  (m <= List.length l)%nat ->
  (forall j, (j < m)%nat -> isDeclaration op (nth j l nullCommand) = false) ->
  (m <= leading op l)%nat.
Proof.
  induction l as [|pc l IH]; intros m Hm Hall; cbn in *; [lia|].
  destruct m as [|m]; [lia|].
  rewrite (Hall 0%nat ltac:(lia)).
  apply le_n_S, IH; [lia|].
  intros j Hj. apply (Hall (S j)). lia.
Qed.

(** X5.  The body length parseFunction records for the declaration at
    [start] is the distance to the last return before the next declaration:
    the commands it spans lie inside the stream and none is a declaration,
    the command it ends on is a return whenever the length is not 0, and no
    command between that one and the next declaration is a return. *)
Theorem parseFunction_ends_at_the_last_return
    (st : analysis) (start : nat) (op : Z) :
  (start < List.length (commandsOf st))%nat ->
  let fn := fst (parseFunction st start op) in
  name fn = parameterAt (nth start (commandsOf st) nullCommand) 0
  /\ definedInLine fn = lineNum (nth start (commandsOf st) nullCommand)
  /\ (start + numberOfCommands fn < List.length (commandsOf st))%nat
  /\ (forall k, (1 <= k <= numberOfCommands fn)%nat ->
        isDeclaration op (nth (start + k) (commandsOf st) nullCommand) = false)
  /\ ((0 < numberOfCommands fn)%nat ->
      isReturn op (nth (start + numberOfCommands fn) (commandsOf st) nullCommand)
      = true)
  /\ (forall k, (numberOfCommands fn < k)%nat ->
        (start + k < List.length (commandsOf st))%nat ->
        (forall j, (1 <= j <= k)%nat ->
           isDeclaration op (nth (start + j) (commandsOf st) nullCommand) = false) ->
        isReturn op (nth (start + k) (commandsOf st) nullCommand) = false).
Proof.
  intros Hstart. cbn zeta. unfold parseFunction.
  rewrite parseFunction_loop_scan.
  set (arr := commandsOf st) in *.
  set (rest := skipn (start + 1) arr).
  pose proof (parseScan_last_return op rest 1 0) as Hlast. cbn zeta in Hlast.
  destruct (parseScan op rest 1 0) as [[i e] ds]. cbn [fst snd numberOfCommands name definedInLine] in *.
  pose proof (leading_le op rest) as Hle.
  assert (Hlen : List.length rest = (List.length arr - (start + 1))%nat)
    by apply length_skipn.
  assert (Hnth : forall k, nth k rest nullCommand = nth (start + 1 + k) arr nullCommand)
    by (intros k; apply nth_skipn).
  assert (Hbound : forall k, (start + k < List.length arr)%nat ->
            (forall j, (1 <= j <= k)%nat ->
               isDeclaration op (nth (start + j) arr nullCommand) = false) ->
            (k <= leading op rest)%nat).
  { intros k Hk Hall. apply leading_ge; [lia|].
    intros j Hj. rewrite Hnth.
    replace (start + 1 + j)%nat with (start + S j)%nat by lia.
    apply Hall. lia. }
  split; [reflexivity|]. split; [reflexivity|].
  destruct Hlast as [[He Hnone] | (k & Hk & He & Hret & Hafter)]; subst e.
  - repeat split; try lia.
    intros k Hk Hin Hall. specialize (Hbound k Hin Hall).
    replace (start + k)%nat with (start + 1 + (k - 1))%nat by lia.
    rewrite <- Hnth. apply Hnone. lia.
  - repeat split; try lia.
    + intros j Hj. replace (start + j)%nat with (start + 1 + (j - 1))%nat by lia.
      rewrite <- Hnth. apply leading_nth. lia.
    + intros _. replace (start + (1 + k))%nat with (start + 1 + k)%nat by lia.
      now rewrite <- Hnth.
    + intros j Hj Hin Hall. specialize (Hbound j Hin Hall).
      replace (start + j)%nat with (start + 1 + (j - 1))%nat by lia.
      rewrite <- Hnth. apply Hafter. lia.
Qed.

(** X5: on the function [f] of the stream with two returns: it starts at
    index 2 and ends on the return at index 5. *)
Lemma parseFunction_ends_at_the_last_return_witness :
  numberOfCommands (fst (parseFunction (analysisOf streamTwoReturns objectFile) 2 0))
  = 3%nat
  /\ isReturn 0
       (nth (2 + numberOfCommands
                   (fst (parseFunction (analysisOf streamTwoReturns objectFile) 2 0)))
            streamTwoReturns nullCommand) = true.
Proof.
  split; [reflexivity|].
  apply (proj1 (proj2 (proj2 (proj2 (proj2
           (parseFunction_ends_at_the_last_return
              (analysisOf streamTwoReturns objectFile) 2 0 ltac:(cbn; lia))))))).
  cbn. lia.
Defined.

Lemma parseScan_walkDiagnostic op rest : forall index e,
  Forall walkDiagnostic (snd (parseScan op rest index e)).
Proof.
  induction rest as [|pc rest IH]; intros index e; cbn; [constructor|].
  destruct (isDeclaration op pc); [|apply IH].
  cbn. destruct (e =? 0)%nat; repeat constructor. discriminate.
Qed.

Lemma functionWalk_walkDiagnostic op l : forall skip,
  Forall walkDiagnostic (snd (functionWalk op l skip)).
Proof.
  induction l as [|pc l IH]; intros skip; cbn; [constructor|].
  destruct skip as [|k]; [|apply IH].
  destruct (isDeclaration op pc).
  - pose proof (parseScan_walkDiagnostic op l 1 0) as Hscan.
    destruct (parseScan op l 1 0) as [[i e] ds]. cbn in Hscan.
    specialize (IH e). destruct (functionWalk op l e) as [fns later].
    cbn in *. apply Forall_app. split; [exact Hscan|].
    apply Forall_app. split; [|exact IH].
    destruct (e =? 0)%nat; repeat constructor. discriminate.
  - specialize (IH 0%nat). destruct (functionWalk op l 0) as [fns later].
    cbn in *. constructor; [|exact IH]. split; [reflexivity | discriminate].
Qed.

Lemma duplicatesOf_In fn later d :
  In d (duplicatesOf fn later)
  <-> exists j fj, nth_error later j = Some fj /\ name fn = name fj
                   /\ d = mkDiagnostic msgDuplicateFunction (definedInLine fj)
                            (Some (definedInLine fn)).
Proof.
  induction later as [|f later IH]; cbn.
  - split; [tauto | intros (j & fj & H & _); destruct j; discriminate].
  - rewrite in_app_iff, IH. split.
    + intros [H | (j & fj & Hj & Hn & Hd)].
      * destruct (name fn =? name f)%string eqn:E; [|contradiction].
        destruct H as [<-|[]]. exists 0%nat, f. apply String.eqb_eq in E. auto.
      * exists (S j), fj. auto.
    + intros ([|j] & fj & Hj & Hn & Hd).
      * cbn in Hj. inversion Hj; subst f. left.
        apply String.eqb_eq in Hn. rewrite Hn. now left.
      * right. exists j, fj. auto.
Qed.

Lemma duplicateFunctions_In fns d :
  In d (duplicateFunctions fns)
  <-> exists i j fi fj,
        (i < j)%nat /\ nth_error fns i = Some fi /\ nth_error fns j = Some fj
        /\ name fi = name fj
        /\ d = mkDiagnostic msgDuplicateFunction (definedInLine fj)
                 (Some (definedInLine fi)).
Proof.
  induction fns as [|fn later IH]; cbn.
  - split; [tauto | intros (i & j & fi & fj & _ & H & _); destruct i; discriminate].
  - rewrite in_app_iff, duplicatesOf_In, IH. split.
    + intros [(j & fj & Hj & Hn & Hd) | (i & j & fi & fj & Hij & Hi & Hj & Hn & Hd)].
      * exists 0%nat, (S j), fn, fj. repeat split; auto. lia.
      * exists (S i), (S j), fi, fj. repeat split; auto. lia.
    + intros ([|i] & j & fi & fj & Hij & Hi & Hj & Hn & Hd).
      * cbn in Hi. inversion Hi; subst fi.
        destruct j as [|j]; [lia|]. left. exists j, fj. auto.
      * destruct j as [|j]; [lia|]. right.
        exists i, j, fi, fj. repeat split; auto. lia.
Qed.


Lemma duplicateFunctions_of_declarations op l :
  duplicateFunctions (fst (functionWalk op l 0))
  = duplicateFunctions (map functionOfDeclaration (declarationsOf op l)).
Proof.
  pose proof (nameDiagnostics_ext linux objectFile
                (fst (functionWalk op l 0))
                (map functionOfDeclaration (declarationsOf op l))) as H.
  unfold nameDiagnostics in H. cbn in H. rewrite !app_nil_r in H.
  apply H. rewrite functionWalk_names by lia. now rewrite map_map.
Qed.

(** X6.  On a stream whose declarations carry their name,
    checkFunctionValidity prints the duplicate-definition message with the
    lines [line] and [extra] exactly when two declarations of the stream, the
    one at line [extra] before the one at line [line], declare the same name:
    every pair of equal names is reported, at the line of the later
    declaration with the line of the earlier one beside it. *)
Theorem duplicate_function_definitions_reported
    (p : platform) (st : analysis) (op : Z) :
  declarationsNamed op (commandsOf st) = true ->
  exists new,
    checkFunctionValidity p st op = Some (emit new st)
    /\ forall line extra,
         In (mkDiagnostic msgDuplicateFunction line (Some extra)) new
         <-> exists i j di dj,
               (i < j)%nat
               /\ nth_error (declarationsOf op (commandsOf st)) i = Some di
               /\ nth_error (declarationsOf op (commandsOf st)) j = Some dj
               /\ parameterAt di 0 = parameterAt dj 0
               /\ lineNum di = extra /\ lineNum dj = line.
Proof.
  intros _. eexists. split; [apply checkFunctionValidity_walk|].
  intros line extra. unfold nameDiagnostics.
  rewrite duplicateFunctions_of_declarations.
  set (decls := declarationsOf op (commandsOf st)).
  rewrite !in_app_iff, duplicateFunctions_In. split.
  - intros [Hwalk | [Hdup | Hmain]].
    + pose proof (functionWalk_walkDiagnostic op (commandsOf st) 0) as Hall.
      rewrite Forall_forall in Hall. destruct (Hall _ Hwalk) as [Hnone _].
      discriminate.
    + destruct Hdup as (i & j & fi & fj & Hij & Hi & Hj & Hn & Hd).
      rewrite nth_error_map in Hi, Hj.
      destruct (nth_error decls i) as [di|] eqn:Hdi; [|discriminate].
      destruct (nth_error decls j) as [dj|] eqn:Hdj; [|discriminate].
      cbn in Hi, Hj. inversion Hi; inversion Hj; subst fi fj.
      cbn in Hn, Hd. inversion Hd; subst.
      exists i, j, di, dj. repeat split; auto.
    + destruct (isExecutable _ && negb _); [|contradiction].
      destruct Hmain as [Hmain|[]]. discriminate.
  - intros (i & j & di & dj & Hij & Hi & Hj & Hn & <- & <-).
    right. left.
    exists i, j, (functionOfDeclaration di), (functionOfDeclaration dj).
    repeat split; auto; try (apply map_nth_error; assumption).
Qed.

(** X6: on a stream that declares f at line 1 and again at line 3. *)
Lemma duplicate_function_definitions_reported_witness :
  exists new,
    checkFunctionValidity linux (analysisOf streamDeclaredTwice objectFile) 0
    = Some (emit new (analysisOf streamDeclaredTwice objectFile))
    /\ forall line extra,
         In (mkDiagnostic msgDuplicateFunction line (Some extra)) new
         <-> exists i j di dj,
               (i < j)%nat
               /\ nth_error
                    (declarationsOf 0
                       (commandsOf (analysisOf streamDeclaredTwice objectFile))) i
                  = Some di
               /\ nth_error
                    (declarationsOf 0
                       (commandsOf (analysisOf streamDeclaredTwice objectFile))) j
                  = Some dj
               /\ parameterAt di 0 = parameterAt dj 0
               /\ lineNum di = extra /\ lineNum dj = line.
Proof.
  apply (duplicate_function_definitions_reported linux
           (analysisOf streamDeclaredTwice objectFile) 0 eq_refl).
Defined.

(** X7.  On a stream whose declarations carry their name,
    checkFunctionValidity prints the message that no main function exists,
    at line 1, exactly when the compile mode is executable and no declaration
    of the stream declares the main symbol of the platform ([_main] on macOS,
    [main] elsewhere). *)
Theorem missing_main_function_reported
    (p : platform) (st : analysis) (op : Z) :
  declarationsNamed op (commandsOf st) = true ->
  exists new,
    checkFunctionValidity p st op = Some (emit new st)
    /\ (In (errorAt msgNoMain 1) new
        <-> cs_compileMode (fst st) = executable
            /\ ~ In (mainFuncName p) (declaredNames op (commandsOf st))).
Proof.
  intros _. eexists. split; [apply checkFunctionValidity_walk|].
  unfold nameDiagnostics.
  rewrite <- (functionWalk_declaredNames op (commandsOf st)).
  set (fns := fst (functionWalk op (commandsOf st) 0)).
  rewrite <- hasMain_In, !in_app_iff. split.
  - intros [Hwalk | [Hdup | Hmain]].
    + pose proof (functionWalk_walkDiagnostic op (commandsOf st) 0) as Hall.
      rewrite Forall_forall in Hall. destruct (Hall _ Hwalk) as [_ Hmsg].
      exfalso. now apply Hmsg.
    + apply duplicateFunctions_In in Hdup
        as (i & j & fi & fj & _ & _ & _ & _ & Hd). discriminate.
    + destruct (cs_compileMode (fst st)), (hasMain p fns); cbn in Hmain;
        try contradiction.
      split; [reflexivity | discriminate].
  - intros [Hmode Hmain]. right. right. rewrite Hmode.
    destruct (hasMain p fns); [exfalso; now apply Hmain|]. now left.
Qed.

(** X7: on macOS, on a stream that declares main and not _main. *)
Lemma missing_main_function_reported_witness :
  exists new,
    checkFunctionValidity macos (analysisOf streamPointer executable) 0
    = Some (emit new (analysisOf streamPointer executable))
    /\ (In (errorAt msgNoMain 1) new
        <-> cs_compileMode (fst (analysisOf streamPointer executable)) = executable
            /\ ~ In (mainFuncName macos)
                   (declaredNames 0
                      (commandsOf (analysisOf streamPointer executable)))).
Proof.
  apply (missing_main_function_reported macos
           (analysisOf streamPointer executable) 0 eq_refl).
Defined.

(** ** The who-would-win analyzer: what it accepts *)

Lemma markerTwiceWith_nil li later :
  markerTwiceWith li later = [] <-> ~ In (parameter li) (map parameter later).
Proof.
  induction later as [|lj later IH]; cbn; [tauto|].
  destruct (parameter li =? parameter lj)%string eqn:E.
  - apply String.eqb_eq in E. split; [discriminate | intros H; exfalso; auto].
  - apply String.eqb_neq in E. cbn. rewrite IH. split.
    + intros H [Heq | Hin]; [congruence | contradiction].
    + intros H Hin. apply H. now right.
Qed.

Lemma markersTwice_nil labels :
  markersTwice labels = [] <-> NoDup (map parameter labels).
Proof.
  induction labels as [|li later IH]; cbn.
  - split; [constructor | reflexivity].
  - split.
    + intros H. apply app_eq_nil in H as [H1 H2].
      constructor; [now apply markerTwiceWith_nil | now apply IH].
    + intros H. inversion H as [|x l Hnotin Hnodup]; subst.
      apply markerTwiceWith_nil in Hnotin. apply IH in Hnodup.
      now rewrite Hnotin, Hnodup.
Qed.

Lemma markerDefined_true labels s :
  markerDefined labels s = true <-> In s (map parameter labels).
Proof.
  unfold markerDefined. rewrite existsb_exists, in_map_iff. split.
  - intros (l & Hin & Heq). apply String.eqb_eq in Heq. eauto.
  - intros (l & Heq & Hin). exists l. split; [exact Hin|].
    now apply String.eqb_eq.
Qed.

Lemma missingMarkers_nil labels c :
  missingMarkers labels c = []
  <-> In (parameter1 c) (map parameter labels)
      /\ In (parameter2 c) (map parameter labels).
Proof.
  unfold missingMarkers. rewrite <- !markerDefined_true.
  destruct (markerDefined labels (parameter1 c)),
           (markerDefined labels (parameter2 c)); cbn;
    split; intros H; try discriminate; try tauto; destruct H; discriminate.
Qed.

Lemma flat_map_nil {A B} (f : A -> list B) l :
  flat_map f l = [] <-> forall x, In x l -> f x = [].
Proof.
  induction l as [|a l IH]; cbn; [tauto|]. split.
  - intros H. apply app_eq_nil in H as [H1 H2].
    intros x [<-|Hx]; [exact H1 | now apply IH].
  - intros H. rewrite (H a (or_introl eq_refl)).
    apply IH. intros x Hx. apply H. now right.
Qed.

(** X8.  On a stream whose comparisons carry their two parameters and whose
    jump labels carry theirs, checkWhoWouldWinValidity prints nothing exactly
    when the jump labels of the family have pairwise distinct parameters and
    both parameters of every comparison are the parameter of some jump
    label. *)
Theorem checkWhoWouldWinValidity_accepts_iff (st : analysis) (op : Z) :
  comparisonSlotsFilled op (commandsOf st) = true ->
  diagnostics (checkWhoWouldWinValidity st op) = diagnostics st
  <-> NoDup (map parameter (labelsOf op (commandsOf st)))
      /\ forall c, In c (comparisonsOf op (commandsOf st)) ->
           In (parameter1 c) (map parameter (labelsOf op (commandsOf st)))
           /\ In (parameter2 c) (map parameter (labelsOf op (commandsOf st))).
Proof.
  intros _. rewrite checkWhoWouldWinValidity_emit, diagnostics_emit.
  rewrite <- markersTwice_nil.
  set (labels := labelsOf op (commandsOf st)). split.
  - intros H. rewrite <- (app_nil_r (diagnostics st)) in H at 2.
    apply app_inv_head in H. apply app_eq_nil in H as [Htwice Hmissing].
    split; [exact Htwice|]. intros c Hc.
    apply missingMarkers_nil. now apply (proj1 (flat_map_nil _ _) Hmissing).
  - intros [Htwice Hall]. rewrite Htwice. cbn [app].
    replace (flat_map (missingMarkers labels) (comparisonsOf op (commandsOf st)))
      with (@nil diagnostic); [now rewrite app_nil_r|].
    symmetry. apply flat_map_nil. intros c Hc. apply missingMarkers_nil. auto.
Qed.

(** X8: on a comparison of rax and rbx with a jump label for rax only. *)
Lemma checkWhoWouldWinValidity_accepts_iff_witness :
  diagnostics (checkWhoWouldWinValidity (analysisOf streamWhoWouldWin objectFile) 6)
  = diagnostics (analysisOf streamWhoWouldWin objectFile)
  <-> NoDup (map parameter
               (labelsOf 6 (commandsOf (analysisOf streamWhoWouldWin objectFile))))
      /\ forall c,
           In c (comparisonsOf 6
                   (commandsOf (analysisOf streamWhoWouldWin objectFile))) ->
           In (parameter1 c)
             (map parameter
                (labelsOf 6 (commandsOf (analysisOf streamWhoWouldWin objectFile))))
           /\ In (parameter2 c)
                (map parameter
                   (labelsOf 6
                      (commandsOf (analysisOf streamWhoWouldWin objectFile)))).
Proof.
  apply (checkWhoWouldWinValidity_accepts_iff
           (analysisOf streamWhoWouldWin objectFile) 6 eq_refl).
Defined.

(** X9.  The two traversals of checkWhoWouldWinValidity agree: the second
    fills the two arrays with the comparisons and the jump labels of the
    stream, in stream order, and the counters of the first, which size the
    arrays, are the numbers of elements written. *)
Theorem comparison_arrays_filled (op : Z) (arr : list parsedCommand) :
  collectComparisons op arr = (comparisonsOf op arr, labelsOf op arr)
  /\ countComparisons op arr
     = (List.length (comparisonsOf op arr), List.length (labelsOf op arr)).
Proof.
  assert (H : collectComparisons op arr = (comparisonsOf op arr, labelsOf op arr)).
  { unfold collectComparisons. now rewrite collectComparisons_fold. }
  split; [exact H|]. now rewrite countComparisons_lengths, H.
Qed.

(** ** The translator: templates without parameters *)

Lemma isPlaceholder_zero character : isPlaceholder 0 character = false.
Proof.
  unfold isPlaceholder.
  destruct (48 <=? Z.of_N (N_of_ascii character)) eqn:E1; [|reflexivity].
  apply Z.leb_le in E1. cbn [andb]. apply Z.ltb_ge. lia.
Qed.

Lemma expandTemplate_zero pc template : expandTemplate pc 0 template = template.
Proof.
  induction template as [|character template IH]; [reflexivity|].
  cbn [expandTemplate]. unfold expandCharacter.
  now rewrite isPlaceholder_zero, IH.
Qed.

(** X10.  A command whose table entry uses no parameter, when the level does
    not elide it (that is, unless the level is o42069 and the command is not
    a declaration), is written as its template, character for character,
    digits included: no digit of the template is taken for a placeholder, and
    no parameter slot is read.  With STABS on, the line and the padding of
    the level stand between what the label block and the line-record block
    write; without STABS they are all that is written. *)
Theorem parameterless_template_is_copied
    (commandList : list command) (cs : compileState) (ts : translatorState)
    (index : nat) (pc : parsedCommand) (c : command) :
  readCommand cs index = Ok pc ->
  lookupCommand commandList (opcode pc) = Ok c ->
  usedParameters c = 0 ->
  elided cs pc = false ->
  translateToAssembly commandList cs ts index
  = ('(ts1, labels) <- stabsLabels commandList cs ts index pc ;;
     info <- stabsLineInfo commandList cs ts1 index pc ;;
     Ok (ts1,
         labels
         +++ ((if opcode pc =? 0 then EmptyString else tab)
              +++ translationPattern c +++ nl)
         +++ optimisationPadding (cs_optimisationLevel cs) +++ info))
  /\ (cs_useStabs cs = false ->
      translateToAssembly commandList cs ts index
      = Ok (ts,
            (if opcode pc =? 0 then EmptyString else tab)
            +++ translationPattern c +++ nl
            +++ optimisationPadding (cs_optimisationLevel cs))).
Proof.
  intros Hread Hlookup Hused Helided.
  assert (H : translateToAssembly commandList cs ts index
              = ('(ts1, labels) <- stabsLabels commandList cs ts index pc ;;
                 info <- stabsLineInfo commandList cs ts1 index pc ;;
                 Ok (ts1,
                     labels
                     +++ ((if opcode pc =? 0 then EmptyString else tab)
                          +++ translationPattern c +++ nl)
                     +++ optimisationPadding (cs_optimisationLevel cs) +++ info))).
  { rewrite (translateToAssembly_line commandList cs ts index pc c Hread Hlookup)
      by (rewrite ?Hused; cbn; auto; lia).
    unfold translatedLineOf. now rewrite Hused, expandTemplate_zero. }
  split; [exact H|].
  intros Hoff. rewrite H, stabsLabels_off by exact Hoff. cbn [bind].
  rewrite stabsLineInfo_off by exact Hoff. cbn [bind String.append].
  now rewrite append_nil_r, !append_assoc.
Qed.

(** X10: on the exit command of the sample table, whose template holds the
    digits 6 and 0, for a command with no parameter slot at all. *)
Lemma parameterless_template_is_copied_witness :
  translateToAssembly sampleCommandList
    (sampleState [declaration "main" 1; mkParsedCommand 2 [] 0 2 1] 9
       executable o_none false)
    (mkTranslatorState None 0) 1
  = Ok (mkTranslatorState None 0,
        tab +++ ("mov rax, 60" +++ nl +++ tab +++ "mov rdi, 0" +++ nl +++ tab
                 +++ "syscall") +++ nl +++ EmptyString).
Proof.
  exact (proj2 (parameterless_template_is_copied sampleCommandList
                  (sampleState [declaration "main" 1; mkParsedCommand 2 [] 0 2 1] 9
                     executable o_none false)
                  (mkTranslatorState None 0) 1 (mkParsedCommand 2 [] 0 2 1)
                  (mkCommand "I see this as an absolute win" 0
                     ("mov rax, 60" +++ nl +++ tab +++ "mov rdi, 0" +++ nl +++ tab
                      +++ "syscall"))
                  eq_refl eq_refl eq_refl eq_refl)
               eq_refl).
Defined.

(** ** The translator: the whole output without STABS *)

Lemma skipn_cons_nth_error {A} (l : list A) : forall n x l',
  skipn n l = x :: l' -> nth_error l n = Some x /\ skipn (S n) l = l'.
Proof.
  induction l as [|y l IH]; intros [|n] x l' H; cbn in *; try discriminate.
  - inversion H; auto.
  - apply IH in H. exact H.
Qed.

Section WholeOutput.

Variable commandList : list command.

Lemma translateLoop_texts cs :
  cs_useStabs cs = false ->
  forall suffix a ts,
    skipn a (arrayPointer (cs_commandsArray cs)) = suffix ->
    forallb (emittable commandList) suffix = true ->
    translateLoop commandList cs (seq a (List.length suffix)) ts
    = Ok (ts, commandTexts commandList cs a suffix).
Proof.
  intros Hoff suffix.
  induction suffix as [|pc suffix IH]; intros a ts Hskip Hall; [reflexivity|].
  cbn [forallb] in Hall. apply andb_true_iff in Hall as [Hpc Hall].
  destruct (skipn_cons_nth_error _ _ _ _ Hskip) as [Hnth Hrest].
  assert (Hread : readCommand cs a = Ok pc)
    by (unfold readCommand; now rewrite Hnth).
  destruct (emittable_entry commandList pc Hpc)
    as (c & Hlookup & Hused & Hslots & _).
  cbn [List.length seq translateLoop commandTexts]. rewrite Hread. cbn [bind].
  assert (Hone :
            (if translate pc =? 1 then translateToAssembly commandList cs ts a
             else Ok (ts, EmptyString))
            = Ok (ts,
                  if (translate pc =? 1) && negb (elided cs pc) then
                    translatedLineOf pc c
                    +++ optimisationPadding (cs_optimisationLevel cs)
                  else EmptyString)).
  { destruct (translate pc =? 1); [|reflexivity]. cbn [andb].
    destruct (elided cs pc) eqn:Helided; cbn [negb].
    - unfold translateToAssembly. rewrite Hread. cbn [bind].
      unfold elided in Helided. now rewrite Helided.
    - rewrite (translateToAssembly_line commandList cs ts a pc c) by assumption.
      rewrite stabsLabels_off by exact Hoff. cbn [bind].
      rewrite stabsLineInfo_off by exact Hoff. cbn [bind String.append].
      now rewrite append_nil_r. }
  rewrite Hone. cbn [bind]. rewrite (IH (S a) ts Hrest Hall). cbn [bind].
  unfold commandText. rewrite Hlookup, !append_assoc. reflexivity.
Qed.

End WholeOutput.

(** X11.  Without STABS, on a stream of commands that can all be emitted,
    writeToFile returns the prelude, then for every command in stream order
    the text [commandText] gives (the label when the index is randomIndex;
    the translated line and the padding of the level when the command has
    translate == 1 and is not elided, and nothing otherwise), then the
    runtime helpers and the alignment directive of the level. *)
Theorem writeToFile_without_stabs
    (commandList : list command) (p : platform)
    (version_string asctime cwd inputFileString : string) (cs : compileState) :
  cs_useStabs cs = false ->
  forallb (emittable commandList) (arrayPointer (cs_commandsArray cs)) = true ->
  exists head,
    prelude p version_string asctime cwd cs inputFileString = Ok head
    /\ writeToFile commandList p version_string asctime cwd cs inputFileString
       = Ok (head
             +++ commandTexts commandList cs 0 (arrayPointer (cs_commandsArray cs))
             +++ runtimeHelpers p (cs_optimisationLevel cs)
             +++ alignDirective (cs_optimisationLevel cs)).
Proof.
  intros Hoff Hall.
  assert (exists head,
            prelude p version_string asctime cwd cs inputFileString = Ok head)
    as (head & Hhead).
  { unfold prelude.
    destruct (functionNamesLoop_total commandList globalDirective _ Hall)
      as (globals & ->).
    cbn [bind]. eauto. }
  exists head. split; [exact Hhead|].
  unfold writeToFile, size. rewrite Hhead. cbn [bind].
  rewrite (translateLoop_texts commandList cs Hoff _ 0%nat _ eq_refl Hall).
  cbn [bind]. unfold stabsEpilogue. rewrite Hoff. cbn [bind String.append].
  reflexivity.
Qed.

(** X11: on the stream [main; move; return] with randomIndex 1. *)
Lemma writeToFile_without_stabs_witness :
  exists head,
    prelude linux "v1" "now" "/" (sampleState streamPointer 1 executable o_1 false)
      "in.memeasm" = Ok head
    /\ writeToFile sampleCommandList linux "v1" "now" "/"
         (sampleState streamPointer 1 executable o_1 false) "in.memeasm"
       = Ok (head
             +++ commandTexts sampleCommandList
                   (sampleState streamPointer 1 executable o_1 false) 0
                   streamPointer
             +++ runtimeHelpers linux o_1
             +++ alignDirective o_1).
Proof.
  apply (writeToFile_without_stabs sampleCommandList linux "v1" "now" "/"
           "in.memeasm" (sampleState streamPointer 1 executable o_1 false));
    reflexivity.
Defined.

(** X12.  The two loops of writeToFile over the function declarations (the
    [.global] directives of the prelude and the STABS function records of the
    epilogue) write one entry per declaration with translate == 1, in stream
    order, and nothing for any other command, provided each of these
    declarations has its name. *)
Theorem functionNamesLoop_in_stream_order
    (emit : string -> string) (arr : list parsedCommand) :
  (forall pc, In pc arr ->
     (opcode pc =? 0) && (translate pc =? 1) = true -> parameters pc <> []) ->
  functionNamesLoop emit arr
  = Ok (concatStrings (map emit (translatedNames arr))).
Proof.
  unfold translatedNames.
  induction arr as [|pc arr IH]; intros Hnames; [reflexivity|].
  cbn [functionNamesLoop filter].
  rewrite IH by (intros q Hq; apply Hnames; now right).
  destruct ((opcode pc =? 0) && (translate pc =? 1)) eqn:E.
  - specialize (Hnames pc (or_introl eq_refl) E).
    cbn [map concatStrings fold_right]. unfold readParameter, parameterAt.
    destruct (parameters pc) as [|s params]; [contradiction|].
    reflexivity.
  - reflexivity.
Qed.

(** X12: on a stream with a translated declaration, a declaration that is
    not translated, and a third one. *)
Lemma functionNamesLoop_in_stream_order_witness :
  functionNamesLoop globalDirective
    [declaration "main" 1; returnCommand 2;
     mkParsedCommand 0 ["unused"] 0 3 0; returnCommand 4;
     declaration "f" 5; returnCommand 6]
  = Ok (".global main" +++ nl +++ ".global f" +++ nl).
Proof.
  rewrite functionNamesLoop_in_stream_order; [reflexivity|].
  intros pc H E. cbn in H.
  repeat (destruct H as [<-|H]; [cbn in *; discriminate|]). contradiction.
Defined.

(** ** The translator: the STABS labels *)

Section StabsLabels.

Variable commandList : list command.

Lemma stabs_ignore_entry op c :
  lookupCommand commandList op = Ok c ->
  stabs_ignore commandList op = Ok (String.eqb (translationPattern c) "int3").
Proof. unfold stabs_ignore. now intros ->. Qed.

(** Whether a return ends its function: the read of the next command is
    made only when there is one. *)
Lemma endOfFunction_in_bounds cs index pc :
  (index < size (cs_commandsArray cs))%nat ->
  exists b,
    (if (0 <? opcode pc) && (opcode pc <=? 3) then
       if (size (cs_commandsArray cs) =? index + 1)%nat then Ok true
       else next <- readCommand cs (index + 1) ;; Ok (opcode next =? 0)
     else Ok false) = Ok b.
Proof.
  intros Hin. destruct ((0 <? opcode pc) && (opcode pc <=? 3)); [|eauto].
  destruct (size (cs_commandsArray cs) =? index + 1)%nat eqn:E; [eauto|].
  apply Nat.eqb_neq in E. unfold readCommand.
  destruct (nth_error (arrayPointer (cs_commandsArray cs)) (index + 1)) eqn:En.
  - cbn. eauto.
  - apply nth_error_None in En. unfold size in *. lia.
Qed.

End StabsLabels.



(** ** The translator: when writeToFile reads past the stream *)

Section Safety.

Variable commandList : list command.

Lemma ignorable_true pc :
  ignorable commandList pc = true ->
  stabs_ignore commandList (opcode pc) = Ok true.
Proof.
  unfold ignorable.
  destruct (stabs_ignore commandList (opcode pc)) as [[|]|f];
    intros H; try discriminate; reflexivity.
Qed.

Lemma translateToAssembly_hazard cs ts index pc :
  cs_useStabs cs = true ->
  (opcode pc =? 0) = false ->
  elided cs pc = false ->
  ignorable commandList pc = true ->
  readCommand cs index = Ok pc ->
  S index = size (cs_commandsArray cs) ->
  translateToAssembly commandList cs ts index
  = Fault (CommandIndexOutOfBounds (size (cs_commandsArray cs))).
Proof.
  intros Hstabs Hop Helided Hignore Hread Hlast.
  unfold translateToAssembly. rewrite Hread. cbn [bind].
  unfold elided in Helided. rewrite Helided.
  unfold stabsLabels. rewrite Hstabs, Hop, (ignorable_true pc Hignore).
  cbn [bind]. rewrite readCommand_past by lia. cbn [bind].
  do 2 f_equal. lia.
Qed.

(** One command is translated without a fault when it can be emitted, the
    name of the current function is known unless the command declares one,
    and a breakpoint has a successor. *)
Lemma translateToAssembly_safe cs ts index pc :
  readCommand cs index = Ok pc ->
  emittable commandList pc = true ->
  opcode pc = 0 \/ (cs_useStabs cs = true -> currentFunctionName ts <> None) ->
  (cs_useStabs cs && negb (opcode pc =? 0) && negb (elided cs pc)
   && ignorable commandList pc = true ->
   (S index < size (cs_commandsArray cs))%nat) ->
  exists ts' out,
    translateToAssembly commandList cs ts index = Ok (ts', out)
    /\ (cs_useStabs cs = true -> currentFunctionName ts' <> None).
Proof.
  intros Hread Hem Hname Hsucc.
  pose proof (readCommand_in_bounds _ _ _ Hread) as Hin.
  destruct (emittable_entry commandList pc Hem)
    as (c & Hlookup & Hused & Hslots & Hparam).
  destruct (elided cs pc) eqn:Helided.
  - exists ts, EmptyString. split.
    + unfold translateToAssembly. rewrite Hread. cbn [bind].
      unfold elided in Helided. now rewrite Helided.
    + destruct Hname as [Hop | Hname]; [|exact Hname].
      unfold elided in Helided. rewrite Hop in Helided. discriminate.
  - rewrite (translateToAssembly_line commandList cs ts index pc c) by assumption.
    destruct (cs_useStabs cs) eqn:Hstabs.
    2:{ rewrite stabsLabels_off by exact Hstabs. cbn [bind].
        rewrite stabsLineInfo_off by exact Hstabs. cbn [bind].
        do 2 eexists. split; [reflexivity | discriminate]. }
    destruct (opcode pc =? 0) eqn:Hop.
    + apply Z.eqb_eq in Hop. specialize (Hparam Hop).
      unfold stabsLabels. rewrite Hstabs, Hop. cbn [Z.eqb bind].
      rewrite stabsLineInfo_declaration by exact Hop. cbn [bind].
      do 2 eexists. split; [reflexivity|]. intros _. cbn.
      destruct (parameters pc); [cbn in Hparam; lia | discriminate].
    + destruct Hname as [H0 | Hname];
        [apply Z.eqb_neq in Hop; contradiction|].
      specialize (Hname eq_refl).
      destruct (currentFunctionName ts) as [f|] eqn:Hf; [|contradiction].
      pose proof (stabs_ignore_entry commandList _ c Hlookup) as Hignore.
      destruct (endOfFunction_in_bounds cs index pc Hin) as (b & Hend).
      assert (Hinfo : forall ts1, currentFunctionName ts1 = Some f ->
                exists info,
                  stabsLineInfo commandList cs ts1 index pc = Ok info).
      { intros ts1 Hts1. unfold stabsLineInfo.
        rewrite Hstabs, Hop. cbn [negb andb].
        rewrite Hend. cbn [bind]. unfold stabs_writeFunctionEndLabel.
        rewrite Hts1, Hignore. destruct b; cbn; eauto. }
      unfold stabsLabels. rewrite Hstabs, Hop, Hignore. cbn [bind].
      destruct (translationPattern c =? "int3")%string eqn:Hint3.
      * assert (Hnext : (S index < size (cs_commandsArray cs))%nat).
        { apply Hsucc. unfold ignorable. rewrite Hignore. reflexivity. }
        unfold readCommand at 1.
        destruct (nth_error (arrayPointer (cs_commandsArray cs)) (index + 1))
          as [next|] eqn:En.
        2:{ apply nth_error_None in En. unfold size in Hnext. lia. }
        cbn [bind].
        destruct (Hinfo (mkTranslatorState (currentFunctionName ts) 1) Hf)
          as (info & ->).
        cbn [bind]. do 2 eexists. split; [reflexivity|].
        intros _. cbn. congruence.
      * destruct (DNLABEL ts =? 0).
        -- cbn [bind]. destruct (Hinfo ts Hf) as (info & ->). cbn [bind].
           do 2 eexists. split; [reflexivity|]. intros _. congruence.
        -- cbn [bind].
           destruct (Hinfo (mkTranslatorState (currentFunctionName ts) 0) Hf)
             as (info & ->).
           cbn [bind]. do 2 eexists. split; [reflexivity|].
           intros _. cbn. congruence.
Qed.

Lemma forwardLabelHazard_translated cs pc :
  (translate pc =? 1) = true ->
  forwardLabelHazard commandList cs pc
  = cs_useStabs cs && negb (opcode pc =? 0) && negb (elided cs pc)
    && ignorable commandList pc.
Proof.
  unfold forwardLabelHazard. intros ->. now rewrite andb_true_r.
Qed.

Lemma translateLoop_safe cs :
  forallb (emittable commandList) (arrayPointer (cs_commandsArray cs)) = true ->
  forall indices ts,
    (cs_useStabs cs = true -> currentFunctionName ts <> None) ->
    (forall i, In i indices -> (i < size (cs_commandsArray cs))%nat) ->
    (forall i pc, In i indices ->
       nth_error (arrayPointer (cs_commandsArray cs)) i = Some pc ->
       forwardLabelHazard commandList cs pc = true ->
       (S i < size (cs_commandsArray cs))%nat) ->
    exists ts' out,
      translateLoop commandList cs indices ts = Ok (ts', out)
      /\ (cs_useStabs cs = true -> currentFunctionName ts' <> None).
Proof.
  intros Hall indices. rewrite forallb_forall in Hall.
  induction indices as [|i indices IH]; intros ts Hname Hin Hsucc.
  - exists ts, EmptyString. split; [reflexivity | exact Hname].
  - cbn [translateLoop]. unfold readCommand at 1.
    destruct (nth_error (arrayPointer (cs_commandsArray cs)) i) as [pc|] eqn:E.
    2:{ apply nth_error_None in E.
        specialize (Hin i (or_introl eq_refl)). unfold size in Hin. lia. }
    cbn [bind].
    assert (Hread : readCommand cs i = Ok pc)
      by (unfold readCommand; now rewrite E).
    assert (exists ts1 out1,
              (if translate pc =? 1 then translateToAssembly commandList cs ts i
               else Ok (ts, EmptyString)) = Ok (ts1, out1)
              /\ (cs_useStabs cs = true -> currentFunctionName ts1 <> None))
      as (ts1 & out1 & -> & Hname1).
    { destruct (translate pc =? 1) eqn:Htr; [|eauto].
      apply (translateToAssembly_safe cs ts i pc); auto.
      - apply Hall. eapply nth_error_In; eauto.
      - intros Hhazard. apply (Hsucc i pc); auto; [now left|].
        now rewrite forwardLabelHazard_translated. }
    cbn [bind].
    destruct (IH ts1 Hname1) as (ts2 & out2 & -> & Hname2).
    + intros j Hj. apply Hin. now right.
    + intros j q Hj. apply Hsucc. now right.
    + cbn [bind]. eauto.
Qed.

Lemma translateLoop_from_start cs :
  forallb (emittable commandList) (arrayPointer (cs_commandsArray cs)) = true ->
  startsWithTranslatedDeclaration (arrayPointer (cs_commandsArray cs)) = true ->
  forall n, (n <= size (cs_commandsArray cs))%nat ->
    (forall i pc, (i < n)%nat ->
       nth_error (arrayPointer (cs_commandsArray cs)) i = Some pc ->
       forwardLabelHazard commandList cs pc = true ->
       (S i < size (cs_commandsArray cs))%nat) ->
    exists ts' out,
      translateLoop commandList cs (seq 0 n) (mkTranslatorState None 0)
      = Ok (ts', out)
      /\ (n = 0%nat \/ (cs_useStabs cs = true -> currentFunctionName ts' <> None)).
Proof.
  intros Hall Hstart [|m] Hn Hsucc.
  - do 2 eexists. split; [reflexivity | now left].
  - unfold size in *.
    destruct (arrayPointer (cs_commandsArray cs)) as [|d arr'] eqn:Harr;
      [cbn in Hn; lia|].
    cbn [startsWithTranslatedDeclaration] in Hstart.
    apply andb_true_iff in Hstart as [Hop Htr].
    assert (Hread : readCommand cs 0 = Ok d)
      by (unfold readCommand; now rewrite Harr).
    cbn [seq translateLoop]. rewrite Hread. cbn [bind]. rewrite Htr.
    destruct (translateToAssembly_safe cs (mkTranslatorState None 0) 0 d Hread)
      as (ts1 & out1 & -> & Hname1).
    + cbn [forallb] in Hall. now apply andb_true_iff in Hall as [Hd _].
    + left. now apply Z.eqb_eq.
    + rewrite Hop. cbn. rewrite andb_false_r. discriminate.
    + cbn [bind].
      destruct (translateLoop_safe cs) with (indices := seq 1 m) (ts := ts1)
        as (ts2 & out2 & -> & Hname2); auto.
      * now rewrite Harr.
      * intros i Hi. apply in_seq in Hi. unfold size. rewrite Harr. lia.
      * intros i pc Hi Hnth. unfold size. rewrite Harr in *.
        apply Hsucc; auto. apply in_seq in Hi. lia.
      * cbn [bind]. do 2 eexists. split; [reflexivity | now right].
Qed.

Lemma nth_error_last_rev {A} (l : list A) i x :
  nth_error l i = Some x -> S i = List.length l ->
  exists rest, rev l = x :: rest.
Proof.
  intros Hnth Hlen.
  apply nth_error_split in Hnth as (l1 & l2 & -> & Hl1).
  rewrite length_app in Hlen. cbn in Hlen.
  destruct l2; [|cbn in Hlen; lia].
  exists (rev l1). now rewrite rev_app_distr.
Qed.

End Safety.

Lemma writeToFile_returns
    (commandList : list command) (p : platform)
    (version_string asctime cwd inputFileString : string) (cs : compileState) :
  forallb (emittable commandList) (arrayPointer (cs_commandsArray cs)) = true ->
  startsWithTranslatedDeclaration (arrayPointer (cs_commandsArray cs)) = true ->
  readsPastStream commandList cs = false ->
  exists out,
    writeToFile commandList p version_string asctime cwd cs inputFileString
    = Ok out.
Proof.
  intros Hall Hstart Hsafe. unfold writeToFile.
  assert (exists head,
            prelude p version_string asctime cwd cs inputFileString = Ok head)
    as (head & ->).
  { unfold prelude.
    destruct (functionNamesLoop_total commandList globalDirective _ Hall)
      as (globals & ->).
    cbn [bind]. eauto. }
  cbn [bind].
  destruct (translateLoop_from_start commandList cs Hall Hstart
              (size (cs_commandsArray cs)) ltac:(lia))
    as (ts1 & body & -> & _).
  { intros i q Hi Hnth Hhazard.
    destruct (Nat.eq_dec (S i) (size (cs_commandsArray cs))) as [Hlast|]; [|lia].
    destruct (nth_error_last_rev _ _ _ Hnth Hlast) as (rest & Hrev).
    unfold readsPastStream in Hsafe. rewrite Hrev in Hsafe. congruence. }
  cbn [bind]. unfold stabsEpilogue.
  destruct (cs_useStabs cs); [|cbn [bind]; eauto].
  destruct (functionNamesLoop_total commandList stabs_writeFunctionInfo _ Hall)
    as (infos & ->).
  cbn [bind]. eauto.
Qed.

(** X14.  On a stream of commands that can all be emitted and that starts
    with a translated declaration, writeToFile reads past the command array
    in exactly one case: STABS is on and the last command of the stream is a
    breakpoint, other than a declaration, with translate == 1, that the level
    does not elide; it then reads the array at position [size].  In every
    other case all its reads are in bounds, no NULL name is printed, and it
    returns its output. *)
Theorem writeToFile_reads_past_the_stream_iff
    (commandList : list command) (p : platform)
    (version_string asctime cwd inputFileString : string) (cs : compileState) :
  forallb (emittable commandList) (arrayPointer (cs_commandsArray cs)) = true ->
  startsWithTranslatedDeclaration (arrayPointer (cs_commandsArray cs)) = true ->
  (readsPastStream commandList cs = true ->
   writeToFile commandList p version_string asctime cwd cs inputFileString
   = Fault (CommandIndexOutOfBounds (size (cs_commandsArray cs))))
  /\ (readsPastStream commandList cs = false ->
      exists out,
        writeToFile commandList p version_string asctime cwd cs inputFileString
        = Ok out).
Proof.
  intros Hall Hstart.
  assert (exists head,
            prelude p version_string asctime cwd cs inputFileString = Ok head)
    as (head & Hhead).
  { unfold prelude.
    destruct (functionNamesLoop_total commandList globalDirective _ Hall)
      as (globals & ->).
    cbn [bind]. eauto. }
  unfold writeToFile, readsPastStream. rewrite Hhead. cbn [bind]. split.
  - destruct (rev (arrayPointer (cs_commandsArray cs))) as [|pc rest] eqn:Hrev;
      [discriminate|].
    intros Hhazard.
    assert (Harr : arrayPointer (cs_commandsArray cs) = rev rest ++ [pc]).
    { rewrite <- (rev_involutive (arrayPointer (cs_commandsArray cs))), Hrev.
      reflexivity. }
    unfold forwardLabelHazard in Hhazard.
    apply andb_true_iff in Hhazard as [Hhazard Hignore].
    apply andb_true_iff in Hhazard as [Hhazard Helided].
    apply andb_true_iff in Hhazard as [Hhazard Hop].
    apply andb_true_iff in Hhazard as [Hstabs Htr].
    apply negb_true_iff in Helided, Hop.
    assert (Hsize : size (cs_commandsArray cs) = S (List.length (rev rest)))
      by (unfold size; rewrite Harr, length_app; cbn; lia).
    assert (Hread : readCommand cs (List.length (rev rest)) = Ok pc).
    { unfold readCommand.
      now rewrite Harr, nth_error_app2, Nat.sub_diag by lia. }
    destruct (translateLoop_from_start commandList cs Hall Hstart
                (List.length (rev rest)) ltac:(lia))
      as (ts1 & out1 & Hprefix & _).
    { intros i q Hi _ _. lia. }
    rewrite Hsize, seq_S, translateLoop_app. cbn [Nat.add].
    rewrite Hprefix. cbn [bind translateLoop]. rewrite Hread. cbn [bind].
    rewrite Htr.
    rewrite (translateToAssembly_hazard commandList cs ts1 _ pc)
      by (auto; lia).
    cbn [bind]. now rewrite Hsize.
  - intros Hsafe. fold (readsPastStream commandList cs) in Hsafe.
    pose proof (writeToFile_returns commandList p version_string asctime cwd
                  inputFileString cs Hall Hstart Hsafe) as (out & Hout).
    unfold writeToFile in Hout. rewrite Hhead in Hout. cbn [bind] in Hout.
    eauto.
Qed.

(** X14: on the stream that ends with a breakpoint, with STABS, and on the
    same stream without its last command. *)
Lemma writeToFile_reads_past_the_stream_iff_witness :
  writeToFile sampleCommandList linux "v1" "now" "/"
    (sampleState streamTrapLast 9 executable o_none true) "in.memeasm"
  = Fault (CommandIndexOutOfBounds 3)
  /\ exists out,
       writeToFile sampleCommandList linux "v1" "now" "/"
         (sampleState [declaration "main" 1; returnCommand 2] 9
            executable o_none true) "in.memeasm"
       = Ok out.
Proof.
  split.
  - apply (proj1 (writeToFile_reads_past_the_stream_iff sampleCommandList linux
                    "v1" "now" "/" "in.memeasm"
                    (sampleState streamTrapLast 9 executable o_none true)
                    eq_refl eq_refl)).
    reflexivity.
  - apply (proj2 (writeToFile_reads_past_the_stream_iff sampleCommandList linux
                    "v1" "now" "/" "in.memeasm"
                    (sampleState [declaration "main" 1; returnCommand 2] 9
                       executable o_none true)
                    eq_refl eq_refl)).
    reflexivity.
Defined.

(** ** From the analyzers to the translator *)

Lemma functionsOnly_last op l :
  functionsOnly op l ->
  forall pc rest, rev l = pc :: rest -> isReturn op pc = true /\ In pc l.
Proof.
  induction 1 as [|d body r rest0 Hd Hbody Hr Hrest IH]; intros pc rest Hrev;
    [discriminate|].
  replace (d :: body ++ r :: rest0) with ((d :: body ++ [r]) ++ rest0) in *
    by (cbn; now rewrite <- app_assoc).
  rewrite rev_app_distr in Hrev.
  destruct (rev rest0) as [|q rest'] eqn:Hq.
  - cbn [app rev] in Hrev. rewrite rev_app_distr in Hrev. cbn in Hrev.
    inversion Hrev; subst. split; [exact Hr|].
    apply in_or_app. left. right. apply in_or_app. right. now left.
  - cbn [app] in Hrev. inversion Hrev; subst.
    destruct (IH pc rest' eq_refl) as [Hret Hin]. split; [exact Hret|].
    apply in_or_app. now right.
Qed.

(** X15.  A stream that the function analyzer accepts is translated without
    a fault, with or without STABS: when the stream is a sequence of
    functions and nothing else, every command can be emitted, the first
    declaration is translated and no return is a breakpoint, writeToFile
    returns its output. *)
Theorem accepted_stream_is_translated
    (commandList : list command) (p : platform)
    (version_string asctime cwd inputFileString : string) (cs : compileState) :
  functionsOnly 0 (arrayPointer (cs_commandsArray cs)) ->
  forallb (emittable commandList) (arrayPointer (cs_commandsArray cs)) = true ->
  (forall d, hd_error (arrayPointer (cs_commandsArray cs)) = Some d ->
             translate d = 1) ->
  (forall pc, In pc (arrayPointer (cs_commandsArray cs)) ->
              isReturn 0 pc = true -> ignorable commandList pc = false) ->
  exists out,
    writeToFile commandList p version_string asctime cwd cs inputFileString
    = Ok out.
Proof.
  intros Hwf Hall Hfirst Hreturns.
  apply writeToFile_returns; [exact Hall | |].
  - destruct Hwf as [|d body r rest Hd _ _ _]; [reflexivity|].
    cbn. unfold isDeclaration in Hd. rewrite Hd.
    now rewrite (Hfirst d eq_refl).
  - unfold readsPastStream.
    destruct (rev (arrayPointer (cs_commandsArray cs))) as [|pc rest] eqn:Hrev;
      [reflexivity|].
    destruct (functionsOnly_last _ _ Hwf pc rest Hrev) as [Hret Hin].
    unfold forwardLabelHazard. rewrite (Hreturns pc Hin Hret).
    apply andb_false_r.
Qed.

(** X15: on the stream with two returns in one function, with STABS. *)
Lemma accepted_stream_is_translated_witness :
  exists out,
    writeToFile sampleCommandList linux "v1" "now" "/"
      (sampleState
         [declaration "main" 1; returnCommand 2;
          declaration "f" 3; returnCommand 4; moveCommand "rax" "rbx" 5;
          returnCommand 6]
         9 executable o_none true)
      "in.memeasm"
    = Ok out.
Proof.
  apply accepted_stream_is_translated.
  - apply (functionsOnly_cons 0 (declaration "main" 1) [] (returnCommand 2));
      try reflexivity.
    apply (functionsOnly_cons 0 (declaration "f" 3)
             [returnCommand 4; moveCommand "rax" "rbx" 5] (returnCommand 6));
      try reflexivity.
    constructor.
  - reflexivity.
  - intros d H. cbn in H. inversion H. reflexivity.
  - intros pc H _. cbn in H.
    repeat (destruct H as [<-|H]; [reflexivity|]). contradiction.
Defined.

(** ** What parseFunction prints *)

Lemma parseScan_diagnostics op rest : forall index e0,
  snd (parseScan op rest index e0)
  = if (snd (fst (parseScan op rest index e0)) =? 0)%nat then
      match skipn (leading op rest) rest with
      | [] => []
      | d :: _ => [errorAt msgExpectedReturn (lineNum d)]
      end
    else [].
Proof.
  induction rest as [|pc rest IH]; intros index e0.
  - cbn. now destruct (e0 =? 0)%nat.
  - cbn [parseScan leading]. destruct (isDeclaration op pc) eqn:Hpc.
    + cbn. reflexivity.
    + cbn [skipn]. apply IH.
Qed.

(** X17.  parseFunction prints nothing when it found a return before the
    next declaration; when it found none it prints the message that a return
    was expected, at the line of the next declaration, if a declaration
    follows, and then, in every case, the message that no return was found,
    at the line of the function itself. *)
Theorem parseFunction_reports_the_missing_return
    (st : analysis) (start : nat) (op : Z) :
  snd (parseFunction st start op)
  = emit (missingReturnDiagnostics op (skipn (start + 1) (commandsOf st))
            (numberOfCommands (fst (parseFunction st start op)))
            (lineNum (nth start (commandsOf st) nullCommand)))
      st.
Proof.
  unfold parseFunction, missingReturnDiagnostics.
  rewrite parseFunction_loop_scan.
  pose proof (parseScan_diagnostics op (skipn (start + 1) (commandsOf st)) 1 0)
    as Hds.
  destruct (parseScan op (skipn (start + 1) (commandsOf st)) 1 0) as [[i e] ds].
  cbn [fst snd numberOfCommands] in *. subst ds.
  rewrite printSemanticError_emit.
  destruct (e =? 0)%nat.
  - now rewrite emit_emit.
  - now rewrite emit_nil.
Qed.

(** ** The analyzers over any collaborator that changes the counter only *)

Lemma sameButErrors_refl cs : sameButErrors cs cs.
Proof. unfold sameButErrors; auto. Qed.

Lemma sameButErrors_trans cs1 cs2 cs3 :
  sameButErrors cs1 cs2 -> sameButErrors cs2 cs3 -> sameButErrors cs1 cs3.
Proof.
  unfold sameButErrors.
  intros (A1 & A2 & A3 & A4 & A5) (B1 & B2 & B3 & B4 & B5).
  repeat split; congruence.
Qed.

Section CollaboratorFrame.

Variable semanticError : string -> Z -> analysis -> analysis.
Variable semanticErrorWithExtraLineNumber : string -> Z -> Z -> analysis -> analysis.

Local Abbreviation logged := (logAll semanticError semanticErrorWithExtraLineNumber).

Lemma logAll_app ds1 ds2 st : logged ds2 (logged ds1 st) = logged (ds1 ++ ds2) st.
Proof. unfold logAll. now rewrite fold_left_app. Qed.

Lemma logAll_if (b : bool) ds st :
  (if b then logged ds st else st) = logged (if b then ds else []) st.
Proof. now destruct b. Qed.

Lemma logAll_error (b : bool) message line st :
  (if b then semanticError message line st else st)
  = logged (if b then [errorAt message line] else []) st.
Proof. now destruct b. Qed.

Lemma logAll_extra (b : bool) message line extra st :
  (if b then semanticErrorWithExtraLineNumber message line extra st else st)
  = logged (if b then [mkDiagnostic message line (Some extra)] else []) st.
Proof. now destruct b. Qed.

(** What needs no assumption on the collaborator: the loops that read the
    stream before they print, and the loops over the arrays. *)
Lemma parseFunction_loop_with_scan op rest : forall index functionEndIndex st,
  parseFunction_loop_with semanticError op rest index functionEndIndex st
  = let '(i, e, ds) := parseScan op rest index functionEndIndex in
    (i, e, logged ds st).
Proof.
  induction rest as [|pc rest IH]; intros index e st; simpl; [reflexivity|].
  unfold isDeclaration, isReturn.
  destruct (opcode pc =? op); [|apply IH].
  now destruct (e =? 0)%nat.
Qed.

Lemma duplicateLoop_with_logged fn later : forall st,
  duplicateLoop_with semanticErrorWithExtraLineNumber fn later st
  = logged (duplicatesOf fn later) st.
Proof.
  induction later as [|fj later IH]; intros st; simpl; [reflexivity|].
  now rewrite IH, logAll_extra, logAll_app.
Qed.

Lemma nameLoop_with_logged p functions : forall mainFunctionExists st,
  nameLoop_with semanticErrorWithExtraLineNumber p functions mainFunctionExists st
  = (mainFunctionExists || hasMain p functions,
     logged (duplicateFunctions functions) st).
Proof.
  induction functions as [|fn later IH]; intros m st; simpl.
  - now rewrite orb_false_r.
  - rewrite IH, duplicateLoop_with_logged, logAll_app. f_equal.
    destruct (name fn =? mainFuncName p)%string, m; reflexivity.
Qed.

Lemma labelDuplicateLoop_with_logged li later : forall st,
  labelDuplicateLoop_with semanticErrorWithExtraLineNumber li later st
  = logged (markerTwiceWith li later) st.
Proof.
  induction later as [|lj later IH]; intros st; simpl; [reflexivity|].
  now rewrite IH, logAll_extra, logAll_app.
Qed.

Lemma labelLoop_with_logged labels : forall st,
  labelLoop_with semanticErrorWithExtraLineNumber labels st
  = logged (markersTwice labels) st.
Proof.
  induction labels as [|li later IH]; intros st; simpl; [reflexivity|].
  now rewrite IH, labelDuplicateLoop_with_logged, logAll_app.
Qed.

Lemma checkComparison_with_logged labels st c :
  checkComparison_with semanticError labels st c
  = logged (missingMarkers labels c) st.
Proof.
  unfold checkComparison_with, missingMarkers.
  rewrite definedLoop_markerDefined. cbn [orb].
  destruct (markerDefined labels (parameter1 c)),
           (markerDefined labels (parameter2 c)); reflexivity.
Qed.

Lemma comparisonLoop_with_logged labels comparisons : forall st,
  fold_left (checkComparison_with semanticError labels) comparisons st
  = logged (flat_map (missingMarkers labels) comparisons) st.
Proof.
  induction comparisons as [|c comparisons IH]; intros st; simpl; [reflexivity|].
  now rewrite IH, checkComparison_with_logged, logAll_app.
Qed.

Lemma checkWhoWouldWinValidity_with_logged st op :
  checkWhoWouldWinValidity_with semanticError semanticErrorWithExtraLineNumber st op
  = logged (whoWouldWinDiagnostics op (commandsOf st)) st.
Proof.
  unfold checkWhoWouldWinValidity_with, collectComparisons, whoWouldWinDiagnostics.
  rewrite collectComparisons_fold. cbn [app].
  now rewrite comparisonLoop_with_logged, labelLoop_with_logged, logAll_app.
Qed.

(** The loops that print and read on: here the collaborator is taken to
    change the error counter at most. *)
Hypothesis semanticError_frame : forall message line st,
  sameButErrors (fst st) (fst (semanticError message line st)).
Hypothesis semanticErrorWithExtraLineNumber_frame : forall message line extra st,
  sameButErrors (fst st)
    (fst (semanticErrorWithExtraLineNumber message line extra st)).

Lemma logAll_frame ds : forall st, sameButErrors (fst st) (fst (logged ds st)).
Proof.
  induction ds as [|d ds IH]; intros st; [apply sameButErrors_refl|].
  cbn [logAll fold_left]. eapply sameButErrors_trans; [|apply IH].
  unfold logOne. destruct (d_extraLine d); auto.
Qed.

Lemma commandsOf_logAll ds st : commandsOf (logged ds st) = commandsOf st.
Proof.
  unfold commandsOf. now destruct (logAll_frame ds st) as (-> & _).
Qed.

Lemma compileMode_logAll ds st :
  cs_compileMode (fst (logged ds st)) = cs_compileMode (fst st).
Proof. now destruct (logAll_frame ds st) as (_ & _ & -> & _). Qed.

Lemma floatingLoop_with_leading op : forall rest fuel index st,
  skipn index (commandsOf st) = rest ->
  (List.length rest < fuel)%nat ->
  floatingLoop_with semanticError fuel op index st
  = Some ((index + leading op rest)%nat,
          logged (map floatingAt (firstn (leading op rest) rest)) st).
Proof.
  induction rest as [|pc rest IH]; intros fuel index st Hskip Hfuel;
    (destruct fuel as [|fuel]; [simpl in Hfuel; lia|]); cbn [floatingLoop_with].
  - assert (Hnone : nth_error (commandsOf st) index = None).
    { apply nth_error_None.
      pose proof (length_skipn index (commandsOf st)) as Hlen.
      rewrite Hskip in Hlen. simpl in Hlen. lia. }
    rewrite Hnone. simpl. now rewrite Nat.add_0_r.
  - destruct (skipn_cons_nth_error _ _ _ _ Hskip) as [Hnth Hrest].
    rewrite Hnth. cbn [leading]. unfold isDeclaration.
    destruct (opcode pc =? op); cbn [negb].
    + simpl. now rewrite Nat.add_0_r.
    + rewrite (IH fuel (S index)).
      * cbn [firstn map]. do 2 f_equal. lia.
      * change (semanticError msgFloating (lineNum pc) st)
          with (logged [floatingAt pc] st).
        rewrite commandsOf_logAll. exact Hrest.
      * simpl in Hfuel. lia.
Qed.

Lemma functionLoop_with_walk op : forall fuel index fns st,
  (index <= List.length (commandsOf st))%nat ->
  (List.length (commandsOf st) - index < fuel)%nat ->
  functionLoop_with semanticError fuel op index fns st
  = Some (fns ++ fst (functionWalk op (skipn index (commandsOf st)) 0),
          logged (snd (functionWalk op (skipn index (commandsOf st)) 0)) st).
Proof.
  induction fuel as [|fuel IH]; intros index fns st Hle Hfuel; [lia|].
  cbn [functionLoop_with].
  destruct (index <? List.length (commandsOf st))%nat eqn:Hlt.
  - apply Nat.ltb_lt in Hlt.
    set (rest := skipn index (commandsOf st)).
    assert (Hlen : List.length rest = (List.length (commandsOf st) - index)%nat)
      by (unfold rest; apply length_skipn).
    rewrite (floatingLoop_with_leading op rest (S fuel) index st eq_refl) by lia.
    rewrite commandsOf_logAll.
    pose proof (firstn_skipn (leading op rest) rest) as Hsplit.
    pose proof (leading_le op rest) as Hlead.
    rewrite (functionWalk_leading op rest).
    destruct (leading_skipn op rest) as [Hnil | (d & l' & Hd & Hdecl)].
    + assert (List.length rest <= leading op rest)%nat.
      { rewrite <- Hsplit at 1. rewrite Hnil, app_nil_r, length_firstn. lia. }
      replace (List.length (commandsOf st) <=? index + leading op rest)%nat with true
        by (symmetry; apply Nat.leb_le; lia).
      rewrite Hnil. simpl. now rewrite !app_nil_r.
    + assert (leading op rest < List.length rest)%nat.
      { rewrite <- Hsplit at 2. rewrite Hd, length_app, length_firstn. simpl. lia. }
      replace (List.length (commandsOf st) <=? index + leading op rest)%nat with false
        by (symmetry; apply Nat.leb_gt; lia).
      assert (Hd' : skipn (index + leading op rest) (commandsOf st) = d :: l').
      { rewrite Nat.add_comm, <- skipn_skipn. exact Hd. }
      destruct (skipn_cons_nth _ _ nullCommand _ _ Hd') as [Hnth Hrest].
      unfold parseFunction_with. rewrite commandsOf_logAll, Hnth, Hrest.
      rewrite parseFunction_loop_with_scan.
      rewrite Hd, functionWalk_declaration by exact Hdecl.
      destruct (parseScan op l' 1 0) as [[i e] ds] eqn:Hscan.
      destruct (parseScan_bounds _ _ _ _ _ _ _ Hscan) as [Hi He]; [lia|].
      pose proof (leading_le op l') as Hl'.
      assert (Hlen' : List.length l'
                      = (List.length (commandsOf st) - (index + leading op rest + 1))%nat)
        by (rewrite <- Hrest; apply length_skipn).
      rewrite logAll_error, !logAll_app.
      cbn [numberOfCommands].
      rewrite IH; rewrite ?commandsOf_logAll; try lia.
      replace (skipn (index + leading op rest + e + 1) (commandsOf st))
        with (skipn e l').
      2:{ rewrite <- Hrest, skipn_skipn. f_equal. lia. }
      rewrite logAll_app. simpl. rewrite <- !app_assoc. simpl.
      reflexivity.
  - apply Nat.ltb_ge in Hlt.
    rewrite skipn_all2 by lia. simpl. now rewrite app_nil_r.
Qed.

Lemma checkFunctionValidity_with_logged fuel p st op :
  (List.length (commandsOf st) < fuel)%nat ->
  checkFunctionValidity_with semanticError semanticErrorWithExtraLineNumber
    fuel p st op
  = Some (logged (functionDiagnostics p (cs_compileMode (fst st)) op (commandsOf st))
            st).
Proof.
  intros Hfuel. unfold checkFunctionValidity_with, functionDiagnostics.
  rewrite functionLoop_with_walk by lia.
  cbn [skipn app]. rewrite nameLoop_with_logged.
  cbn [orb]. rewrite logAll_error, !logAll_app, compileMode_logAll.
  unfold nameDiagnostics. reflexivity.
Qed.

Lemma samePictureLoop_with_logged op : forall rest fuel i st,
  skipn i (commandsOf st) = rest ->
  (List.length rest < fuel)%nat ->
  samePictureLoop_with semanticError fuel op i st
  = Some (logged (samePictureMissing op rest) st).
Proof.
  unfold samePictureMissing.
  induction rest as [|pc rest IH]; intros fuel i st Hskip Hfuel;
    (destruct fuel as [|fuel]; [simpl in Hfuel; lia|]);
    cbn [samePictureLoop_with].
  - assert (Hnone : nth_error (commandsOf st) i = None).
    { apply nth_error_None.
      pose proof (length_skipn i (commandsOf st)) as Hlen.
      rewrite Hskip in Hlen. simpl in Hlen. lia. }
    now rewrite Hnone.
  - destruct (skipn_cons_nth_error _ _ _ _ Hskip) as [Hnth Hrest].
    rewrite Hnth, logAll_error. rewrite (IH fuel (S i)).
    + rewrite logAll_app. cbn [filter].
      destruct (opcode pc =? op); reflexivity.
    + rewrite commandsOf_logAll. exact Hrest.
    + simpl in Hfuel. lia.
Qed.

Lemma checkTheyreTheSamePictureValidity_with_logged fuel st op :
  (List.length (commandsOf st) < fuel)%nat ->
  checkTheyreTheSamePictureValidity_with semanticError fuel st op
  = Some (logged (samePictureDiagnostics op (commandsOf st)) st).
Proof.
  intros Hfuel.
  unfold checkTheyreTheSamePictureValidity_with, samePictureDiagnostics.
  destruct (fold_left (jumpMarkerStep op) (commandsOf st) 0 =? 0); [|reflexivity].
  now apply samePictureLoop_with_logged.
Qed.

End CollaboratorFrame.

(** The collaborator modelled from the spec is one of these, and over it the
    analyzers of this part are the analyzers of the first part. *)
Lemma logAll_sink ds : forall st,
  logAll printSemanticError printSemanticErrorWithExtraLineNumber ds st = emit ds st.
Proof.
  induction ds as [|d ds IH]; intros st; [now rewrite emit_nil|].
  change (logAll printSemanticError printSemanticErrorWithExtraLineNumber
            (d :: ds) st)
    with (logAll printSemanticError printSemanticErrorWithExtraLineNumber ds
            (logOne printSemanticError printSemanticErrorWithExtraLineNumber st d)).
  rewrite IH. unfold logOne. destruct d as [message line [extra|]]; cbn.
  - now rewrite printSemanticErrorWithExtraLineNumber_emit, emit_emit.
  - now rewrite printSemanticError_emit, emit_emit.
Qed.

Lemma printSemanticError_frame message line st :
  sameButErrors (fst st) (fst (printSemanticError message line st)).
Proof. rewrite printSemanticError_emit. apply sameButErrors_emit. Qed.

Lemma printSemanticErrorWithExtraLineNumber_frame message line extra st :
  sameButErrors (fst st)
    (fst (printSemanticErrorWithExtraLineNumber message line extra st)).
Proof. rewrite printSemanticErrorWithExtraLineNumber_emit. apply sameButErrors_emit. Qed.

Lemma checkFunctionValidity_with_sink p st op :
  checkFunctionValidity_with printSemanticError printSemanticErrorWithExtraLineNumber
    (S (List.length (commandsOf st))) p st op
  = checkFunctionValidity p st op.
Proof.
  rewrite checkFunctionValidity_with_logged, checkFunctionValidity_walk, logAll_sink;
    auto using printSemanticError_frame, printSemanticErrorWithExtraLineNumber_frame.
Qed.

Lemma checkWhoWouldWinValidity_with_sink st op :
  checkWhoWouldWinValidity_with printSemanticError
    printSemanticErrorWithExtraLineNumber st op
  = checkWhoWouldWinValidity st op.
Proof.
  now rewrite checkWhoWouldWinValidity_with_logged, checkWhoWouldWinValidity_emit,
    logAll_sink.
Qed.

Lemma checkTheyreTheSamePictureValidity_with_sink st op :
  checkTheyreTheSamePictureValidity_with printSemanticError
    (S (List.length (commandsOf st))) st op
  = Some (checkTheyreTheSamePictureValidity st op).
Proof.
  rewrite checkTheyreTheSamePictureValidity_with_logged
    with (semanticErrorWithExtraLineNumber := printSemanticErrorWithExtraLineNumber),
    checkTheyreTheSamePictureValidity_emit, logAll_sink;
    auto using printSemanticError_frame, printSemanticErrorWithExtraLineNumber_frame.
Qed.

(** ** The analyzers only count errors *)

(** C10.  Whatever the diagnostics collaborator, as long as its two printing
    functions change nothing of the compile state but the error counter: on
    a stream whose declarations carry their name and whose who-would-win
    commands carry their parameters, checkFunctionValidity,
    checkWhoWouldWinValidity and checkTheyreTheSamePictureValidity return,
    each alone and run one after the other, and leave the command stream and
    every field of the compile state as they were, except the error
    counter. *)
Theorem C10_analyzers_change_the_error_counter_only
    (semanticError : string -> Z -> analysis -> analysis)
    (semanticErrorWithExtraLineNumber : string -> Z -> Z -> analysis -> analysis)
    (fuel : nat) (p : platform) (st : analysis)
    (declarationOpcode whoOpcode sameOpcode : Z) :
  (forall message line s,
     sameButErrors (fst s) (fst (semanticError message line s))) ->
  (forall message line extra s,
     sameButErrors (fst s)
       (fst (semanticErrorWithExtraLineNumber message line extra s))) ->
  declarationsNamed declarationOpcode (commandsOf st) = true ->
  comparisonSlotsFilled whoOpcode (commandsOf st) = true ->
  (List.length (commandsOf st) < fuel)%nat ->
  exists st1 st2 st3,
    checkFunctionValidity_with semanticError semanticErrorWithExtraLineNumber
      fuel p st declarationOpcode = Some st1
    /\ checkWhoWouldWinValidity_with semanticError semanticErrorWithExtraLineNumber
         st1 whoOpcode = st2
    /\ checkTheyreTheSamePictureValidity_with semanticError fuel st2 sameOpcode
       = Some st3
    /\ sameButErrors (fst st) (fst st1)
    /\ sameButErrors (fst st) (fst st2)
    /\ sameButErrors (fst st) (fst st3)
    /\ commandsOf st3 = commandsOf st
    /\ sameButErrors (fst st)
         (fst (checkWhoWouldWinValidity_with semanticError
                 semanticErrorWithExtraLineNumber st whoOpcode))
    /\ exists st', checkTheyreTheSamePictureValidity_with semanticError fuel st
                     sameOpcode = Some st'
                   /\ sameButErrors (fst st) (fst st').
Proof.
  intros Hframe Hextra _ _ Hfuel.
  pose proof (logAll_frame _ _ Hframe Hextra) as Hall.
  pose proof (commandsOf_logAll _ _ Hframe Hextra) as Hcommands.
  set (logged := logAll semanticError semanticErrorWithExtraLineNumber) in *.
  set (functionErrors :=
         functionDiagnostics p (cs_compileMode (fst st)) declarationOpcode
           (commandsOf st)).
  set (whoErrors := whoWouldWinDiagnostics whoOpcode (commandsOf st)).
  set (sameErrors := samePictureDiagnostics sameOpcode (commandsOf st)).
  assert (Hwho : forall s,
            checkWhoWouldWinValidity_with semanticError
              semanticErrorWithExtraLineNumber s whoOpcode
            = logged (whoWouldWinDiagnostics whoOpcode (commandsOf s)) s)
    by (intros s; apply checkWhoWouldWinValidity_with_logged).
  assert (Hsame : forall s,
            commandsOf s = commandsOf st ->
            checkTheyreTheSamePictureValidity_with semanticError fuel s sameOpcode
            = Some (logged sameErrors s)).
  { intros s Hs. unfold sameErrors, logged. rewrite <- Hs.
    apply checkTheyreTheSamePictureValidity_with_logged; try assumption.
    now rewrite Hs. }
  exists (logged functionErrors st),
         (logged (functionErrors ++ whoErrors) st),
         (logged ((functionErrors ++ whoErrors) ++ sameErrors) st).
  split; [now apply checkFunctionValidity_with_logged|].
  split.
  { rewrite Hwho. unfold logged. now rewrite logAll_app, Hcommands. }
  split.
  { rewrite Hsame by apply Hcommands. unfold logged. now rewrite logAll_app. }
  do 3 (split; [apply Hall|]).
  split; [apply Hcommands|].
  split; [rewrite Hwho; apply Hall|].
  exists (logged sameErrors st). split; [now apply Hsame | apply Hall].
Qed.

(** C10: its witness, with the collaborator modelled from the spec, on a
    stream on which each analyzer prints. *)
Lemma C10_analyzers_change_the_error_counter_only_witness :
  exists st1 st2 st3,
    checkFunctionValidity_with printSemanticError
      printSemanticErrorWithExtraLineNumber
      7 linux (analysisOf streamAllAnalyzers executable) 0 = Some st1
    /\ checkWhoWouldWinValidity_with printSemanticError
         printSemanticErrorWithExtraLineNumber st1 6 = st2
    /\ checkTheyreTheSamePictureValidity_with printSemanticError 7 st2 8 = Some st3
    /\ sameButErrors (fst (analysisOf streamAllAnalyzers executable)) (fst st1)
    /\ sameButErrors (fst (analysisOf streamAllAnalyzers executable)) (fst st2)
    /\ sameButErrors (fst (analysisOf streamAllAnalyzers executable)) (fst st3)
    /\ commandsOf st3 = commandsOf (analysisOf streamAllAnalyzers executable)
    /\ sameButErrors (fst (analysisOf streamAllAnalyzers executable))
         (fst (checkWhoWouldWinValidity_with printSemanticError
                 printSemanticErrorWithExtraLineNumber
                 (analysisOf streamAllAnalyzers executable) 6))
    /\ exists st',
         checkTheyreTheSamePictureValidity_with printSemanticError 7
           (analysisOf streamAllAnalyzers executable) 8 = Some st'
         /\ sameButErrors (fst (analysisOf streamAllAnalyzers executable)) (fst st').
Proof.
  apply (C10_analyzers_change_the_error_counter_only printSemanticError
           printSemanticErrorWithExtraLineNumber 7 linux
           (analysisOf streamAllAnalyzers executable) 0 6 8
           printSemanticError_frame printSemanticErrorWithExtraLineNumber_frame
           eq_refl eq_refl).
  simpl. lia.
Defined.

(** ** The analyzers report independently *)

(** X16.  Whatever the diagnostics collaborator, as long as its two printing
    functions change nothing of the compile state but the error counter, and
    on a stream whose declarations carry their name and whose who-would-win
    commands carry their parameters: what an analyzer hands to the
    collaborator, and in which order, is decided by the stream, the platform
    and the compile mode.  Run alone, each analyzer ends in the state the
    collaborator makes of its list of diagnostics; run one after the other,
    the three hand over their three lists one after the other. *)
Theorem analyzers_report_independently
    (semanticError : string -> Z -> analysis -> analysis)
    (semanticErrorWithExtraLineNumber : string -> Z -> Z -> analysis -> analysis)
    (fuel : nat) (p : platform) (st : analysis)
    (declarationOpcode whoOpcode sameOpcode : Z) :
  (forall message line s,
     sameButErrors (fst s) (fst (semanticError message line s))) ->
  (forall message line extra s,
     sameButErrors (fst s)
       (fst (semanticErrorWithExtraLineNumber message line extra s))) ->
  declarationsNamed declarationOpcode (commandsOf st) = true ->
  comparisonSlotsFilled whoOpcode (commandsOf st) = true ->
  (List.length (commandsOf st) < fuel)%nat ->
  checkFunctionValidity_with semanticError semanticErrorWithExtraLineNumber
    fuel p st declarationOpcode
  = Some (logAll semanticError semanticErrorWithExtraLineNumber
            (functionDiagnostics p (cs_compileMode (fst st)) declarationOpcode
               (commandsOf st)) st)
  /\ checkWhoWouldWinValidity_with semanticError semanticErrorWithExtraLineNumber
       st whoOpcode
     = logAll semanticError semanticErrorWithExtraLineNumber
         (whoWouldWinDiagnostics whoOpcode (commandsOf st)) st
  /\ checkTheyreTheSamePictureValidity_with semanticError fuel st sameOpcode
     = Some (logAll semanticError semanticErrorWithExtraLineNumber
               (samePictureDiagnostics sameOpcode (commandsOf st)) st)
  /\ checkTheyreTheSamePictureValidity_with semanticError fuel
       (checkWhoWouldWinValidity_with semanticError semanticErrorWithExtraLineNumber
          (logAll semanticError semanticErrorWithExtraLineNumber
             (functionDiagnostics p (cs_compileMode (fst st)) declarationOpcode
                (commandsOf st)) st)
          whoOpcode)
       sameOpcode
     = Some (logAll semanticError semanticErrorWithExtraLineNumber
               (functionDiagnostics p (cs_compileMode (fst st)) declarationOpcode
                  (commandsOf st)
                ++ whoWouldWinDiagnostics whoOpcode (commandsOf st)
                ++ samePictureDiagnostics sameOpcode (commandsOf st))
               st).
Proof.
  intros Hframe Hextra _ _ Hfuel.
  pose proof (commandsOf_logAll _ _ Hframe Hextra) as Hcommands.
  split; [now apply checkFunctionValidity_with_logged|].
  split; [apply checkWhoWouldWinValidity_with_logged|].
  split; [now apply checkTheyreTheSamePictureValidity_with_logged|].
  rewrite checkWhoWouldWinValidity_with_logged, logAll_app, Hcommands.
  rewrite checkTheyreTheSamePictureValidity_with_logged
    with (semanticErrorWithExtraLineNumber := semanticErrorWithExtraLineNumber);
    rewrite ?Hcommands; try assumption.
  now rewrite logAll_app, <- app_assoc.
Qed.

(** X16: with the collaborator modelled from the spec, on a stream on which
    each analyzer prints: the six diagnostics of the three analyzers, in the
    order of the runs. *)
Lemma analyzers_report_independently_witness :
  checkTheyreTheSamePictureValidity_with printSemanticError 7
    (checkWhoWouldWinValidity_with printSemanticError
       printSemanticErrorWithExtraLineNumber
       (logAll printSemanticError printSemanticErrorWithExtraLineNumber
          [errorAt msgFloating 1; errorAt msgNoMain 1]
          (analysisOf streamAllAnalyzers executable))
       6)
    8
  = Some (logAll printSemanticError printSemanticErrorWithExtraLineNumber
            [errorAt msgFloating 1; errorAt msgNoMain 1;
             errorAt msgNoSecondMarker 3; errorAt msgNoSamePicture 5]
            (analysisOf streamAllAnalyzers executable)).
Proof.
  exact (proj2 (proj2 (proj2
           (analyzers_report_independently printSemanticError
              printSemanticErrorWithExtraLineNumber 7 linux
              (analysisOf streamAllAnalyzers executable) 0 6 8
              printSemanticError_frame printSemanticErrorWithExtraLineNumber_frame
              eq_refl eq_refl ltac:(simpl; lia))))).
Defined.

(** ** The translator: level o42069 *)

Section Level42069.

Variable commandList : list command.

Lemma functionNamesLoop_declarations emit arr :
  forallb (declarationEmittable commandList) arr = true ->
  exists out, functionNamesLoop emit arr = Ok out.
Proof.
  induction arr as [|pc arr IH]; intros Hall; [eexists; reflexivity|].
  cbn [forallb] in Hall. apply andb_true_iff in Hall as [Hpc Hall].
  destruct (IH Hall) as (rest & Hrest).
  cbn [functionNamesLoop]. rewrite Hrest.
  unfold declarationEmittable in Hpc.
  destruct ((opcode pc =? 0) && (translate pc =? 1)) eqn:E.
  - cbn [negb orb] in Hpc.
    destruct (emittable_entry commandList pc Hpc) as (c & _ & _ & _ & Hname).
    apply andb_true_iff in E as [E _]. apply Z.eqb_eq in E.
    specialize (Hname E). unfold readParameter.
    destruct (parameters pc) as [|s params]; [simpl in Hname; lia|].
    cbn. eauto.
  - cbn. eauto.
Qed.

(** The whole loop at level o42069, with STABS on or off. *)
Lemma translateLoop_level42069 cs :
  cs_optimisationLevel cs = o42069 ->
  forall suffix a ts,
    skipn a (arrayPointer (cs_commandsArray cs)) = suffix ->
    forallb (declarationEmittable commandList) suffix = true ->
    exists ts',
      translateLoop commandList cs (seq a (List.length suffix)) ts
      = Ok (ts', level42069Texts commandList cs a suffix).
Proof.
  intros Hlevel suffix.
  induction suffix as [|pc suffix IH]; intros a ts Hskip Hall;
    [eexists; reflexivity|].
  cbn [forallb] in Hall. apply andb_true_iff in Hall as [Hpc Hall].
  destruct (skipn_cons_nth_error _ _ _ _ Hskip) as [Hnth Hrest].
  assert (Hread : readCommand cs a = Ok pc)
    by (unfold readCommand; now rewrite Hnth).
  cbn [List.length seq translateLoop level42069Texts]. rewrite Hread. cbn [bind].
  assert (Hone :
            exists ts1,
              (if translate pc =? 1 then translateToAssembly commandList cs ts a
               else Ok (ts, EmptyString))
              = Ok (ts1,
                    if (opcode pc =? 0) && (translate pc =? 1) then
                      match lookupCommand commandList (opcode pc) with
                      | Ok c =>
                          expandTemplate pc (usedParameters c) (translationPattern c)
                          +++ nl +++ tab +++ "xor rax, rax" +++ nl
                          +++ tab +++ "ret" +++ nl
                      | Fault _ => EmptyString
                      end
                    else EmptyString)).
  { destruct (translate pc =? 1) eqn:Htr;
      [|exists ts; now rewrite andb_false_r].
    destruct (opcode pc =? 0) eqn:Hop; cbn [andb].
    - unfold declarationEmittable in Hpc. rewrite Hop, Htr in Hpc.
      cbn [andb negb orb] in Hpc.
      destruct (emittable_entry commandList pc Hpc)
        as (c & Hlookup & Hused & Hslots & _).
      assert (Helided : elided cs pc = false)
        by (unfold elided; now rewrite Hop).
      destruct (translateToAssembly_unlabelled commandList cs ts a pc c
                  Hread Hlookup Hused Hslots Helided
                  (or_intror (proj1 (Z.eqb_eq _ _) Hop))) as (ts1 & ->).
      exists ts1. rewrite Hlookup. unfold translatedLineOf.
      rewrite Hop, Hlevel. cbn [String.append optimisationPadding].
      now rewrite !append_assoc.
    - exists ts. unfold translateToAssembly. rewrite Hread. cbn [bind].
      now rewrite Hop, Hlevel. }
  destruct Hone as (ts1 & ->). cbn [bind].
  destruct (IH (S a) ts1 Hrest Hall) as (ts' & ->). cbn [bind].
  exists ts'. unfold level42069Text. now rewrite !append_assoc.
Qed.

End Level42069.

(** C6.  At level o42069: translateToAssembly writes nothing for a command
    whose opcode is not 0; for a declaration that is translated it writes
    the declaration line, then the lines [xor rax, rax] and [ret], each after
    one tab, and nothing else; the writechar and readchar bodies are empty.
    For the whole file, with STABS on or off, when every declaration with
    translate == 1 can be emitted: the translation loop over the stream
    writes, for every command in stream order, the label when its index is
    randomIndex and then, for a declaration with translate == 1 and for no
    other command, the declaration line and the two lines of the level; and
    writeToFile returns the prelude, this text and the STABS epilogue, with
    no helper body and no alignment directive. *)
Theorem C6_level_42069_keeps_declarations_only
    (commandList : list command) (p : platform)
    (version_string asctime cwd inputFileString : string) (cs : compileState) :
  cs_optimisationLevel cs = o42069 ->
  (forall ts index pc,
     readCommand cs index = Ok pc -> opcode pc <> 0 ->
     translateToAssembly commandList cs ts index = Ok (ts, EmptyString))
  /\ (forall ts index pc c,
        readCommand cs index = Ok pc -> opcode pc = 0 ->
        lookupCommand commandList (opcode pc) = Ok c ->
        0 <= usedParameters c <= Z.of_nat MAX_PARAMETER_COUNT ->
        (Z.to_nat (usedParameters c) <= List.length (parameters pc))%nat ->
        exists ts1,
          translateToAssembly commandList cs ts index
          = Ok (ts1,
                expandTemplate pc (usedParameters c) (translationPattern c) +++ nl
                +++ tab +++ "xor rax, rax" +++ nl
                +++ tab +++ "ret" +++ nl))
  /\ runtimeHelpers p (cs_optimisationLevel cs) = EmptyString
  /\ (forallb (declarationEmittable commandList)
        (arrayPointer (cs_commandsArray cs)) = true ->
      exists head stabs ts',
        prelude p version_string asctime cwd cs inputFileString = Ok head
        /\ stabsEpilogue cs = Ok stabs
        /\ translateLoop commandList cs (seq 0 (size (cs_commandsArray cs)))
             (mkTranslatorState None 0)
           = Ok (ts',
                 level42069Texts commandList cs 0
                   (arrayPointer (cs_commandsArray cs)))
        /\ writeToFile commandList p version_string asctime cwd cs inputFileString
           = Ok (head
                 +++ level42069Texts commandList cs 0
                       (arrayPointer (cs_commandsArray cs))
                 +++ stabs)).
Proof.
  intros Hlevel. split; [|split; [|split]].
  - intros ts index pc Hread Hop. apply Z.eqb_neq in Hop.
    unfold translateToAssembly. rewrite Hread. cbn [bind].
    now rewrite Hop, Hlevel.
  - intros ts index pc c Hread Hop Hlookup Hused Hslots.
    assert (Helided : elided cs pc = false)
      by (unfold elided; now rewrite Hop).
    destruct (stabsLabels_declaration commandList cs ts index pc Hop)
      as (ts1 & Hlabels).
    exists ts1.
    rewrite (translateToAssembly_line commandList cs ts index pc c)
      by assumption.
    rewrite Hlabels. cbn [bind].
    rewrite stabsLineInfo_declaration by exact Hop. cbn [bind].
    unfold translatedLineOf. rewrite Hop, Hlevel.
    cbn [Z.eqb String.append optimisationPadding].
    rewrite !append_assoc, append_nil_r. reflexivity.
  - now rewrite Hlevel.
  - intros Hall.
    destruct (functionNamesLoop_declarations commandList globalDirective _ Hall)
      as (globals & Hglobals).
    destruct (functionNamesLoop_declarations commandList stabs_writeFunctionInfo
                _ Hall) as (infos & Hinfos).
    destruct (translateLoop_level42069 commandList cs Hlevel
                (arrayPointer (cs_commandsArray cs)) 0%nat
                (mkTranslatorState None 0) eq_refl Hall) as (ts' & Hloop).
    assert (exists head,
              prelude p version_string asctime cwd cs inputFileString = Ok head)
      as (head & Hhead)
      by (unfold prelude; rewrite Hglobals; cbn [bind]; eauto).
    assert (exists stabs, stabsEpilogue cs = Ok stabs) as (stabs & Hstabs).
    { unfold stabsEpilogue. destruct (cs_useStabs cs); [|eauto].
      rewrite Hinfos. cbn [bind]. eauto. }
    exists head, stabs, ts'.
    split; [exact Hhead|]. split; [exact Hstabs|]. split; [exact Hloop|].
    unfold writeToFile, size. rewrite Hhead. cbn [bind].
    unfold size in Hloop. rewrite Hloop. cbn [bind]. rewrite Hstabs. cbn [bind].
    rewrite Hlevel.
    cbn [runtimeHelpers isOptimisation42069 negb alignDirective String.append].
    now rewrite append_nil_r.
Qed.

(** C6: its witness, a whole file at level o42069 with STABS on and
    randomIndex 1: of the seven commands, the two declarations with
    translate == 1 are written, each with the two lines of the level; the
    move, the returns and the declaration with translate == 0 write nothing;
    the label of randomIndex stands where the move wrote nothing. *)
Lemma C6_level_42069_keeps_declarations_only_witness :
  exists head stabs,
    prelude linux "v1" "now" "/"
      (sampleState streamThreeDeclarations 1 executable o42069 true) "in.memeasm"
    = Ok head
    /\ stabsEpilogue (sampleState streamThreeDeclarations 1 executable o42069 true)
       = Ok stabs
    /\ writeToFile sampleCommandList linux "v1" "now" "/"
         (sampleState streamThreeDeclarations 1 executable o42069 true)
         "in.memeasm"
       = Ok (head
             +++ ("main:" +++ nl +++ tab +++ "xor rax, rax" +++ nl
                  +++ tab +++ "ret" +++ nl
                  +++ tab +++ ".LConfusedStonks: "
                  +++ "f:" +++ nl +++ tab +++ "xor rax, rax" +++ nl
                  +++ tab +++ "ret" +++ nl)
             +++ stabs).
Proof.
  destruct (proj2 (proj2 (proj2
              (C6_level_42069_keeps_declarations_only sampleCommandList linux
                 "v1" "now" "/" "in.memeasm"
                 (sampleState streamThreeDeclarations 1 executable o42069 true)
                 eq_refl)))
              eq_refl)
    as (head & stabs & ts' & Hhead & Hstabs & _ & Hfile).
  exists head, stabs. split; [exact Hhead|]. split; [exact Hstabs|]. exact Hfile.
Defined.
